(** * Comp.js: a shallow embedding of [src/comp/index.ts]

    The component classes of Comp.js are modelled over an explicit store:
    objects live in a heap and are referred to by location, the host
    document is a forest of live elements, and every method is a
    computation in a state-and-exception monad whose outcome keeps the
    world reached, also when the method throws. *)

From Stdlib Require Import ZArith String Ascii List Lia Bool DecimalString.
From Stdlib Require Import Sorting.Sorted Sorting.Permutation.
From stdpp Require Import base list.
Import ListNotations.

Local Open Scope list_scope.
Local Open Scope string_scope.

(** ** Strings *)

(** The double-quote character of the template literals. *)
Definition dq : string := String (ascii_of_nat 34) EmptyString.
Definition space : ascii := ascii_of_nat 32.

(** [Array.prototype.join]. *)
Fixpoint join (sep : string) (l : list string) : string :=
  match l with
  | [] => ""
  | x :: xs => match xs with
               | [] => x
               | _ :: _ => x ++ sep ++ join sep xs
               end
  end.

(** [String.prototype.split] with a one-character separator. *)
Fixpoint split (c : ascii) (s : string) : list string :=
  match s with
  | EmptyString => [""]
  | String a s' =>
      if Ascii.eqb a c then "" :: split c s'
      else match split c s' with
           | [] => [String a ""]
           | w :: ws => String a w :: ws
           end
  end.

(** Does the character occur in the string? *)
Fixpoint has_char (c : ascii) (s : string) : bool :=
  match s with
  | EmptyString => false
  | String a s' => Ascii.eqb a c || has_char c s'
  end.

(** ** JavaScript values and objects *)

(** The primitive values that reach the markup; numbers are the integers. *)
Inductive Value :=
| VUndefined
| VNull
| VBool (b : bool)
| VNum (n : Z)
| VStr (s : string).

(** String conversion inside a template literal. *)
Definition toString (v : Value) : string :=
  match v with
  | VUndefined => "undefined"
  | VNull => "null"
  | VBool true => "true"
  | VBool false => "false"
  | VNum n => NilZero.string_of_int (Z.to_int n)
  | VStr s => s
  end.

(** A plain object: its own string-keyed properties in creation order. *)
Definition Obj (V : Type) := list (string * V).

Definition is_digit (a : ascii) : bool :=
  let n := nat_of_ascii a in (48 <=? n)%nat && (n <=? 57)%nat.

Fixpoint digits_value (acc : N) (s : string) : option N :=
  match s with
  | EmptyString => Some acc
  | String a s' =>
      if is_digit a
      then digits_value (acc * 10 + N.of_nat (nat_of_ascii a - 48)) s'
      else None
  end.

(** An array index: the canonical decimal form of an integer below 2^32 - 1. *)
Definition array_index (k : string) : option N :=
  match k with
  | EmptyString => None
  | String a rest =>
      if Ascii.eqb a "0"%char
      then match rest with EmptyString => Some 0%N | _ => None end
      else match digits_value 0 k with
           | Some n => if (n <=? 4294967294)%N then Some n else None
           | None => None
           end
  end.

Definition is_array_index (k : string) : bool :=
  match array_index k with Some _ => true | None => false end.

Fixpoint insert_index (e : N * string) (l : list (N * string)) : list (N * string) :=
  match l with
  | [] => [e]
  | x :: xs => if (fst e <=? fst x)%N then e :: l else x :: insert_index e xs
  end.

Fixpoint index_keys {V} (o : Obj V) : list (N * string) :=
  match o with
  | [] => []
  | (k, _) :: o' =>
      match array_index k with
      | Some n => insert_index (n, k) (index_keys o')
      | None => index_keys o'
      end
  end.

Fixpoint string_keys {V} (o : Obj V) : list string :=
  match o with
  | [] => []
  | (k, _) :: o' => if is_array_index k then string_keys o' else k :: string_keys o'
  end.

(** [Object.keys]: array indices in ascending order, then the other keys
    in creation order. *)
Definition Object_keys {V} (o : Obj V) : list string :=
  (map snd (index_keys o) ++ string_keys o)%list.

(** Property read [o[key]]; [None] stands for an absent property. *)
Fixpoint obj_get {V} (o : Obj V) (key : string) : option V :=
  match o with
  | [] => None
  | (k, v) :: o' => if String.eqb k key then Some v else obj_get o' key
  end.

(** Property write [o[key] = v]: an existing property keeps its place. *)
Fixpoint obj_set {V} (o : Obj V) (key : string) (v : V) : Obj V :=
  match o with
  | [] => [(key, v)]
  | (k, v0) :: o' =>
      if String.eqb k key then (k, v) :: o' else (k, v0) :: obj_set o' key v
  end.

(** An attribute read: an absent property reads as [undefined]. *)
Definition attr_get (attr : Obj Value) (key : string) : Value :=
  match obj_get attr key with Some v => v | None => VUndefined end.

Definition is_undefined (v : Value) : bool :=
  match v with VUndefined => true | _ => false end.

(** ** Class names: [IClassNames] *)

Inductive IClassNames :=
| ClassString (s : string)
| ClassArray (l : list string)
| ClassMap (m : Obj bool).

(** The class-name normalisation of [compose]. *)
Definition normalizeClassNames (classNames : IClassNames) : list string :=
  match classNames with
  | ClassString s => split space s
  | ClassArray l => l
  | ClassMap m =>
      List.filter
        (fun key => match obj_get m key with Some b => b | None => false end)
        (Object_keys m)
  end.

(** The helper [_attr] of [_toHtml]. *)
Definition render_attr (attr : Obj Value) (key : string) : string :=
  match attr_get attr key with
  | VNull => key
  | v => key ++ "=" ++ dq ++ toString v ++ dq
  end.

Definition _attr (attr : Obj Value) : string :=
  join " "
    (map (render_attr attr)
       (List.filter (fun key => negb (is_undefined (attr_get attr key)))
          (Object_keys attr))).


(** ** The host document

    The live tree is a forest: an element with its attribute [comp-id], the
    listeners bound to it and its child forest, followed by its later
    siblings. Text nodes and the other attributes play no part in the code. *)

(** Locations in the store. *)
Abbreviation loc := nat.

(** One entry of [registrations]; a listener is a reference to a function
    object. *)
Record Registration := {
  type : string;
  listener : loc;
  useCapture : bool }.

Definition Registration_eqb (r1 r2 : Registration) : bool :=
  String.eqb (type r1) (type r2) && Nat.eqb (listener r1) (listener r2)
  && Bool.eqb (useCapture r1) (useCapture r2).

Inductive Forest :=
| FNil
| FCons (compId : option string) (listeners : list Registration)
        (childNodes : Forest) (nextSiblings : Forest).

(** A handle on a live element: the sibling index at each level. *)
Definition Handle := list nat.

Fixpoint fapp (f g : Forest) : Forest :=
  match f with
  | FNil => g
  | FCons a ls ks rest => FCons a ls ks (fapp rest g)
  end.

Fixpoint flength (f : Forest) : nat :=
  match f with
  | FNil => 0
  | FCons _ _ _ rest => S (flength rest)
  end.

Definition has_compId (cid : string) (a : option string) : bool :=
  match a with Some v => String.eqb v cid | None => false end.

Definition bump (p : Handle) : Handle :=
  match p with
  | [] => []
  | i :: p' => S i :: p'
  end.

(** The first element in document order whose [comp-id] is [cid]. *)
Fixpoint find_compId (cid : string) (f : Forest) : option Handle :=
  match f with
  | FNil => None
  | FCons a _ ks rest =>
      if has_compId cid a then Some [0]
      else match find_compId cid ks with
           | Some p => Some (0 :: p)
           | None => option_map bump (find_compId cid rest)
           end
  end.

(** The attribute and the listeners of the element at a handle. *)
Fixpoint element_at (p : Handle) (f : Forest) : option (option string * list Registration) :=
  match f, p with
  | FNil, _ => None
  | FCons _ _ _ _, [] => None
  | FCons a ls _ _, [0] => Some (a, ls)
  | FCons _ _ ks _, 0 :: p' => element_at p' ks
  | FCons _ _ _ rest, S i :: p' => element_at (i :: p') rest
  end.

(** [insertAdjacentHTML('beforebegin', ...)] once the markup is parsed:
    the new elements become the siblings just before the element. *)
Fixpoint insert_before (p : Handle) (new : Forest) (f : Forest) : Forest :=
  match f, p with
  | FNil, _ => FNil
  | FCons _ _ _ _, [] => f
  | FCons _ _ _ _, [0] => fapp new f
  | FCons a ls ks rest, 0 :: p' => FCons a ls (insert_before p' new ks) rest
  | FCons a ls ks rest, S i :: p' => FCons a ls ks (insert_before (i :: p') new rest)
  end.

(** [Element.remove]. *)
Fixpoint remove_at (p : Handle) (f : Forest) : Forest :=
  match f, p with
  | FNil, _ => FNil
  | FCons _ _ _ _, [] => f
  | FCons _ _ _ rest, [0] => rest
  | FCons a ls ks rest, 0 :: p' => FCons a ls (remove_at p' ks) rest
  | FCons a ls ks rest, S i :: p' => FCons a ls ks (remove_at (i :: p') rest)
  end.

(** The handle of an element after [k] siblings were put before it. *)
Fixpoint shift_last (k : nat) (p : Handle) : Handle :=
  match p with
  | [] => []
  | [i] => [k + i]
  | i :: p' => i :: shift_last k p'
  end.

(** [addEventListener]: a listener already bound with the same type,
    callback and capture flag is not bound again. *)
Definition add_listener (r : Registration) (ls : list Registration) : list Registration :=
  if existsb (Registration_eqb r) ls then ls else (ls ++ [r])%list.

Fixpoint addEventListener (p : Handle) (r : Registration) (f : Forest) : Forest :=
  match f, p with
  | FNil, _ => FNil
  | FCons _ _ _ _, [] => f
  | FCons a ls ks rest, [0] => FCons a (add_listener r ls) ks rest
  | FCons a ls ks rest, 0 :: p' => FCons a ls (addEventListener p' r ks) rest
  | FCons a ls ks rest, S i :: p' => FCons a ls ks (addEventListener (i :: p') r rest)
  end.

(** An unquoted attribute value in a selector has to be a CSS identifier
    (escapes left out): [querySelector] raises a SyntaxError otherwise. *)
Definition is_name_char (a : ascii) : bool :=
  let n := nat_of_ascii a in
  is_digit a || ((65 <=? n)%nat && (n <=? 90)%nat) || ((97 <=? n)%nat && (n <=? 122)%nat)
  || Nat.eqb n 95 || Nat.eqb n 45 || (128 <=? n)%nat.

Fixpoint all_name_chars (s : string) : bool :=
  match s with
  | EmptyString => true
  | String a s' => is_name_char a && all_name_chars s'
  end.

Definition css_identifier (s : string) : bool :=
  all_name_chars s &&
  match s with
  | EmptyString => false
  | String a rest =>
      if is_digit a then false
      else if Nat.eqb (nat_of_ascii a) 45
           then match rest with
                | EmptyString => false
                | String b _ => negb (is_digit b)
                end
           else true
  end.

(** A parser for the markup that [_toHtml] writes, for hosts to run the
    code on: tags nest, [/>] ends an element at once, text is dropped and
    elements left open are closed at the end. *)
Record Frame := {
  frame_compId : option string;
  frame_children : Forest }.

Fixpoint strip_prefix (p s : string) : option string :=
  match p with
  | EmptyString => Some s
  | String a p' =>
      match s with
      | EmptyString => None
      | String b s' => if Ascii.eqb a b then strip_prefix p' s' else None
      end
  end.

Fixpoint until_quote (s : string) : string :=
  match s with
  | EmptyString => ""
  | String a s' => if Nat.eqb (nat_of_ascii a) 34 then "" else String a (until_quote s')
  end.

(** The value of the attribute [comp-id] in the text of a tag. *)
Fixpoint attr_compId (s : string) : option string :=
  match strip_prefix ("comp-id=" ++ dq) s with
  | Some rest => Some (until_quote rest)
  | None => match s with
            | EmptyString => None
            | String _ s' => attr_compId s'
            end
  end.

Fixpoint ends_with_slash (s : string) : bool :=
  match s with
  | EmptyString => false
  | String a EmptyString => Ascii.eqb a "/"%char
  | String _ s' => ends_with_slash s'
  end.

Definition add_node (e : Forest) (top : Forest) (stack : list Frame)
    : Forest * list Frame :=
  match stack with
  | [] => (fapp top e, [])
  | fr :: st =>
      (top, {| frame_compId := frame_compId fr;
               frame_children := fapp (frame_children fr) e |} :: st)
  end.

Definition finish_tag (t : string) (top : Forest) (stack : list Frame)
    : Forest * list Frame :=
  match t with
  | String "/"%char _ =>
      match stack with
      | [] => (top, [])
      | fr :: st => add_node (FCons (frame_compId fr) [] (frame_children fr) FNil) top st
      end
  | _ =>
      if ends_with_slash t
      then add_node (FCons (attr_compId t) [] FNil FNil) top stack
      else (top, {| frame_compId := attr_compId t; frame_children := FNil |} :: stack)
  end.

Fixpoint close_all (pending : Forest) (stack : list Frame) (top : Forest) : Forest :=
  match stack with
  | [] => fapp top pending
  | fr :: st =>
      close_all (FCons (frame_compId fr) [] (fapp (frame_children fr) pending) FNil) st top
  end.

Fixpoint scan (s : string) (tag : option string) (top : Forest) (stack : list Frame)
    : Forest :=
  match s with
  | EmptyString => close_all FNil stack top
  | String a s' =>
      match tag with
      | None =>
          if Ascii.eqb a "<"%char then scan s' (Some "") top stack
          else scan s' None top stack
      | Some t =>
          if Ascii.eqb a ">"%char
          then let (top', stack') := finish_tag t top stack in scan s' None top' stack'
          else scan s' (Some (t ++ String a "")) top stack
      end
  end.

Definition parseMarkup (s : string) : Forest := scan s None FNil [].

(** ** Objects, options and the world *)

Inductive TagRenderMode := normal | selfClosing | startTag.

(** The numeric value of an enum member decides its truthiness. *)
Definition TagRenderMode_value (m : TagRenderMode) : nat :=
  match m with normal => 0 | selfClosing => 1 | startTag => 2 end.

(** A member of a [children: any[]] array: plain text or an object. *)
Inductive Arg :=
| AText (s : string)
| ANode (l : loc).

(** [IHtmlOptions]. *)
Record IHtmlOptions := {
  o_tagName : string;
  o_attributes : Obj Value;
  o_classNames : IClassNames;
  o_children : list Arg;
  o_renderMode : option TagRenderMode }.

(** What the body of a [mapper] evaluates: a call of the tag factories
    ([element], [selfClosingElement], [new Literal]) over plain text and
    objects that exist already. *)
#[warnings="-register-all"]
Inductive Expr :=
| EText (s : string)
| ERef (l : loc)
| ELiteral (literal : string)
| EElement (tagName : string) (attributes : Obj Value) (classNames : IClassNames)
           (children : list Expr)
| ESelfClosing (tagName : string) (attributes : Obj Value) (classNames : IClassNames).

(** The classes of the file. *)
Inductive Class :=
| CComp | CSystemComp | CUserComp | CBuiltinComp
| CIf | CFor | CSelect | CRouterPage | CRouterOutlet | CRouterLink | CTest | CRating.

Inductive Error := TypeError | RangeError | SyntaxError.

(** The code of a function object: the click handler that [Rating.init]
    creates, closed over its [this], or a function of the caller. *)
Inductive Closure :=
| RatingClick (self : loc)
| CallerFunction (name : string).

Record Literal := {
  literal_parent : option loc;
  literal : string }.

(** What the host provides: the outcomes of [Math.floor(Math.random() * 62)]
    call after call, the markup parser behind [innerHTML] and
    [insertAdjacentHTML], the selector of the container whose content is
    the document forest, the global [name] (the name of the window) and the
    depth of the call stack. *)
Record Host := {
  Math_random : nat -> nat;
  parseHTML : string -> Forest;
  containerSelector : string;
  window_name : string;
  stackDepth : nat }.

Section Items.

(** The item type of [For<T>]. *)
Context {T : Type}.

(** The option objects, by shape; [OptAny] is one that [init] never reads. *)
Inductive Options :=
| OptAny
| OptHtml (o : IHtmlOptions)
| OptIf (cond : bool) (thenComp elseComp : loc)
| OptFor (data : list T) (mapper : T -> Expr)
| OptSelect (data : list T) (name : string) (labelMapper valueMapper : T -> string)
            (useRadio : bool)
| OptTest (title description : Arg)
| OptRating (name : string) (rating : Z).

(** The argument of [update]: the properties it carries. *)
Inductive Patch :=
| PatchNone
| PatchHtml (tagName : option string) (attributes : option (Obj Value))
            (classNames : option IClassNames) (children : option (list Arg))
            (renderMode : option TagRenderMode)
| PatchIf (cond : option bool) (thenComp elseComp : option loc)
| PatchFor (data : option (list T)) (mapper : option (T -> Expr))
| PatchSelect (data : option (list T)) (name : option string)
              (labelMapper valueMapper : option (T -> string)) (useRadio : option bool)
| PatchTest (title description : option Arg)
| PatchRating (name : option string) (rating : option Z).

(** An instance of [Comp<T>] or of one of its subclasses. *)
Record Comp := {
  class : Class;
  id : string;
  options : Options;
  tagName : string;
  attributes : Obj Value;
  classNames : list string;
  children : list Arg;
  content : option string;
  parent : option loc;
  registrations : list Registration;
  renderMode : option TagRenderMode }.

Inductive JsObject :=
| OLiteral (l : Literal)
| OComp (c : Comp)
| OFunction (f : Closure).

Record World := {
  host : Host;
  heap : list JsObject;
  draws : nat;
  document : Forest }.

(** ** Computations: state and exceptions *)

Inductive Outcome (A : Type) :=
| Ok (a : A) (w : World)
| Throw (e : Error) (w : World).
Arguments Ok {A} a w.
Arguments Throw {A} e w.

Definition M (A : Type) := World -> Outcome A.

Definition ret {A} (a : A) : M A := fun w => Ok a w.

Definition throw {A} (e : Error) : M A := fun w => Throw e w.

Definition bind {A B} (m : M A) (k : A -> M B) : M B :=
  fun w => match m w with
           | Ok a w' => k a w'
           | Throw e w' => Throw e w'
           end.

Definition final {A} (o : Outcome A) : World :=
  match o with Ok _ w => w | Throw _ w => w end.

Definition returns {A} (o : Outcome A) : bool :=
  match o with Ok _ _ => true | Throw _ _ => false end.

End Items.

Arguments Options : clear implicits.
Arguments Patch : clear implicits.
Arguments Comp : clear implicits.
Arguments JsObject : clear implicits.
Arguments World : clear implicits.
Arguments Outcome : clear implicits.
Arguments Ok {T A} a w.
Arguments Throw {T A} e w.
Arguments M : clear implicits.

Notation "'let!' x ':=' m 'in' k" := (bind m (fun x => k))
  (at level 10, x name, m at level 200, k at level 200).
Notation "m '>>' k" := (bind m (fun _ => k))
  (at level 90, right associativity).

Section Runtime.

Context {T : Type}.

Local Abbreviation Comp := (Comp T).
Local Abbreviation World := (World T).
Local Abbreviation M := (M T).

Definition set_heap (h : list (JsObject T)) (w : World) : World :=
  {| host := host w; heap := h; draws := draws w; document := document w |}.

Definition set_draws (n : nat) (w : World) : World :=
  {| host := host w; heap := heap w; draws := n; document := document w |}.

Definition set_document (d : Forest) (w : World) : World :=
  {| host := host w; heap := heap w; draws := draws w; document := d |}.

(** Assignments to the fields of a component. *)
Definition with_options (v : Options T) (c : Comp) : Comp :=
  {| class := class c; id := id c; options := v; tagName := tagName c;
     attributes := attributes c; classNames := classNames c; children := children c;
     content := content c; parent := parent c; registrations := registrations c;
     renderMode := renderMode c |}.

Definition with_tagName (v : string) (c : Comp) : Comp :=
  {| class := class c; id := id c; options := options c; tagName := v;
     attributes := attributes c; classNames := classNames c; children := children c;
     content := content c; parent := parent c; registrations := registrations c;
     renderMode := renderMode c |}.

Definition with_attributes (v : Obj Value) (c : Comp) : Comp :=
  {| class := class c; id := id c; options := options c; tagName := tagName c;
     attributes := v; classNames := classNames c; children := children c;
     content := content c; parent := parent c; registrations := registrations c;
     renderMode := renderMode c |}.

Definition with_classNames (v : list string) (c : Comp) : Comp :=
  {| class := class c; id := id c; options := options c; tagName := tagName c;
     attributes := attributes c; classNames := v; children := children c;
     content := content c; parent := parent c; registrations := registrations c;
     renderMode := renderMode c |}.

Definition with_children (v : list Arg) (c : Comp) : Comp :=
  {| class := class c; id := id c; options := options c; tagName := tagName c;
     attributes := attributes c; classNames := classNames c; children := v;
     content := content c; parent := parent c; registrations := registrations c;
     renderMode := renderMode c |}.

Definition with_content (v : option string) (c : Comp) : Comp :=
  {| class := class c; id := id c; options := options c; tagName := tagName c;
     attributes := attributes c; classNames := classNames c; children := children c;
     content := v; parent := parent c; registrations := registrations c;
     renderMode := renderMode c |}.

Definition with_parent (v : option loc) (c : Comp) : Comp :=
  {| class := class c; id := id c; options := options c; tagName := tagName c;
     attributes := attributes c; classNames := classNames c; children := children c;
     content := content c; parent := v; registrations := registrations c;
     renderMode := renderMode c |}.

Definition with_registrations (v : list Registration) (c : Comp) : Comp :=
  {| class := class c; id := id c; options := options c; tagName := tagName c;
     attributes := attributes c; classNames := classNames c; children := children c;
     content := content c; parent := parent c; registrations := v;
     renderMode := renderMode c |}.

Definition with_renderMode (v : option TagRenderMode) (c : Comp) : Comp :=
  {| class := class c; id := id c; options := options c; tagName := tagName c;
     attributes := attributes c; classNames := classNames c; children := children c;
     content := content c; parent := parent c; registrations := registrations c;
     renderMode := v |}.

(** *** Access to the store *)

(** Reading [this]: a method called on anything but a component throws. *)
Definition getComp (this : loc) : M Comp :=
  fun w => match heap w !! this with
           | Some (OComp c) => Ok c w
           | _ => Throw TypeError w
           end.

Definition modifyComp (this : loc) (f : Comp -> Comp) : M unit :=
  fun w => match heap w !! this with
           | Some (OComp c) => Ok tt (set_heap (<[this := OComp (f c)]> (heap w)) w)
           | _ => Throw TypeError w
           end.

(** The world once the component at [this] is [c]. *)
Definition put (this : loc) (c : Comp) (w : World) : World :=
  set_heap (<[this := OComp c]> (heap w)) w.

Definition gets {A} (f : World -> A) : M A :=
  fun w => Ok (f w) w.

(** A new object takes the next location. *)
Definition alloc (o : JsObject T) : M loc :=
  fun w => Ok (length (heap w)) (set_heap (heap w ++ [o])%list w).

Fixpoint forEach {A} (l : list A) (f : A -> M unit) : M unit :=
  match l with
  | [] => ret tt
  | x :: xs => f x >> forEach xs f
  end.

Fixpoint mapM {A B} (f : A -> M B) (l : list A) : M (list B) :=
  match l with
  | [] => ret []
  | x :: xs => let! y := f x in let! ys := mapM f xs in ret (y :: ys)
  end.

(** [child.parent = this]: strict code cannot create a property on a
    string; a property put on a function object is not tracked. *)
Definition set_parent (this : loc) (child : Arg) : M unit :=
  match child with
  | AText _ => throw TypeError
  | ANode l =>
      fun w => match heap w !! l with
               | Some (OLiteral lit) =>
                   Ok tt (set_heap
                            (<[l := OLiteral {| literal_parent := Some this;
                                                literal := literal lit |}]> (heap w)) w)
               | Some (OComp c) =>
                   Ok tt (set_heap (<[l := OComp (with_parent (Some this) c)]> (heap w)) w)
               | Some (OFunction _) => Ok tt w
               | None => Throw TypeError w
               end
  end.

(** *** [Comp] *)

Definition base62Chars : string :=
  "0123456789ABCDEFGHIJKLMNOPQRSTUVWXYZabcdefghijklmnopqrstuvwxyz".

Definition base62 (n : nat) : ascii :=
  match String.get (n mod 62) base62Chars with
  | Some a => a
  | None => "0"%char
  end.

Fixpoint random_chars (rnd : nat -> nat) (pos length : nat) : string :=
  match length with
  | 0 => ""
  | S n => String (base62 (rnd pos)) (random_chars rnd (S pos) n)
  end.

Definition _generateId (length : nat) : M string :=
  fun w => Ok (random_chars (Math_random (host w)) (draws w) length)
              (set_draws (draws w + length) w).

Definition appendChild (this : loc) (child : loc) : M loc :=
  set_parent this (ANode child) >>
  modifyComp this (fun c => with_children (children c ++ [ANode child])%list c) >>
  ret this.

Definition compose (this : loc) (tagName : string) (attributes : Obj Value)
    (classNames : IClassNames) (children : list Arg) : M loc :=
  modifyComp this (with_tagName tagName) >>
  modifyComp this (with_attributes attributes) >>
  modifyComp this (with_classNames (normalizeClassNames classNames)) >>
  match children with
  | [AText s] => modifyComp this (with_content (Some s))
  | _ => modifyComp this (with_children children) >>
         forEach children (set_parent this)
  end >>
  ret this.

Definition Comp_init (this : loc) : M unit :=
  modifyComp this (with_tagName "div") >>
  modifyComp this (with_attributes []) >>
  modifyComp this (with_classNames []) >>
  modifyComp this (with_children []) >>
  modifyComp this (with_registrations []).

Definition register (this : loc) (type : string) (listener : loc) (useCapture : bool)
    : M loc :=
  modifyComp this (fun c =>
    with_registrations
      (registrations c ++ [{| type := type; listener := listener;
                              useCapture := useCapture |}])%list c) >>
  ret this.

(** *** Serialization *)

(** The start of the opening tag, up to and including the attributes. *)
Definition openTag (c : Comp) : string :=
  "<" ++ tagName c ++ " comp-id=" ++ dq ++ id c ++ dq
  ++ " class=" ++ dq ++ join " " (classNames c) ++ dq ++ " " ++ _attr (attributes c).

(** The results of a [map] whose callback may throw: the first exception
    ends it. *)
Fixpoint collect (l : list (Error + string)) : Error + list string :=
  match l with
  | [] => inr []
  | inl e :: _ => inl e
  | inr s :: l' => match collect l' with
                   | inl e => inl e
                   | inr ss => inr (s :: ss)
                   end
  end.

(** The truthiness of [this.content]. *)
Definition truthy_content (c : option string) : option string :=
  match c with
  | Some EmptyString => None
  | Some s => Some s
  | None => None
  end.

(** [_toHtml] of [Literal] and of [Comp], on the object an array member
    refers to. [depth] is what is left of the call stack; a member that is
    no object with a [_toHtml] method raises a TypeError. *)
Fixpoint _toHtml (depth : nat) (h : list (JsObject T)) (a : Arg) : Error + string :=
  match depth with
  | 0 => inl RangeError
  | S d =>
      match a with
      | AText _ => inl TypeError
      | ANode l =>
          match h !! l with
          | Some (OLiteral lit) => inr (literal lit)
          | Some (OComp c) =>
              match renderMode c with
              | Some selfClosing => inr (openTag c ++ " />")
              | Some startTag => inr ("<" ++ tagName c ++ ">")
              | _ =>
                  match
                    match truthy_content (content c) with
                    | Some s => inr s
                    | None =>
                        match collect (map (_toHtml d h) (children c)) with
                        | inl e => inl e
                        | inr parts => inr (join "" parts)
                        end
                    end
                  with
                  | inl e => inl e
                  | inr inner =>
                      inr (openTag c ++ ">" ++ inner ++ "</" ++ tagName c ++ ">")
                  end
              end
          | _ => inl TypeError
          end
      end
  end.

(** The inner markup of the normal mode: [this.content || ...]. *)
Definition inner_markup (d : nat) (h : list (JsObject T)) (c : Comp) : Error + string :=
  match truthy_content (content c) with
  | Some s => inr s
  | None =>
      match collect (map (_toHtml d h) (children c)) with
      | inl e => inl e
      | inr parts => inr (join "" parts)
      end
  end.

Definition toHtml (this : loc) : M string :=
  fun w => match _toHtml (stackDepth (host w)) (heap w) (ANode this) with
           | inl e => Throw e w
           | inr s => Ok s w
           end.

(** *** Construction *)

(** [new C(options)]: the identity is drawn, the object is created with it
    and [init], the one of the class [C], runs. *)
Definition construct (init : loc -> M unit) (cls : Class) (opts : Options T) : M loc :=
  let! i := _generateId 8 in
  let! this := alloc (OComp {| class := cls; id := i; options := opts;
                               tagName := ""; attributes := []; classNames := [];
                               children := []; content := None; parent := None;
                               registrations := []; renderMode := None |}) in
  init this >>
  ret this.

(** *** [SystemComp] and the tag factories *)

Definition truthy_mode (m : option TagRenderMode) : bool :=
  match m with
  | Some v => negb (Nat.eqb (TagRenderMode_value v) 0)
  | None => false
  end.

Definition SystemComp_init (this : loc) : M unit :=
  Comp_init this >>
  let! c := getComp this in
  match options c with
  | OptHtml o =>
      compose this (o_tagName o) (o_attributes o) (o_classNames o) (o_children o) >>
      if truthy_mode (o_renderMode o)
      then modifyComp this (with_renderMode (o_renderMode o))
      else ret tt
  | _ => throw TypeError
  end.

Definition element (tagName : string) (attributes : Obj Value)
    (classNames : IClassNames) (children : list Arg) : M loc :=
  construct SystemComp_init CSystemComp
    (OptHtml {| o_tagName := tagName; o_attributes := attributes;
                o_classNames := classNames; o_children := children;
                o_renderMode := Some normal |}).

Definition selfClosingElement (tagName : string) (attributes : Obj Value)
    (classNames : IClassNames) : M loc :=
  construct SystemComp_init CSystemComp
    (OptHtml {| o_tagName := tagName; o_attributes := attributes;
                o_classNames := classNames; o_children := [];
                o_renderMode := Some selfClosing |}).

Definition div := element "div".
Definition span := element "span".
Definition label := element "label".
Definition option_ := element "option".
Definition input := selfClosingElement "input".

(** Running the body of a [mapper]. *)
Fixpoint build (e : Expr) : M Arg :=
  match e with
  | EText s => ret (AText s)
  | ERef l => ret (ANode l)
  | ELiteral s =>
      let! l := alloc (OLiteral {| literal_parent := None; literal := s |}) in
      ret (ANode l)
  | EElement t a c ch =>
      let! args := mapM build ch in
      let! l := element t a c args in
      ret (ANode l)
  | ESelfClosing t a c =>
      let! l := selfClosingElement t a c in
      ret (ANode l)
  end.

(** *** [UserComp], [BuiltinComp] and their subclasses

    An option object that lacks what an [init] reads is outside the types
    of the classes; the model raises a TypeError there. *)

Definition UserComp_init (this : loc) : M unit :=
  Comp_init this >>
  modifyComp this (with_tagName "div") >>
  modifyComp this (with_renderMode (Some normal)).

Definition BuiltinComp_init (this : loc) : M unit :=
  Comp_init this >>
  modifyComp this (with_tagName "div") >>
  modifyComp this (with_renderMode (Some normal)).

Definition set_attribute (this : loc) (key : string) (v : Value) : M unit :=
  modifyComp this (fun c => with_attributes (obj_set (attributes c) key v) c).

Definition push_child (this : loc) (child : Arg) : M unit :=
  modifyComp this (fun c => with_children (children c ++ [child])%list c).

Definition If_init (this : loc) : M unit :=
  BuiltinComp_init this >>
  set_attribute this "comp-if" VNull >>
  let! c := getComp this in
  match options c with
  | OptIf cond thenComp elseComp =>
      push_child this (ANode (if cond then thenComp else elseComp))
  | _ => throw TypeError
  end.

Definition For_init (this : loc) : M unit :=
  BuiltinComp_init this >>
  set_attribute this "comp-for" VNull >>
  let! c := getComp this in
  match options c with
  | OptFor data mapper =>
      forEach data (fun item => let! child := build (mapper item) in
                                push_child this child)
  | _ => throw TypeError
  end.

Definition RouterPage_init (this : loc) : M unit :=
  BuiltinComp_init this >> set_attribute this "comp-page" VNull.

Definition RouterOutlet_init (this : loc) : M unit :=
  BuiltinComp_init this >> set_attribute this "comp-outlet" VNull.

Definition RouterLink_init (this : loc) : M unit :=
  BuiltinComp_init this >> set_attribute this "comp-link" VNull.

(** The items of an array with their indices. *)
Definition indexed {A} (l : list A) : list (A * nat) :=
  combine l (seq 0 (length l)).

Definition index_string (n : nat) : string :=
  NilZero.string_of_uint (Nat.to_uint n).

(** [Select.init]. The attribute [name] is the global [name], not the
    [name] of the options, which the code does not read. *)
Definition Select_init (this : loc) : M unit :=
  BuiltinComp_init this >>
  let! c := getComp this in
  let! name := gets (fun w => window_name (host w)) in
  match options c with
  | OptSelect data _ labelMapper valueMapper useRadio =>
      if useRadio
      then
        let! rows :=
          mapM (fun entry : T * nat =>
                  let! i := input [("type", VStr "radio");
                                   ("id", VStr (id c ++ "-option-" ++ index_string (snd entry)));
                                   ("name", VStr name);
                                   ("value", VStr (valueMapper (fst entry)))]
                              (ClassArray []) in
                  let! lb := label [("for", VStr (id c ++ "-option-"
                                                  ++ index_string (snd entry)))]
                               (ClassArray []) [AText (labelMapper (fst entry))] in
                  let! d := div [] (ClassArray []) [ANode i; ANode lb] in
                  ret (ANode d))
               (indexed data) in
        compose this "div" [] (ClassArray []) rows >>
        ret tt
      else
        let! opts :=
          mapM (fun item : T =>
                  let! o := option_ [("value", VStr (valueMapper item))] (ClassArray [])
                              [AText (labelMapper item)] in
                  ret (ANode o))
               data in
        compose this "select" [("name", VStr name)] (ClassArray []) opts >>
        ret tt
  | _ => throw TypeError
  end.

Definition Test_init (this : loc) : M unit :=
  UserComp_init this >>
  let! c := getComp this in
  match options c with
  | OptTest title description =>
      let! t := span [] (ClassArray []) [title] in
      let! d := span [] (ClassArray []) [description] in
      compose this "div" [] (ClassArray []) [ANode t; ANode d] >>
      ret tt
  | _ => throw TypeError
  end.

Definition symbol0 : string := "☆".
Definition symbol1 : string := "★".

Definition Rating_init (this : loc) : M unit :=
  UserComp_init this >>
  let! c := getComp this in
  match options c with
  | OptRating _ rating =>
      let! stars :=
        mapM (fun i : Z =>
                let! l := span [("data-value", VNum (i + 1))] (ClassArray ["rating-star"])
                            [AText (if (rating >? i)%Z then symbol1 else symbol0)] in
                ret (ANode l))
             [0; 1; 2; 3; 4]%Z in
      compose this "span" [] (ClassArray []) stars >>
      let! handler := alloc (OFunction (RatingClick this)) in
      register this "click" handler false >>
      ret tt
  | _ => throw TypeError
  end.

(** The [init] that a call [this.init()] reaches, by the class of [this]. *)
Definition init (this : loc) : M unit :=
  let! c := getComp this in
  match class c with
  | CComp => Comp_init this
  | CSystemComp => SystemComp_init this
  | CUserComp => UserComp_init this
  | CBuiltinComp => BuiltinComp_init this
  | CIf => If_init this
  | CFor => For_init this
  | CSelect => Select_init this
  | CRouterPage => RouterPage_init this
  | CRouterOutlet => RouterOutlet_init this
  | CRouterLink => RouterLink_init this
  | CTest => Test_init this
  | CRating => Rating_init this
  end.

Definition new (cls : Class) (opts : Options T) : M loc :=
  construct init cls opts.

(** *** Listeners, [update] and [renderTo] *)

Definition modifyDocument (f : Forest -> Forest) : M unit :=
  fun w => Ok tt (set_document (f (document w)) w).

(** [document.querySelector(`[comp-id=${this.id}]`)]; [None] is [null]. *)
Definition _element (this : loc) : M (option Handle) :=
  let! c := getComp this in
  if css_identifier (id c)
  then gets (fun w => find_compId (id c) (document w))
  else throw SyntaxError.

Definition _doRegistrations (this : loc) : M unit :=
  let! c := getComp this in
  forEach (registrations c) (fun r =>
    let! e := _element this in
    match e with
    | Some p => modifyDocument (addEventListener p r)
    | None => throw TypeError
    end).

Definition opt_or {A} (new : option A) (old : A) : A :=
  match new with Some v => v | None => old end.

(** [Object.assign(this.options, options)], as far as an [init] can tell:
    properties that no [init] of the class reads are not tracked. *)
Definition Object_assign (target : Options T) (source : Patch T) : Options T :=
  match target, source with
  | OptHtml o, PatchHtml t a c ch m =>
      OptHtml {| o_tagName := opt_or t (o_tagName o);
                 o_attributes := opt_or a (o_attributes o);
                 o_classNames := opt_or c (o_classNames o);
                 o_children := opt_or ch (o_children o);
                 o_renderMode := match m with Some v => Some v | None => o_renderMode o end |}
  | OptIf cond t e, PatchIf cond' t' e' =>
      OptIf (opt_or cond' cond) (opt_or t' t) (opt_or e' e)
  | OptFor data mapper, PatchFor data' mapper' =>
      OptFor (opt_or data' data) (opt_or mapper' mapper)
  | OptSelect data name lm vm radio, PatchSelect data' name' lm' vm' radio' =>
      OptSelect (opt_or data' data) (opt_or name' name) (opt_or lm' lm) (opt_or vm' vm)
                (opt_or radio' radio)
  | OptTest t d, PatchTest t' d' => OptTest (opt_or t' t) (opt_or d' d)
  | OptRating name rating, PatchRating name' rating' =>
      OptRating (opt_or name' name) (opt_or rating' rating)
  | _, _ => target
  end.

(** The second half of [update]: the live element is replaced by the
    markup of the node and the listeners are bound. *)
Definition replace_and_bind (this : loc) : M loc :=
  let! old := _element this in
  match old with
  | None => throw TypeError
  | Some old =>
      let! html := toHtml this in
      let! new := gets (fun w => parseHTML (host w) html) in
      modifyDocument (insert_before old new) >>
      modifyDocument (remove_at (shift_last (flength new) old)) >>
      _doRegistrations this >>
      ret this
  end.

Definition update (this : loc) (patch : Patch T) : M loc :=
  modifyComp this (fun c => with_options (Object_assign (options c) patch) c) >>
  init this >>
  replace_and_bind this.

(** [renderTo]: the forest of the document is the content of the one
    container that [containerSelector] selects; any other selector finds
    nothing. *)
Definition renderTo (this : loc) (selector : string) : M unit :=
  let! known := gets (fun w => String.eqb selector (containerSelector (host w))) in
  if known : bool
  then let! html := toHtml this in
       let! new := gets (fun w => parseHTML (host w) html) in
       modifyDocument (fun _ => new) >>
       _doRegistrations this
  else throw TypeError.

(** Calling [update] once for each of a list of arguments. *)
Definition update_all (this : loc) (patches : list (Patch T)) : M unit :=
  forEach patches (fun patch => update this patch >> ret tt).

End Runtime.

(** ** Relations between the worlds before and after a computation *)

(** The world a computation ends in, whether it returns or throws, is
    related to the one it starts in. *)
Definition preserves {T A} (R : World T -> World T -> Prop) (m : M T A) : Prop :=
  forall w, R w (final (m w)).

(** Nothing but the document changed. *)
Definition store_kept {T} (w w' : World T) : Prop :=
  host w' = host w /\ heap w' = heap w /\ draws w' = draws w.

(** Every component is still there, with its identity and its class. *)
Definition identities_kept {T} (w w' : World T) : Prop :=
  host w' = host w /\
  forall l c, heap w !! l = Some (OComp c) ->
              exists c', heap w' !! l = Some (OComp c') /\ id c' = id c /\ class c' = class c.

(** The component at [l], if there is one, is still there with the same
    value of [P]. *)
Definition field_kept {T A} (P : Comp T -> A) (l : loc) (w w' : World T) : Prop :=
  forall c, heap w !! l = Some (OComp c) ->
            exists c', heap w' !! l = Some (OComp c') /\ P c' = P c.

(** The computation ends with no registration in the node at [this]. *)
Definition clears {T A} (this : loc) (m : M T A) : Prop :=
  forall w c, heap w !! this = Some (OComp c) ->
              exists c', heap (final (m w)) !! this = Some (OComp c')
                         /\ registrations c' = [].

(** The component at a location. *)
Definition comp_at {T} (w : World T) (l : loc) : option (Comp T) :=
  match heap w !! l with
  | Some (OComp c) => Some c
  | _ => None
  end.

(** The [parent] of the object at a location, if it is an [IComp]. *)
Definition parent_of {T} (w : World T) (l : loc) : option (option loc) :=
  match heap w !! l with
  | Some (OLiteral lit) => Some (literal_parent lit)
  | Some (OComp c) => Some (parent c)
  | _ => None
  end.

(** An argument that refers to an [IComp] of the store. *)
Definition is_IComp {T} (w : World T) (a : Arg) : Prop :=
  match a with
  | AText _ => False
  | ANode l => exists p, parent_of w l = Some p
  end.

(** Two objects that differ by their [parent] at most. *)
Definition same_but_parent {T} (o o' : option (JsObject T)) : Prop :=
  match o, o' with
  | None, None => True
  | Some (OLiteral a), Some (OLiteral b) => literal a = literal b
  | Some (OComp a), Some (OComp b) => with_parent None a = with_parent None b
  | Some (OFunction f), Some (OFunction g) => f = g
  | _, _ => False
  end.

(** Only [parent] fields changed, and none that pointed to [this]. *)
Definition parents_only {T} (this : loc) (w w' : World T) : Prop :=
  host w' = host w /\ draws w' = draws w /\ document w' = document w
  /\ (forall l, same_but_parent (heap w !! l) (heap w' !! l))
  /\ (forall l, parent_of w l = Some (Some this) -> parent_of w' l = Some (Some this)).

(** The listener is among those of the live element at the handle. *)
Definition bound_at (d : Forest) (p : Handle) (r : Registration) : Prop :=
  exists a ls, element_at p d = Some (a, ls) /\ In r ls.

(** ** Sample hosts and objects *)

(** A host for running the code: the parser above, a container [#app], a
    fixed sequence of random outcomes. *)
Definition browser : Host :=
  {| Math_random := fun n => 10 + 7 * n;
     parseHTML := parseMarkup;
     containerSelector := "#app";
     window_name := "";
     stackDepth := 64 |}.

Definition empty_world : World nat :=
  {| host := browser; heap := []; draws := 0; document := FNil |}.

Definition sample_comp (cls : Class) (ident tag : string) (mode : option TagRenderMode)
    (text : option string) (kids : list Arg) : Comp nat :=
  {| class := cls; id := ident; options := OptAny; tagName := tag;
     attributes := [("title", VStr "t")]; classNames := ["a"; "b"];
     children := kids; content := text; parent := None; registrations := [];
     renderMode := mode |}.

Definition sample_literal (s : string) : JsObject nat :=
  OLiteral {| literal_parent := None; literal := s |}.

(** A world where the component at 0, of identity [Ab], is mounted. *)
Definition mounted_world (c : Comp nat) : World nat :=
  {| host := browser; heap := [OComp c; sample_literal "<br>"];
     draws := 8; document := FCons (Some "Ab") [] FNil FNil |}.

(** Scenario 1 of the specification: a container with two children of
    text content. *)
Definition two_children_scenario : M nat string :=
  let! a := element "span" [] (ClassArray []) [AText "a"] in
  let! b := element "span" [] (ClassArray []) [AText "b"] in
  let! d := element "div" [] (ClassArray []) [ANode a; ANode b] in
  toHtml d.

(** Scenario 3: a list node over no data. *)
Definition empty_list_scenario : M nat string :=
  let! n := new CFor (OptFor [] (fun _ => ELiteral "<li>")) in
  toHtml n.

(** A mounted node whose identity starts with a digit. *)
Definition digit_world : World nat :=
  {| host := browser;
     heap := [OComp (sample_comp CComp "4BIPWdkr" "div" None None [])];
     draws := 8; document := FCons (Some "4BIPWdkr") [] FNil FNil |}.

(** A node composed with the empty string as its text, then given a
    child. *)
Definition empty_content_world : World nat :=
  final ((compose 0 "p" [] (ClassArray []) [AText ""] >>
          appendChild 0 1)
           (mounted_world (sample_comp CComp "Ab" "div" (Some normal) None []))).

(** A choice node over two items, rendered as a single list. *)
Definition select_scenario : M nat string :=
  let! n := new CSelect (OptSelect [1; 2] "size" (fun _ => "L") (fun _ => "V") false) in
  toHtml n.

(** A rating widget, constructed with two stars and mounted. *)
Definition rating_world : World nat :=
  final ((let! r := new CRating (OptRating "stars" 2) in renderTo r "#app") empty_world).

Definition rating_node : Comp nat :=
  match comp_at rating_world 0 with
  | Some c => c
  | None => sample_comp CRating "" "" None None []
  end.

(** A node of the base class with a listener of the caller, registered
    before the node is mounted. *)
Definition click_listener : Registration :=
  {| type := "click"; listener := 2; useCapture := false |}.

Definition listener_world : World nat :=
  final ((let! f := alloc (OFunction (CallerFunction "onClick")) in
          register 0 "click" f false >>
          renderTo 0 "#app")
           (mounted_world (sample_comp CComp "Ab" "div" None None []))).

(** Two nodes with the same final options: the node at 1 went through two
    calls of [update], the node at 2 is constructed with the merged
    options. *)
Definition children_patch (args : list Arg) : Patch nat :=
  PatchHtml None None None (Some args) None.

Definition mode_patch (m : TagRenderMode) : Patch nat :=
  PatchHtml None None None None (Some m).

Definition content_scenario : World nat :=
  final ((let! br := alloc (sample_literal "<br>") in
          let! n := element "div" [] (ClassArray []) [ANode br] in
          renderTo n "#app" >>
          update n (children_patch [AText "first"]) >>
          update n (children_patch [ANode br; ANode br]) >>
          element "div" [] (ClassArray []) [ANode br; ANode br]) empty_world).

(** The same with the render mode: the node at 0 is updated to the
    self-closing mode and back to the normal mode. *)
Definition mode_scenario : World nat :=
  final ((let! n := element "div" [] (ClassArray []) [] in
          renderTo n "#app" >>
          update n (mode_patch selfClosing) >>
          update n (mode_patch normal) >>
          element "div" [] (ClassArray []) []) empty_world).

(** A list node updated from three items to one. *)
Definition for_scenario : World nat :=
  final ((let! n := new CFor (OptFor [1; 2; 3] (fun _ => ELiteral "<li>")) in
          renderTo n "#app" >>
          update n (PatchFor (Some [7]) None)) empty_world).

(** ** The specification's wording, for comparison with the code *)

(** The attribute markup as the specification words it: the entries in
    the order they were put in, none for [undefined], the bare key for
    [null], [key="value"] otherwise, joined by single spaces. *)
Definition render_entry (e : string * Value) : string :=
  match snd e with
  | VNull => fst e
  | v => fst e ++ "=" ++ dq ++ toString v ++ dq
  end.

Definition entry_defined (e : string * Value) : bool :=
  negb (is_undefined (snd e)).

Definition spec_attribute_markup (entries : list (string * Value)) : string :=
  join " " (map render_entry (List.filter entry_defined entries)).

(** The class names an input stands for, as the specification words it:
    the entries of the split string, the sequence as it is, the keys of
    the mapping whose value is true in the order they were put in. *)
Definition spec_effective_classes (classNames : IClassNames) : list string :=
  match classNames with
  | ClassString s => split space s
  | ClassArray l => l
  | ClassMap m => map fst (List.filter snd m)
  end.


(** No key of the mapping is an array index. *)
Definition plain_keys {V} (o : Obj V) : Prop :=
  Forall (fun k => is_array_index k = false) (map fst o).


(** The two shapes of markup of section 4.3, the identity marker being the
    attribute [comp-id]. *)
Definition spec_normal_markup (tag ident : string) (classes : list string)
    (attrs inner : string) : string :=
  "<" ++ tag ++ " comp-id=" ++ dq ++ ident ++ dq ++ " class=" ++ dq
  ++ join " " classes ++ dq ++ " " ++ attrs ++ ">" ++ inner ++ "</" ++ tag ++ ">".

Definition spec_selfClosing_markup (tag ident : string) (classes : list string)
    (attrs : string) : string :=
  "<" ++ tag ++ " comp-id=" ++ dq ++ ident ++ dq ++ " class=" ++ dq
  ++ join " " classes ++ dq ++ " " ++ attrs ++ " />".

(** The entries of an object in the order of [Object.keys]. *)
Definition entries_in_key_order (attr : Obj Value) : list (string * Value) :=
  map (fun k => (k, attr_get attr k)) (Object_keys attr).

(** ** Further code, result shapes and samples *)

(** *** Code outside the claims *)

(** [generateMinimalLeafFactory]: a literal of the bare tag. *)
Definition generateMinimalLeafFactory {T} (tagName : string) : M T loc :=
  alloc (OLiteral {| literal_parent := None; literal := "<" ++ tagName ++ ">" |}).

Definition br {T} : M T loc := generateMinimalLeafFactory "br".
Definition hr {T} : M T loc := generateMinimalLeafFactory "hr".

(** The first half of [update]: the options are merged and [init] runs. *)
Definition assign_and_init {T} (this : loc) (patch : Patch T) : M T unit :=
  modifyComp this (fun c => with_options (Object_assign (options c) patch) c) >>
  init this.

(** *** Predicates on strings, worlds and documents *)

Definition is_base62 (a : ascii) : bool :=
  let n := nat_of_ascii a in
  is_digit a || ((65 <=? n)%nat && (n <=? 90)%nat) || ((97 <=? n)%nat && (n <=? 122)%nat).

Fixpoint all_chars (P : ascii -> bool) (s : string) : bool :=
  match s with
  | EmptyString => true
  | String a s' => P a && all_chars P s'
  end.

(** Outside of the shape of the components nothing changed: the host and
    the document are the same, and every component is still there with its
    identity, its class and its options. *)
Definition core_kept {T} (w w' : World T) : Prop :=
  host w' = host w /\ document w' = document w
  /\ forall l c, heap w !! l = Some (OComp c) ->
                 exists c', heap w' !! l = Some (OComp c')
                            /\ id c' = id c /\ class c' = class c
                            /\ options c' = options c.


(** The argument is a literal of the store with the given text. *)
Definition literal_at {T} (h : list (JsObject T)) (a : Arg) (text : string) : Prop :=
  match a with
  | AText _ => False
  | ANode l => exists p, h !! l = Some (OLiteral {| literal_parent := p; literal := text |})
  end.

(** The classes whose [init] creates no object and registers nothing. *)
Definition plain_class (cls : Class) : bool :=
  match cls with
  | CComp | CUserComp | CBuiltinComp | CIf
  | CRouterPage | CRouterOutlet | CRouterLink => true
  | _ => false
  end.

(** *** The worlds and the nodes that runs end in *)

(** The world once the object [o] is at the next location. *)
Definition grown {T} (o : JsObject T) (w : World T) : World T :=
  set_heap (heap w ++ [o])%list w.

(** The world that a run from [w0] reaches while it works on the node at
    [this] and on the objects it creates: the component at [this] is [c],
    the objects created so far are [ext] and [d] draws are consumed. *)
Definition shape {T} (w0 : World T) (this : loc) (c : Comp T)
    (ext : list (JsObject T)) (d : nat) : World T :=
  {| host := host w0; heap := (<[this := OComp c]> (heap w0) ++ ext)%list;
     draws := d; document := document w0 |}.

(** [child.parent = this], on the object itself. *)
Definition adopt {T} (p : loc) (o : JsObject T) : JsObject T :=
  match o with
  | OLiteral lit => OLiteral {| literal_parent := Some p; literal := literal lit |}
  | OComp s => OComp (with_parent (Some p) s)
  | OFunction f => OFunction f
  end.

(** The locations from [base + from] on, as children. *)
Definition nodes_from (base from count : nat) : list Arg :=
  map (fun i => ANode (base + i)) (seq from count).

(** The node after the [init] of [UserComp] or of [BuiltinComp], with the
    attributes and the children that a subclass adds: the content and the
    parent are those of before. *)
Definition div_shape {T} (attrs : Obj Value) (kids : list Arg) (c : Comp T) : Comp T :=
  {| class := class c; id := id c; options := options c;
     tagName := "div"; attributes := attrs; classNames := [];
     children := kids; content := content c; parent := parent c;
     registrations := []; renderMode := Some normal |}.

(** The node that [element] makes of one text, its identity being drawn at
    [pos], once its parent is [p]. *)
Definition text_node {T} (w : World T) (pos : nat) (p : option loc) (tag : string)
    (attrs : Obj Value) (cls : IClassNames) (s : string) : Comp T :=
  {| class := CSystemComp;
     id := random_chars (Math_random (host w)) pos 8;
     options := OptHtml {| o_tagName := tag; o_attributes := attrs;
                           o_classNames := cls; o_children := [AText s];
                           o_renderMode := Some normal |};
     tagName := tag; attributes := attrs;
     classNames := normalizeClassNames cls;
     children := []; content := Some s; parent := p;
     registrations := []; renderMode := None |}.

(** The literal that a mapper answers with. *)
Definition literal_of {T} (text : string) : JsObject T :=
  OLiteral {| literal_parent := None; literal := text |}.

(** The star of a rating widget at index [i], and its markup. *)
Definition star_symbol (rating i : Z) : string :=
  if (rating >? i)%Z then symbol1 else symbol0.

Definition star_node {T} (w : World T) (this : loc) (rating : Z) (i : nat) : Comp T :=
  text_node w (draws w + 8 * i) (Some this) "span"
    [("data-value", VNum (Z.of_nat i + 1))] (ClassArray ["rating-star"])
    (star_symbol rating (Z.of_nat i)).

Definition star_markup {T} (w : World T) (rating : Z) (i : nat) : string :=
  spec_normal_markup "span" (random_chars (Math_random (host w)) (draws w + 8 * i) 8)
    ["rating-star"] ("data-value=" ++ dq ++ toString (VNum (Z.of_nat i + 1)) ++ dq)
    (star_symbol rating (Z.of_nat i)).

Definition click_of (handler : loc) : Registration :=
  {| type := "click"; listener := handler; useCapture := false |}.

(** The [option] nodes of a choice node, the identity of the first one
    being drawn at [pos], and their markup. *)
Fixpoint option_nodes {T} (w : World T) (p : option loc)
    (labelMapper valueMapper : T -> string) (pos : nat) (data : list T)
    : list (JsObject T) :=
  match data with
  | [] => []
  | item :: rest =>
      OComp (text_node w pos p "option" [("value", VStr (valueMapper item))]
               (ClassArray []) (labelMapper item))
      :: option_nodes w p labelMapper valueMapper (pos + 8) rest
  end.

Fixpoint option_markups {T} (w : World T) (labelMapper valueMapper : T -> string)
    (pos : nat) (data : list T) : list string :=
  match data with
  | [] => []
  | item :: rest =>
      spec_normal_markup "option" (random_chars (Math_random (host w)) pos 8) []
        ("value=" ++ dq ++ valueMapper item ++ dq) (labelMapper item)
      :: option_markups w labelMapper valueMapper (pos + 8) rest
  end.

(** *** The node of [new SystemComp] *)

(** The render mode that [SystemComp.init] leaves on a new node: the one of
    the options when it is truthy. *)
Definition taken_mode (m : option TagRenderMode) : option TagRenderMode :=
  if truthy_mode m then m else None.

Definition system_options (tag : string) (attrs : Obj Value) (cls : IClassNames)
    (s : string) (m : option TagRenderMode) : IHtmlOptions :=
  {| o_tagName := tag; o_attributes := attrs; o_classNames := cls;
     o_children := [AText s]; o_renderMode := m |}.

(** *** The rows of a choice node shown as radio buttons *)

(** The three objects that [Select.init] creates for the item at [index]:
    the [input], the [label] and the [div] around them, at the locations
    [base + from] and the two after it; [p] is the parent of the [div]. *)
Definition radio_row {T} (w : World T) (p : option loc) (cid name : string)
    (labelMapper valueMapper : T -> string) (base from pos index : nat) (item : T)
    : list (JsObject T) :=
  [OComp {| class := CSystemComp;
            id := random_chars (Math_random (host w)) pos 8;
            options :=
              OptHtml {| o_tagName := "input";
                         o_attributes :=
                           [("type", VStr "radio");
                            ("id", VStr (cid ++ "-option-" ++ index_string index));
                            ("name", VStr name);
                            ("value", VStr (valueMapper item))];
                         o_classNames := ClassArray []; o_children := [];
                         o_renderMode := Some selfClosing |};
            tagName := "input";
            attributes := [("type", VStr "radio");
                           ("id", VStr (cid ++ "-option-" ++ index_string index));
                           ("name", VStr name);
                           ("value", VStr (valueMapper item))];
            classNames := []; children := []; content := None;
            parent := Some (base + (from + 2)); registrations := [];
            renderMode := Some selfClosing |};
   OComp (text_node w (pos + 8) (Some (base + (from + 2))) "label"
            [("for", VStr (cid ++ "-option-" ++ index_string index))]
            (ClassArray []) (labelMapper item));
   OComp {| class := CSystemComp;
            id := random_chars (Math_random (host w)) (pos + 16) 8;
            options :=
              OptHtml {| o_tagName := "div"; o_attributes := [];
                         o_classNames := ClassArray [];
                         o_children := [ANode (base + from); ANode (base + (from + 1))];
                         o_renderMode := Some normal |};
            tagName := "div"; attributes := []; classNames := [];
            children := [ANode (base + from); ANode (base + (from + 1))];
            content := None; parent := p; registrations := [];
            renderMode := None |}].

Fixpoint radio_rows {T} (w : World T) (p : option loc) (cid name : string)
    (labelMapper valueMapper : T -> string) (base from pos index : nat) (data : list T)
    : list (JsObject T) :=
  match data with
  | [] => []
  | item :: rest =>
      (radio_row w p cid name labelMapper valueMapper base from pos index item
       ++ radio_rows w p cid name labelMapper valueMapper base (from + 3) (pos + 24)
            (S index) rest)%list
  end.

(** The locations of the [div]s of the rows. *)
Fixpoint row_args (base from count : nat) : list Arg :=
  match count with
  | 0 => []
  | S n => ANode (base + (from + 2)) :: row_args base (from + 3) n
  end.

(** *** Further samples *)

(** A node with a listener to register and no live counterpart. *)
Definition unmounted_world : World nat :=
  {| host := browser;
     heap := [OComp (with_registrations [click_listener]
                       (sample_comp CComp "Ab" "div" None None []))];
     draws := 8; document := FNil |}.


(** A node that was appended to itself. *)
Definition self_child_world : World nat :=
  final (appendChild 0 0 (mounted_world (sample_comp CComp "Ab" "div" None None []))).

(** A node over two void elements. *)
Definition breaks_world : World nat :=
  final ((let! a := br in
          let! b := hr in
          element "p" [] (ClassArray []) [ANode a; ANode b]) empty_world).

Definition breaks_node : Comp nat :=
  match comp_at breaks_world 2 with
  | Some c => c
  | None => sample_comp CSystemComp "" "" None None []
  end.

(** Nodes of the classes [Test], [Rating], [For] and [Select] before their
    [init]. *)
Definition test_world : World nat :=
  mounted_world (with_options (OptTest (AText "T") (AText ""))
                   (sample_comp CTest "Ab" "p" None None [])).

Definition rating_start : World nat :=
  mounted_world (with_options (OptRating "stars" 2)
                   (sample_comp CRating "Ab" "p" None None [])).

Definition for_start : World nat :=
  mounted_world (with_options (OptFor [1; 2; 3] (fun _ => ELiteral "<li>"))
                   (sample_comp CFor "Ab" "p" None None [])).

Definition select_start : World nat :=
  mounted_world (with_options (OptSelect [1; 2] "size" (fun _ => "L") (fun _ => "V") false)
                   (sample_comp CSelect "Ab" "p" None None [])).

(** A choice node over two items shown as radio buttons, before its
    [init]. *)
Definition radio_start : World nat :=
  mounted_world (with_options (OptSelect [1; 2] "size" (fun _ => "L") (fun _ => "V") true)
                   (sample_comp CSelect "Ab" "p" None None [])).

(** A list node over three items, constructed and mounted. *)
Definition for_mounted : World nat :=
  final ((let! n := new CFor (OptFor [1; 2; 3] (fun _ => ELiteral "<li>")) in
          renderTo n "#app") empty_world).

Definition for_node : Comp nat :=
  match comp_at for_mounted 0 with
  | Some c => c
  | None => sample_comp CFor "" "" None None []
  end.

(** A host whose random source repeats itself every eight draws. *)
Definition repeating_host : Host :=
  {| Math_random := fun n => 10 + 7 * (n mod 8);
     parseHTML := parseMarkup;
     containerSelector := "#app";
     window_name := "";
     stackDepth := 64 |}.

Definition repeating_world : World nat :=
  {| host := repeating_host; heap := []; draws := 0; document := FNil |}.

(** * Properties *)

(** ** The code on small inputs *)

Example toString_num : toString (VNum 5) = "5" /\ toString (VNum 0) = "0" /\ toString (VNum (-12)) = "-12".
Proof. repeat split; reflexivity. Qed.

Example attr_example :
  _attr [("b", VStr "x"); ("u", VUndefined); ("1", VStr "y"); ("c", VNull)]
  = "1=" ++ dq ++ "y" ++ dq ++ " b=" ++ dq ++ "x" ++ dq ++ " c".
Proof. vm_compute. reflexivity. Qed.

Example split_examples :
  split space "a b" = ["a"; "b"] /\ split space "" = [""] /\ split space " a " = [""; "a"; ""].
Proof. repeat split; reflexivity. Qed.

Example two_children_markup :
  match two_children_scenario empty_world with
  | Ok html _ =>
      html = spec_normal_markup "div" "y5CJQXel" [] ""
               (spec_normal_markup "span" "AHOVcjqx" [] "" "a"
                ++ spec_normal_markup "span" "4BIPWdkr" [] "" "b")
  | Throw _ _ => False
  end.
Proof. vm_compute. reflexivity. Qed.

Example empty_list_markup :
  match empty_list_scenario empty_world with
  | Ok html _ => html = spec_normal_markup "div" "AHOVcjqx" [] "comp-for" ""
  | Throw _ _ => False
  end.
Proof. vm_compute. reflexivity. Qed.

Example select_markup :
  match select_scenario empty_world with
  | Ok html _ =>
      html = spec_normal_markup "select" "AHOVcjqx" [] ("name=" ++ dq ++ dq)
               (spec_normal_markup "option" "4BIPWdkr" [] ("value=" ++ dq ++ "V" ++ dq) "L"
                ++ spec_normal_markup "option" "y5CJQXel" [] ("value=" ++ dq ++ "V" ++ dq) "L")
  | Throw _ _ => False
  end.
Proof. vm_compute. reflexivity. Qed.

(** An identity that starts with a digit is no CSS identifier: the selector
    of [_element] is refused and [update] throws. *)
Example digit_identity_update_throws :
  match update 0 PatchNone digit_world with
  | Ok _ _ => False
  | Throw e _ => e = SyntaxError
  end.
Proof. vm_compute. reflexivity. Qed.

(** ** Strings and objects *)

Lemma split_not_nil (c : ascii) (s : string) : split c s <> [].
Proof.
  destruct s as [|a s]; simpl; [discriminate|].
  destruct (Ascii.eqb a c); [discriminate|].
  destruct (split c s); discriminate.
Qed.

Lemma join_split (c : ascii) (s : string) :
  join (String c "") (split c s) = s.
Proof.
  induction s as [|a s IH]; simpl; [reflexivity|].
  pose proof (split_not_nil c s) as Hne.
  destruct (split c s) as [|w ws] eqn:Es; [congruence|].
  destruct (Ascii.eqb a c) eqn:E.
  - apply Ascii.eqb_eq in E. subst a. simpl in *. rewrite IH. reflexivity.
  - destruct ws; simpl in *; subst; reflexivity.
Qed.

Lemma split_no_char (c : ascii) (s : string) :
  has_char c s = false -> split c s = [s].
Proof.
  induction s as [|a s IH]; simpl; [reflexivity|].
  intros H. apply orb_false_iff in H as [Ha Hs].
  rewrite Ha, (IH Hs). reflexivity.
Qed.

Lemma split_app_sep (c : ascii) (x rest : string) :
  has_char c x = false ->
  split c (x ++ String c rest) = x :: split c rest.
Proof.
  induction x as [|a x IH]; simpl; intros H.
  - rewrite Ascii.eqb_refl. reflexivity.
  - apply orb_false_iff in H as [Ha Hx].
    rewrite Ha, (IH Hx). reflexivity.
Qed.

(** Splitting undoes joining when the list is not empty and no entry holds
    the separator. *)
Lemma split_join (c : ascii) (l : list string) :
  l <> [] ->
  Forall (fun x => has_char c x = false) l ->
  split c (join (String c "") l) = l.
Proof.
  induction l as [|x xs IH]; intros Hne Hall; [congruence|].
  inversion Hall as [|? ? Hx Hxs]; subst.
  destruct xs as [|y ys].
  - simpl. apply split_no_char, Hx.
  - change (join (String c "") (x :: y :: ys))
      with (x ++ String c "" ++ join (String c "") (y :: ys)).
    change (String c "" ++ join (String c "") (y :: ys))
      with (String c (join (String c "") (y :: ys))).
    rewrite split_app_sep by exact Hx.
    rewrite IH; [reflexivity|discriminate|exact Hxs].
Qed.

Lemma obj_get_In {V} (o : Obj V) (k : string) (v : V) :
  List.NoDup (map fst o) -> In (k, v) o -> obj_get o k = Some v.
Proof.
  induction o as [|[k0 v0] o IH]; simpl; intros Hnd Hin; [contradiction|].
  inversion Hnd as [|? ? Hnotin Hnd']; subst.
  destruct Hin as [Heq|Hin].
  - inversion Heq; subst. rewrite String.eqb_refl. reflexivity.
  - destruct (String.eqb k0 k) eqn:E.
    + apply String.eqb_eq in E. subst k0. exfalso. apply Hnotin.
      change k with (fst (k, v)). apply in_map, Hin.
    + apply IH; assumption.
Qed.

Lemma obj_get_None {V} (o : Obj V) (k : string) :
  ~ In k (map fst o) -> obj_get o k = None.
Proof.
  induction o as [|[k0 v0] o IH]; simpl; intros Hnotin; [reflexivity|].
  destruct (String.eqb k0 k) eqn:E.
  - apply String.eqb_eq in E. subst. exfalso. apply Hnotin. left. reflexivity.
  - apply IH. intros H. apply Hnotin. right. exact H.
Qed.

(** *** The order of [Object.keys] *)

Lemma string_keys_filter {V} (o : Obj V) :
  string_keys o = List.filter (fun k => negb (is_array_index k)) (map fst o).
Proof.
  induction o as [|[k v] o IH]; simpl; [reflexivity|].
  destruct (is_array_index k); simpl; rewrite IH; reflexivity.
Qed.

Lemma insert_index_perm (e : N * string) (l : list (N * string)) :
  Permutation (insert_index e l) (e :: l).
Proof.
  induction l as [|x xs IH]; simpl; [reflexivity|].
  destruct (fst e <=? fst x)%N; [reflexivity|].
  rewrite IH. apply perm_swap.
Qed.

Lemma insert_index_sorted (e : N * string) (l : list (N * string)) :
  Sorted (fun a b => (fst a <= fst b)%N) l ->
  Sorted (fun a b => (fst a <= fst b)%N) (insert_index e l).
Proof.
  induction l as [|x xs IH]; simpl; intros Hs.
  - constructor; constructor.
  - destruct (fst e <=? fst x)%N eqn:E.
    + constructor; [exact Hs|]. constructor. apply N.leb_le, E.
    + apply N.leb_gt in E. inversion Hs as [|? ? Hs' Hhd]; subst.
      constructor; [apply IH, Hs'|].
      destruct xs as [|y ys]; simpl.
      * constructor. lia.
      * destruct (fst e <=? fst y)%N; constructor; [lia|].
        inversion Hhd; assumption.
Qed.

Lemma index_keys_sorted {V} (o : Obj V) :
  Sorted (fun a b => (fst a <= fst b)%N) (index_keys o).
Proof.
  induction o as [|[k v] o IH]; simpl; [constructor|].
  destruct (array_index k); [apply insert_index_sorted, IH|exact IH].
Qed.

Lemma index_keys_perm {V} (o : Obj V) :
  Permutation (map snd (index_keys o)) (List.filter is_array_index (map fst o)).
Proof.
  induction o as [|[k v] o IH]; simpl; [reflexivity|].
  unfold is_array_index at 1.
  destruct (array_index k) as [n|]; [|exact IH].
  rewrite (Permutation_map snd (insert_index_perm (n, k) (index_keys o))).
  simpl. constructor. exact IH.
Qed.

Lemma index_keys_value {V} (o : Obj V) (n : N) (k : string) :
  In (n, k) (index_keys o) -> array_index k = Some n.
Proof.
  induction o as [|[k0 v] o IH]; simpl; [contradiction|].
  destruct (array_index k0) as [n0|] eqn:E; [|exact IH].
  intros Hin.
  apply (Permutation_in _ (insert_index_perm (n0, k0) (index_keys o))) in Hin.
  destruct Hin as [Heq|Hin]; [inversion Heq; subst; exact E|apply IH, Hin].
Qed.

Lemma index_keys_none {V} (o : Obj V) :
  Forall (fun k => is_array_index k = false) (map fst o) ->
  index_keys o = [].
Proof.
  induction o as [|[k v] o IH]; simpl; intros H; [reflexivity|].
  inversion H as [|? ? Hk Ho]; subst.
  unfold is_array_index in Hk.
  destruct (array_index k); [discriminate|]. apply IH, Ho.
Qed.

(** Without array indices among the keys, [Object.keys] is the creation
    order. *)
Lemma Object_keys_insertion_order {V} (o : Obj V) :
  Forall (fun k => is_array_index k = false) (map fst o) ->
  Object_keys o = map fst o.
Proof.
  intros H. unfold Object_keys.
  rewrite (index_keys_none o H), string_keys_filter. simpl.
  induction (map fst o) as [|k ks IH]; simpl; [reflexivity|].
  inversion H as [|? ? Hk Hks]; subst.
  rewrite Hk. simpl. f_equal. apply IH, Hks.
Qed.

(** ** Attributes *)

Lemma attr_markup_by_keys (attr : Obj Value) :
  _attr attr = spec_attribute_markup (entries_in_key_order attr).
Proof.
  unfold _attr, spec_attribute_markup, entries_in_key_order. f_equal.
  induction (Object_keys attr) as [|k ks IH]; simpl; [reflexivity|].
  unfold entry_defined at 1. simpl.
  destruct (negb (is_undefined (attr_get attr k))); simpl; rewrite IH; reflexivity.
Qed.

Lemma entries_of_keys (attr o : Obj Value) :
  List.NoDup (map fst attr) -> incl o attr ->
  map (fun k => (k, attr_get attr k)) (map fst o) = o.
Proof.
  intros Hnd. induction o as [|[k v] o IH]; simpl; intros Hincl; [reflexivity|].
  unfold attr_get at 1.
  rewrite (obj_get_In attr k v Hnd) by (apply Hincl; left; reflexivity).
  f_equal. apply IH. intros e He. apply Hincl. right. exact He.
Qed.

Lemma entries_in_insertion_order (attr : Obj Value) :
  List.NoDup (map fst attr) -> plain_keys attr ->
  entries_in_key_order attr = attr.
Proof.
  intros Hnd Hplain. unfold entries_in_key_order.
  rewrite (Object_keys_insertion_order attr Hplain).
  apply entries_of_keys; [exact Hnd|apply incl_refl].
Qed.

Ltac solve_NoDup :=
  repeat (apply List.NoDup_cons; [simpl; intuition discriminate|]); apply List.NoDup_nil.

(** C5 (as amended). For every attributes mapping, serialization renders
    the entries in the order of [Object.keys] (the array-index keys first,
    by ascending number, then the other keys in insertion order), leaves
    out every entry whose value is undefined, writes the bare key for null
    and key="value" otherwise, and joins with single spaces; when no key is
    an array index this is the insertion order. *)
Theorem attr_markup_in_key_order (attr : Obj Value) :
  List.NoDup (map fst attr) ->
  _attr attr = spec_attribute_markup (entries_in_key_order attr)
  /\ (forall k v, In (k, v) attr -> In (k, v) (entries_in_key_order attr))
  /\ Object_keys attr
     = (map snd (index_keys attr)
        ++ List.filter (fun k => negb (is_array_index k)) (map fst attr))%list
  /\ Sorted (fun a b => (fst a <= fst b)%N) (index_keys attr)
  /\ (forall n k, In (n, k) (index_keys attr) -> array_index k = Some n)
  /\ Permutation (map snd (index_keys attr)) (List.filter is_array_index (map fst attr))
  /\ (plain_keys attr -> _attr attr = spec_attribute_markup attr).
Proof.
  intros Hnd. split; [apply attr_markup_by_keys|].
  assert (Hkeys : Object_keys attr
     = (map snd (index_keys attr)
        ++ List.filter (fun k => negb (is_array_index k)) (map fst attr))%list).
  { unfold Object_keys. rewrite string_keys_filter. reflexivity. }
  split.
  { intros k v Hin. unfold entries_in_key_order.
    assert (Hget : attr_get attr k = v).
    { unfold attr_get. rewrite (obj_get_In attr k v Hnd Hin). reflexivity. }
    rewrite <- Hget.
    apply (in_map (fun k => (k, attr_get attr k))).
    rewrite Hkeys. apply in_or_app.
    assert (Hk : In k (map fst attr)).
    { change k with (fst (k, v)). apply in_map, Hin. }
    destruct (is_array_index k) eqn:E.
    - left. apply (Permutation_in k (Permutation_sym (index_keys_perm attr))).
      apply filter_In. split; assumption.
    - right. apply filter_In. split; [assumption|]. rewrite E. reflexivity. }
  split; [exact Hkeys|].
  split; [apply index_keys_sorted|].
  split; [apply index_keys_value|].
  split; [apply index_keys_perm|].
  intros Hplain.
  rewrite attr_markup_by_keys, entries_in_insertion_order by assumption.
  reflexivity.
Qed.

Lemma attr_markup_in_key_order_witness :
  List.NoDup (map fst [("href", VStr "/"); ("hidden", VNull); ("title", VUndefined)])
  /\ _attr [("href", VStr "/"); ("hidden", VNull); ("title", VUndefined)]
     = "href=" ++ dq ++ "/" ++ dq ++ " hidden".
Proof.
  split; [solve_NoDup|].
  destruct (attr_markup_in_key_order
              [("href", VStr "/"); ("hidden", VNull); ("title", VUndefined)])
    as (_ & _ & _ & _ & _ & _ & H); [solve_NoDup|].
  rewrite H; [reflexivity|].
  repeat constructor.
Defined.

(** The claim C5 as stated fails: the key [1], put in after [b], is
    rendered before it. *)
Lemma attr_markup_insertion_order_counterexample :
  List.NoDup (map fst [("b", VStr "x"); ("1", VStr "y")])
  /\ _attr [("b", VStr "x"); ("1", VStr "y")]
     = "1=" ++ dq ++ "y" ++ dq ++ " b=" ++ dq ++ "x" ++ dq
  /\ spec_attribute_markup [("b", VStr "x"); ("1", VStr "y")]
     = "b=" ++ dq ++ "x" ++ dq ++ " 1=" ++ dq ++ "y" ++ dq
  /\ _attr [("b", VStr "x"); ("1", VStr "y")]
     <> spec_attribute_markup [("b", VStr "x"); ("1", VStr "y")].
Proof.
  split; [solve_NoDup|].
  split; [reflexivity|].
  split; [reflexivity|].
  vm_compute. discriminate.
Defined.

(** ** Class names *)



(** A string of names joined by spaces stands for the list of the names,
    when there is a name and no name holds a space. *)
Lemma string_stands_for_list (l : list string) :
  l <> [] ->
  Forall (fun x => has_char space x = false) l ->
  spec_effective_classes (ClassString (join " " l))
  = spec_effective_classes (ClassArray l).
Proof. intros Hne Hall. exact (split_join space l Hne Hall). Qed.

(** ** Serialization *)

Lemma string_app_assoc (a b c : string) : (a ++ b) ++ c = a ++ b ++ c.
Proof. induction a as [|x a IH]; simpl; [reflexivity|]. rewrite IH. reflexivity. Qed.

Lemma openTag_selfClosing {T} (c : Comp T) :
  openTag c ++ " />"
  = spec_selfClosing_markup (tagName c) (id c) (classNames c) (_attr (attributes c)).
Proof.
  unfold openTag, spec_selfClosing_markup.
  repeat rewrite string_app_assoc. reflexivity.
Qed.

Lemma openTag_normal {T} (c : Comp T) (inner : string) :
  openTag c ++ ">" ++ inner ++ "</" ++ tagName c ++ ">"
  = spec_normal_markup (tagName c) (id c) (classNames c) (_attr (attributes c)) inner.
Proof.
  unfold openTag, spec_normal_markup.
  repeat rewrite string_app_assoc. reflexivity.
Qed.

(** One call of [_toHtml]. *)
Lemma toHtml_step {T} (h : list (JsObject T)) (l : loc) (d : nat) :
  _toHtml (S d) h (ANode l)
  = match h !! l with
    | Some (OLiteral lit) => inr (literal lit)
    | Some (OComp c) =>
        match renderMode c with
        | Some selfClosing => inr (openTag c ++ " />")
        | Some startTag => inr ("<" ++ tagName c ++ ">")
        | _ =>
            match inner_markup d h c with
            | inl e => inl e
            | inr inner => inr (openTag c ++ ">" ++ inner ++ "</" ++ tagName c ++ ">")
            end
        end
    | _ => inl TypeError
    end.
Proof. reflexivity. Qed.

Lemma toHtml_normal {T} (h : list (JsObject T)) (l : loc) (c : Comp T) (d : nat) :
  h !! l = Some (OComp c) ->
  renderMode c = Some normal \/ renderMode c = None ->
  _toHtml (S d) h (ANode l)
  = match inner_markup d h c with
    | inl e => inl e
    | inr inner =>
        inr (spec_normal_markup (tagName c) (id c) (classNames c)
               (_attr (attributes c)) inner)
    end.
Proof.
  intros Hl Hmode. rewrite toHtml_step, Hl.
  destruct Hmode as [-> | ->];
    (destruct (inner_markup d h c); [reflexivity|rewrite openTag_normal; reflexivity]).
Qed.

(** A deeper stack keeps a result. *)
Lemma collect_map_mono {A} (f g : A -> Error + string) (l : list A) (ss : list string) :
  (forall a s, In a l -> f a = inr s -> g a = inr s) ->
  collect (map f l) = inr ss -> collect (map g l) = inr ss.
Proof.
  revert ss. induction l as [|a l IH]; simpl; intros ss Hfg H; [exact H|].
  destruct (f a) as [e|s] eqn:Ef; [discriminate|].
  rewrite (Hfg a s (or_introl eq_refl) Ef).
  destruct (collect (map f l)) as [e|ss'] eqn:Ec; [discriminate|].
  rewrite (IH ss'); [exact H| |reflexivity].
  intros a' s' Hin. apply Hfg. right. exact Hin.
Qed.

Lemma toHtml_deeper {T} (h : list (JsObject T)) (d : nat) :
  forall a s, _toHtml d h a = inr s -> _toHtml (S d) h a = inr s.
Proof.
  induction d as [|d IH]; intros a s H; [discriminate|].
  destruct a as [t|l]; [discriminate|].
  rewrite toHtml_step in H. rewrite toHtml_step.
  destruct (h !! l) as [[lit|c|f]|]; try exact H.
  assert (Hinner : forall inner, inner_markup d h c = inr inner ->
                                 inner_markup (S d) h c = inr inner).
  { unfold inner_markup. intros inner.
    destruct (truthy_content (content c)); [tauto|].
    destruct (collect (map (_toHtml d h) (children c))) as [e|parts] eqn:Ec;
      [discriminate|].
    rewrite (collect_map_mono (_toHtml d h) (_toHtml (S d) h) (children c) parts);
      [tauto| |exact Ec].
    intros a' s' _. apply IH. }
  destruct (renderMode c) as [[| |]|]; try exact H;
    (destruct (inner_markup d h c) as [e|inner]; [discriminate|];
     rewrite (Hinner inner eq_refl); exact H).
Qed.

(** C8. A node in the self-closing mode is written as the self-terminating
    tag with the identity marker, the class list and the attributes, and
    nothing else, whatever its content and children hold. *)
Theorem selfClosing_markup {T} (h : list (JsObject T)) (l : loc) (c : Comp T) (d : nat) :
  h !! l = Some (OComp c) ->
  renderMode c = Some selfClosing ->
  _toHtml (S d) h (ANode l)
  = inr (spec_selfClosing_markup (tagName c) (id c) (classNames c) (_attr (attributes c)))
  /\ forall (content' : option string) (children' : list Arg),
       _toHtml (S d) (<[l := OComp (with_children children' (with_content content' c))]> h)
         (ANode l)
       = _toHtml (S d) h (ANode l).
Proof.
  intros Hl Hmode.
  assert (Hhere : _toHtml (S d) h (ANode l)
    = inr (spec_selfClosing_markup (tagName c) (id c) (classNames c) (_attr (attributes c)))).
  { rewrite toHtml_step, Hl, Hmode, openTag_selfClosing. reflexivity. }
  split; [exact Hhere|].
  intros content' children'. rewrite Hhere, toHtml_step.
  rewrite list_lookup_insert_eq by (eapply lookup_lt_Some; exact Hl).
  cbn [renderMode with_children with_content]. rewrite Hmode.
  rewrite <- (openTag_selfClosing c). reflexivity.
Qed.

Lemma selfClosing_markup_witness :
  [OComp (sample_comp CSystemComp "Ab" "img" (Some selfClosing) (Some "text") [ANode 1]);
   sample_literal "x"] !! 0
  = Some (OComp (sample_comp CSystemComp "Ab" "img" (Some selfClosing) (Some "text") [ANode 1]))
  /\ _toHtml 5
       [OComp (sample_comp CSystemComp "Ab" "img" (Some selfClosing) (Some "text") [ANode 1]);
        sample_literal "x"] (ANode 0)
     = inr ("<img comp-id=" ++ dq ++ "Ab" ++ dq ++ " class=" ++ dq ++ "a b" ++ dq
            ++ " title=" ++ dq ++ "t" ++ dq ++ " />").
Proof.
  split; [reflexivity|].
  destruct (selfClosing_markup
              [OComp (sample_comp CSystemComp "Ab" "img" (Some selfClosing) (Some "text") [ANode 1]);
               sample_literal "x"] 0 _ 4 eq_refl eq_refl) as [H _].
  rewrite H. reflexivity.
Defined.

Lemma collect_all (rs : list (Error + string)) :
  Forall (fun r => exists s, r = inr s) rs -> exists ss, collect rs = inr ss.
Proof.
  induction 1 as [|r rs [s ->] _ [ss IH]]; simpl; [eexists; reflexivity|].
  rewrite IH. eexists; reflexivity.
Qed.

(** C9. A component in the normal mode is written with the identity marker
    first, the class attribute next and the other attributes after them on
    the opening tag, then the inner markup and the closing tag; the markup
    is produced as soon as the children have theirs. *)
Theorem normal_markup_shape {T} (h : list (JsObject T)) (l : loc) (c : Comp T) (d : nat) :
  h !! l = Some (OComp c) ->
  renderMode c = Some normal \/ renderMode c = None ->
  _toHtml (S d) h (ANode l)
  = match inner_markup d h c with
    | inl e => inl e
    | inr inner =>
        inr (spec_normal_markup (tagName c) (id c) (classNames c)
               (_attr (attributes c)) inner)
    end
  /\ (Forall (fun a => exists s, _toHtml d h a = inr s) (children c) ->
      exists inner,
        _toHtml (S d) h (ANode l)
        = inr (spec_normal_markup (tagName c) (id c) (classNames c)
                 (_attr (attributes c)) inner)).
Proof.
  intros Hl Hmode. split; [apply toHtml_normal; assumption|].
  intros Hall. rewrite (toHtml_normal h l c d Hl Hmode). unfold inner_markup.
  destruct (truthy_content (content c)) as [s|]; [eexists; reflexivity|].
  destruct (collect_all (map (_toHtml d h) (children c))) as [ss Hss].
  { apply Forall_map. exact Hall. }
  rewrite Hss. eexists; reflexivity.
Qed.

Lemma normal_markup_shape_witness :
  [OComp (sample_comp CSystemComp "Ab" "div" (Some normal) None [ANode 1; ANode 1]);
   sample_literal "<br>"] !! 0
  = Some (OComp (sample_comp CSystemComp "Ab" "div" (Some normal) None [ANode 1; ANode 1]))
  /\ _toHtml 5
       [OComp (sample_comp CSystemComp "Ab" "div" (Some normal) None [ANode 1; ANode 1]);
        sample_literal "<br>"] (ANode 0)
     = inr ("<div comp-id=" ++ dq ++ "Ab" ++ dq ++ " class=" ++ dq ++ "a b" ++ dq
            ++ " title=" ++ dq ++ "t" ++ dq ++ "><br><br></div>").
Proof.
  split; [reflexivity|].
  destruct (normal_markup_shape
              [OComp (sample_comp CSystemComp "Ab" "div" (Some normal) None [ANode 1; ANode 1]);
               sample_literal "<br>"] 0 _ 4 eq_refl (or_introl eq_refl)) as [H _].
  rewrite H. reflexivity.
Defined.

(** C3 (as amended). A node in the normal mode whose content is a string
    that is not empty is written with that content as inner markup,
    whatever its children hold and without an exception. *)
Theorem content_precedence {T} (h : list (JsObject T)) (l : loc) (c : Comp T)
    (d : nat) (s : string) :
  h !! l = Some (OComp c) ->
  renderMode c = Some normal \/ renderMode c = None ->
  content c = Some s ->
  s <> "" ->
  _toHtml (S d) h (ANode l)
  = inr (spec_normal_markup (tagName c) (id c) (classNames c) (_attr (attributes c)) s)
  /\ forall children' : list Arg,
       _toHtml (S d) (<[l := OComp (with_children children' c)]> h) (ANode l)
       = _toHtml (S d) h (ANode l).
Proof.
  intros Hl Hmode Hc Hs.
  assert (Hinner : forall h' ch, inner_markup d h' (with_children ch c) = inr s).
  { intros h' ch. unfold inner_markup. cbn [content with_children]. rewrite Hc.
    destruct s; [congruence|reflexivity]. }
  assert (Hhere : _toHtml (S d) h (ANode l)
    = inr (spec_normal_markup (tagName c) (id c) (classNames c) (_attr (attributes c)) s)).
  { rewrite (toHtml_normal h l c d Hl Hmode).
    replace (inner_markup d h c) with (inner_markup d h (with_children (children c) c))
      by (destruct c; reflexivity).
    rewrite Hinner. reflexivity. }
  split; [exact Hhere|].
  intros ch. rewrite Hhere.
  rewrite (toHtml_normal _ l (with_children ch c) d).
  - rewrite Hinner. reflexivity.
  - apply list_lookup_insert_eq. eapply lookup_lt_Some. exact Hl.
  - exact Hmode.
Qed.

Lemma content_precedence_witness :
  [OComp (sample_comp CSystemComp "Ab" "div" (Some normal) (Some "hello") [ANode 1]);
   sample_literal "<br>"] !! 0
  = Some (OComp (sample_comp CSystemComp "Ab" "div" (Some normal) (Some "hello") [ANode 1]))
  /\ _toHtml 5
       [OComp (sample_comp CSystemComp "Ab" "div" (Some normal) (Some "hello") [ANode 1]);
        sample_literal "<br>"] (ANode 0)
     = inr ("<div comp-id=" ++ dq ++ "Ab" ++ dq ++ " class=" ++ dq ++ "a b" ++ dq
            ++ " title=" ++ dq ++ "t" ++ dq ++ ">hello</div>").
Proof.
  split; [reflexivity|].
  assert (Hs : "hello" <> "") by discriminate.
  destruct (content_precedence
              [OComp (sample_comp CSystemComp "Ab" "div" (Some normal) (Some "hello") [ANode 1]);
               sample_literal "<br>"] 0 _ 4 "hello" eq_refl (or_introl eq_refl) eq_refl Hs)
    as [H _].
  rewrite H. reflexivity.
Defined.

(** The claim C3 as stated fails: a content set to the empty string does
    not keep the children out of the markup. *)
Lemma content_precedence_empty_counterexample :
  option_map content (comp_at empty_content_world 0) = Some (Some "")
  /\ option_map children (comp_at empty_content_world 0) = Some [ANode 1]
  /\ option_map renderMode (comp_at empty_content_world 0) = Some (Some normal)
  /\ _toHtml 5 (heap empty_content_world) (ANode 0)
     = inr (spec_normal_markup "p" "Ab" [] "" "<br>")
  /\ _toHtml 5 (heap empty_content_world) (ANode 0)
     <> inr (spec_normal_markup "p" "Ab" [] "" "").
Proof.
  split; [reflexivity|].
  split; [reflexivity|].
  split; [reflexivity|].
  split; [reflexivity|].
  vm_compute. discriminate.
Defined.

(** ** Computations that keep a relation between worlds *)

Section Preservation.

Context {T : Type}.
Variable R : World T -> World T -> Prop.
Hypothesis R_refl : forall w, R w w.
Hypothesis R_trans : forall w1 w2 w3, R w1 w2 -> R w2 w3 -> R w1 w3.

Local Abbreviation preserves := (preserves R).

Lemma preserves_ret {A} (a : A) : preserves (ret a).
Proof. intros w. apply R_refl. Qed.

Lemma preserves_throw {A} (e : Error) : preserves (@throw T A e).
Proof. intros w. apply R_refl. Qed.

Lemma preserves_gets {A} (f : World T -> A) : preserves (gets f).
Proof. intros w. apply R_refl. Qed.

Lemma preserves_getComp (this : loc) : preserves (getComp this).
Proof.
  intros w. unfold getComp.
  destruct (heap w !! this) as [[| |]|]; apply R_refl.
Qed.

Lemma preserves_bind {A B} (m : M T A) (k : A -> M T B) :
  preserves m -> (forall a, preserves (k a)) -> preserves (bind m k).
Proof.
  intros Hm Hk w. unfold bind. specialize (Hm w).
  destruct (m w) as [a w'|e w']; simpl in *; [|exact Hm].
  eapply R_trans; [exact Hm|apply Hk].
Qed.

Lemma preserves_forEach {A} (l : list A) (f : A -> M T unit) :
  (forall a, preserves (f a)) -> preserves (forEach l f).
Proof.
  intros Hf. induction l as [|x xs IH]; simpl.
  - apply preserves_ret.
  - apply preserves_bind; [apply Hf|intros _; exact IH].
Qed.

Lemma preserves_mapM {A B} (f : A -> M T B) (l : list A) :
  Forall (fun a => preserves (f a)) l -> preserves (mapM f l).
Proof.
  induction 1 as [|x xs Hx _ IH]; simpl.
  - apply preserves_ret.
  - apply preserves_bind; [exact Hx|intros y].
    apply preserves_bind; [exact IH|intros ys; apply preserves_ret].
Qed.

End Preservation.

(** ** Identities *)

Section Identities.

Context {T : Type}.

Local Abbreviation keeps := (@preserves T _ identities_kept).

Lemma identities_refl (w : World T) : identities_kept w w.
Proof. split; [reflexivity|]. intros l c H. exists c. auto. Qed.

Lemma identities_trans (w1 w2 w3 : World T) :
  identities_kept w1 w2 -> identities_kept w2 w3 -> identities_kept w1 w3.
Proof.
  intros [Hh1 H1] [Hh2 H2]. split; [congruence|].
  intros l c Hl. destruct (H1 l c Hl) as (c' & Hl' & Hid & Hcls).
  destruct (H2 l c' Hl') as (c'' & Hl'' & Hid' & Hcls').
  exists c''. repeat split; congruence.
Qed.

Lemma identities_put (w : World T) (this : loc) (c c' : Comp T) :
  heap w !! this = Some (OComp c) ->
  id c' = id c -> class c' = class c ->
  identities_kept w (put this c' w).
Proof.
  intros Hthis Hid Hcls. split; [reflexivity|].
  intros l c0 Hl. simpl.
  destruct (Nat.eq_dec l this) as [Heq|Hne].
  - subst l. assert (c0 = c) by congruence. subst c0.
    exists c'. rewrite list_lookup_insert_eq by (eapply lookup_lt_Some; exact Hthis).
    auto.
  - exists c0. rewrite list_lookup_insert_ne by congruence. auto.
Qed.

Lemma ids_ret {A} (a : A) : keeps (ret a).
Proof. apply preserves_ret, identities_refl. Qed.

Lemma ids_throw {A} (e : Error) : keeps (@throw T A e).
Proof. apply preserves_throw, identities_refl. Qed.

Lemma ids_gets {A} (f : World T -> A) : keeps (gets f).
Proof. apply preserves_gets, identities_refl. Qed.

Lemma ids_getComp (this : loc) : keeps (getComp this).
Proof. apply preserves_getComp, identities_refl. Qed.

Lemma ids_bind {A B} (m : M T A) (k : A -> M T B) :
  keeps m -> (forall a, keeps (k a)) -> keeps (bind m k).
Proof. apply preserves_bind, identities_trans. Qed.

Lemma ids_forEach {A} (l : list A) (f : A -> M T unit) :
  (forall a, keeps (f a)) -> keeps (forEach l f).
Proof. apply preserves_forEach; [apply identities_refl|apply identities_trans]. Qed.

Lemma ids_mapM {A B} (f : A -> M T B) (l : list A) :
  Forall (fun a => keeps (f a)) l -> keeps (mapM f l).
Proof. apply preserves_mapM; [apply identities_refl|apply identities_trans]. Qed.

Lemma ids_modifyComp (this : loc) (f : Comp T -> Comp T) :
  (forall c, id (f c) = id c /\ class (f c) = class c) ->
  keeps (modifyComp this f).
Proof.
  intros Hf w. unfold modifyComp.
  destruct (heap w !! this) as [[lit|c|fn]|] eqn:E; simpl;
    try apply identities_refl.
  destruct (Hf c) as [Hid Hcls].
  apply (identities_put w this c (f c) E Hid Hcls).
Qed.

Lemma ids_alloc (o : JsObject T) : keeps (alloc o).
Proof.
  intros w. split; [reflexivity|]. intros l c Hl. simpl.
  exists c. rewrite lookup_app_l by (eapply lookup_lt_Some; exact Hl). auto.
Qed.

Lemma ids_set_parent (this : loc) (child : Arg) : keeps (set_parent this child).
Proof.
  intros w. destruct child as [s|l]; simpl; [apply identities_refl|].
  destruct (heap w !! l) as [[lit|c|fn]|] eqn:E; simpl; try apply identities_refl.
  - split; [reflexivity|]. intros l0 c0 Hl0. simpl.
    exists c0. rewrite list_lookup_insert_ne; [auto|]. congruence.
  - apply (identities_put w l c _ E); reflexivity.
Qed.

Lemma ids_generateId (n : nat) : keeps (_generateId n).
Proof. intros w. split; [reflexivity|]. intros l c Hl. exists c. auto. Qed.

Lemma ids_modifyDocument (f : Forest -> Forest) : keeps (modifyDocument f).
Proof. intros w. split; [reflexivity|]. intros l c Hl. exists c. auto. Qed.

Lemma ids_toHtml (this : loc) : keeps (toHtml this).
Proof.
  intros w. unfold toHtml.
  destruct (_toHtml (stackDepth (host w)) (heap w) (ANode this)); apply identities_refl.
Qed.

End Identities.

Create HintDb identities.

#[export] Hint Resolve ids_ret ids_throw ids_gets ids_getComp ids_alloc ids_set_parent
  ids_generateId ids_modifyDocument ids_toHtml : identities.

(** One step through a computation built from the primitives. *)
Ltac keep_step :=
  first
    [ apply ids_bind; [|intro]
    | apply ids_forEach; intro
    | apply ids_modifyComp; intros ?; split; reflexivity
    | match goal with
      | |- preserves _ (match ?x with _ => _ end) => destruct x
      end
    | solve [auto with identities] ].

Ltac keep := repeat keep_step.

Section IdentitiesOfMethods.

Context {T : Type}.

Local Abbreviation keeps := (@preserves T _ identities_kept).

Lemma ids_compose (this : loc) (tag : string) (attrs : Obj Value)
    (cls : IClassNames) (args : list Arg) :
  keeps (compose this tag attrs cls args).
Proof. unfold compose. keep. Qed.

Lemma ids_Comp_init (this : loc) : keeps (Comp_init this).
Proof. unfold Comp_init. keep. Qed.

Lemma ids_register (this : loc) (ty : string) (f : loc) (cap : bool) :
  keeps (register this ty f cap).
Proof. unfold register. keep. Qed.

Lemma ids_SystemComp_init (this : loc) : keeps (SystemComp_init this).
Proof.
  unfold SystemComp_init.
  apply ids_bind; [apply ids_Comp_init|intros _].
  apply ids_bind; [apply ids_getComp|intros c].
  destruct (options c); try apply ids_throw.
  apply ids_bind; [apply ids_compose|intros _]. keep.
Qed.

Lemma ids_construct (init : loc -> M T unit) (cls : Class) (opts : Options T) :
  (forall l, keeps (init l)) -> keeps (construct init cls opts).
Proof. intros Hinit. unfold construct. keep. Qed.

Lemma ids_element (tag : string) (attrs : Obj Value) (cls : IClassNames)
    (args : list Arg) :
  keeps (element tag attrs cls args).
Proof. apply ids_construct, ids_SystemComp_init. Qed.

Lemma ids_selfClosingElement (tag : string) (attrs : Obj Value) (cls : IClassNames) :
  keeps (selfClosingElement tag attrs cls).
Proof. apply ids_construct, ids_SystemComp_init. Qed.

Lemma ids_build : forall e : Expr, keeps (build e).
Proof.
  fix IH 1. intros e. destruct e as [s|l|s|t a c ch|t a c]; simpl.
  - apply ids_ret.
  - apply ids_ret.
  - keep.
  - apply ids_bind.
    + apply ids_mapM. induction ch as [|e ch IHch]; constructor; [apply IH|exact IHch].
    + intros args. apply ids_bind; [apply ids_element|intros l; apply ids_ret].
  - apply ids_bind; [apply ids_selfClosingElement|intros l; apply ids_ret].
Qed.

Lemma ids_UserComp_init (this : loc) : keeps (UserComp_init this).
Proof. unfold UserComp_init. apply ids_bind; [apply ids_Comp_init|intros _]. keep. Qed.

Lemma ids_BuiltinComp_init (this : loc) : keeps (BuiltinComp_init this).
Proof. unfold BuiltinComp_init. apply ids_bind; [apply ids_Comp_init|intros _]. keep. Qed.

Lemma ids_set_attribute (this : loc) (key : string) (v : Value) :
  keeps (set_attribute this key v).
Proof. unfold set_attribute. keep. Qed.

Lemma ids_push_child (this : loc) (child : Arg) : keeps (push_child this child).
Proof. unfold push_child. keep. Qed.

Lemma ids_init (this : loc) : keeps (init this).
Proof.
  unfold init. apply ids_bind; [apply ids_getComp|intros c].
  destruct (class c).
  - apply ids_Comp_init.
  - apply ids_SystemComp_init.
  - apply ids_UserComp_init.
  - apply ids_BuiltinComp_init.
  - unfold If_init.
    apply ids_bind; [apply ids_BuiltinComp_init|intros _].
    apply ids_bind; [apply ids_set_attribute|intros _].
    apply ids_bind; [apply ids_getComp|intros c'].
    destruct (options c'); try apply ids_throw. apply ids_push_child.
  - unfold For_init.
    apply ids_bind; [apply ids_BuiltinComp_init|intros _].
    apply ids_bind; [apply ids_set_attribute|intros _].
    apply ids_bind; [apply ids_getComp|intros c'].
    destruct (options c'); try apply ids_throw.
    apply ids_forEach. intros item.
    apply ids_bind; [apply ids_build|intros child; apply ids_push_child].
  - unfold Select_init.
    apply ids_bind; [apply ids_BuiltinComp_init|intros _].
    apply ids_bind; [apply ids_getComp|intros c'].
    apply ids_bind; [apply ids_gets|intros name].
    destruct (options c') as [| | | |data nm lm vm [|]| |]; try apply ids_throw.
    + apply ids_bind.
      * apply ids_mapM, Forall_forall. intros entry _.
        apply ids_bind; [apply ids_selfClosingElement|intros i].
        apply ids_bind; [apply ids_element|intros lb].
        apply ids_bind; [apply ids_element|intros d; apply ids_ret].
      * intros rows. apply ids_bind; [apply ids_compose|intros _; apply ids_ret].
    + apply ids_bind.
      * apply ids_mapM, Forall_forall. intros item _.
        apply ids_bind; [apply ids_element|intros o; apply ids_ret].
      * intros opts. apply ids_bind; [apply ids_compose|intros _; apply ids_ret].
  - unfold RouterPage_init.
    apply ids_bind; [apply ids_BuiltinComp_init|intros _; apply ids_set_attribute].
  - unfold RouterOutlet_init.
    apply ids_bind; [apply ids_BuiltinComp_init|intros _; apply ids_set_attribute].
  - unfold RouterLink_init.
    apply ids_bind; [apply ids_BuiltinComp_init|intros _; apply ids_set_attribute].
  - unfold Test_init.
    apply ids_bind; [apply ids_UserComp_init|intros _].
    apply ids_bind; [apply ids_getComp|intros c'].
    destruct (options c'); try apply ids_throw.
    apply ids_bind; [apply ids_element|intros t].
    apply ids_bind; [apply ids_element|intros d].
    apply ids_bind; [apply ids_compose|intros _; apply ids_ret].
  - unfold Rating_init.
    apply ids_bind; [apply ids_UserComp_init|intros _].
    apply ids_bind; [apply ids_getComp|intros c'].
    destruct (options c'); try apply ids_throw.
    apply ids_bind.
    + apply ids_mapM. repeat constructor;
        (apply ids_bind; [apply ids_element|intros l; apply ids_ret]).
    + intros stars.
      apply ids_bind; [apply ids_compose|intros _].
      apply ids_bind; [apply ids_alloc|intros handler].
      apply ids_bind; [apply ids_register|intros _; apply ids_ret].
Qed.

Lemma ids_new (cls : Class) (opts : Options T) : keeps (new cls opts).
Proof. apply ids_construct, ids_init. Qed.

Lemma ids_element_of (this : loc) : keeps (_element this).
Proof. unfold _element. keep. Qed.

Lemma ids_doRegistrations (this : loc) : keeps (_doRegistrations this).
Proof.
  unfold _doRegistrations.
  apply ids_bind; [apply ids_getComp|intros c].
  apply ids_forEach. intros r.
  apply ids_bind; [apply ids_element_of|intros e].
  destruct e; [apply ids_modifyDocument|apply ids_throw].
Qed.

Lemma ids_update (this : loc) (patch : Patch T) : keeps (update this patch).
Proof.
  unfold update.
  apply ids_bind; [keep|intros _].
  apply ids_bind; [apply ids_init|intros _].
  apply ids_bind; [apply ids_element_of|intros old].
  destruct old as [old|]; [|apply ids_throw].
  apply ids_bind; [apply ids_toHtml|intros html].
  apply ids_bind; [apply ids_gets|intros new].
  apply ids_bind; [apply ids_modifyDocument|intros _].
  apply ids_bind; [apply ids_modifyDocument|intros _].
  apply ids_bind; [apply ids_doRegistrations|intros _; apply ids_ret].
Qed.

End IdentitiesOfMethods.

Lemma final_bind {T A B} (m : M T A) (k : A -> M T B) (w : World T) :
  final (bind m k w)
  = match m w with
    | Ok a w' => final (k a w')
    | Throw e w' => w'
    end.
Proof. unfold bind. destruct (m w); reflexivity. Qed.

Lemma ids_update_all {T} (this : loc) (patches : list (Patch T)) :
  preserves identities_kept (update_all this patches).
Proof.
  unfold update_all. apply ids_forEach. intros patch.
  apply ids_bind; [apply ids_update|intros _; apply ids_ret].
Qed.

Lemma marker_after_tag {T} (c : Comp T) (rest : string) :
  openTag c ++ rest
  = "<" ++ tagName c ++ " comp-id=" ++ dq ++ id c ++ dq
    ++ (" class=" ++ dq ++ join " " (classNames c) ++ dq ++ " " ++ _attr (attributes c)
        ++ rest).
Proof. unfold openTag. repeat rewrite string_app_assoc. reflexivity. Qed.

(** C1. The identity of a node is drawn when the node is constructed, and
    no call of [update], on this node or on another, changes it: after any
    number of calls, returned or thrown, the node holds the same [id], and
    the markup it is written to, outside the start-tag mode that writes no
    marker, carries that identity on the opening tag. *)
Theorem identity_assigned_once {T} (w : World T) :
  (forall cls opts,
     exists c, heap (final (new cls opts w)) !! length (heap w) = Some (OComp c)
               /\ id c = random_chars (Math_random (host w)) (draws w) 8)
  /\ (forall this patches l c,
        heap w !! l = Some (OComp c) ->
        exists c',
          heap (final (update_all this patches w)) !! l = Some (OComp c')
          /\ id c' = id c
          /\ forall d s,
               renderMode c' <> Some startTag ->
               _toHtml d (heap (final (update_all this patches w))) (ANode l) = inr s ->
               exists rest,
                 s = "<" ++ tagName c' ++ " comp-id=" ++ dq ++ id c ++ dq ++ rest).
Proof.
  split.
  - intros cls opts. unfold new, construct.
    rewrite final_bind. cbn [_generateId].
    rewrite final_bind. cbn [alloc].
    match goal with
    | |- context [final (bind ?m ?k ?w1)] =>
        destruct (ids_bind m k (ids_init _) (fun _ => ids_ret _) w1) as [_ Hkeep]
    end.
    edestruct Hkeep as (c' & Hl & Hid & _).
    { cbn [heap set_heap set_draws].
      rewrite lookup_app_r by reflexivity.
      rewrite Nat.sub_diag. reflexivity. }
    exists c'. split; [exact Hl|]. rewrite Hid. reflexivity.
  - intros this patches l c Hl.
    destruct (ids_update_all this patches w) as [_ Hkeep].
    destruct (Hkeep l c Hl) as (c' & Hl' & Hid & _).
    exists c'. split; [exact Hl'|]. split; [exact Hid|].
    intros d s Hmode Hs. destruct d as [|d]; [discriminate|].
    rewrite toHtml_step, Hl' in Hs. rewrite <- Hid.
    destruct (renderMode c') as [[| |]|]; try congruence.
    + destruct (inner_markup d _ c'); inversion Hs.
      eexists. apply marker_after_tag.
    + inversion Hs. eexists. apply marker_after_tag.
    + destruct (inner_markup d _ c'); inversion Hs.
      eexists. apply marker_after_tag.
Qed.

Lemma identity_assigned_once_witness :
  heap (mounted_world (sample_comp CComp "Ab" "div" None None [])) !! 0
  = Some (OComp (sample_comp CComp "Ab" "div" None None []))
  /\ returns (update_all 0 [PatchNone; PatchNone]
                (mounted_world (sample_comp CComp "Ab" "div" None None []))) = true
  /\ exists c',
       heap (final (update_all 0 [PatchNone; PatchNone]
                      (mounted_world (sample_comp CComp "Ab" "div" None None [])))) !! 0
       = Some (OComp c')
       /\ id c' = "Ab".
Proof.
  split; [reflexivity|]. split; [vm_compute; reflexivity|].
  destruct (identity_assigned_once
              (mounted_world (sample_comp CComp "Ab" "div" None None []))) as [_ H].
  destruct (H 0 [PatchNone; PatchNone] 0 _ eq_refl) as (c' & Hl & Hid & _).
  exists c'. split; assumption.
Defined.

(** ** The store under [modifyComp] *)

Section Store.

Context {T : Type}.

Lemma lookup_put (w : World T) (this : loc) (c c' : Comp T) :
  heap w !! this = Some (OComp c) ->
  heap (put this c' w) !! this = Some (OComp c').
Proof.
  intros H. simpl. apply list_lookup_insert_eq. eapply lookup_lt_Some. exact H.
Qed.

Lemma lookup_put_ne (w : World T) (this l : loc) (c' : Comp T) :
  l <> this -> heap (put this c' w) !! l = heap w !! l.
Proof. intros H. simpl. apply list_lookup_insert_ne. congruence. Qed.

Lemma put_put (w : World T) (this : loc) (c1 c2 : Comp T) :
  put this c2 (put this c1 w) = put this c2 w.
Proof. unfold put, set_heap. simpl. rewrite list_insert_insert_eq. reflexivity. Qed.

Lemma modifyComp_put (w : World T) (this : loc) (c : Comp T) (f : Comp T -> Comp T) :
  heap w !! this = Some (OComp c) ->
  modifyComp this f w = Ok tt (put this (f c) w).
Proof. intros H. unfold modifyComp. rewrite H. reflexivity. Qed.

Lemma bind_modifyComp {B} (w : World T) (this : loc) (c : Comp T)
    (f : Comp T -> Comp T) (k : unit -> M T B) :
  heap w !! this = Some (OComp c) ->
  bind (modifyComp this f) k w = k tt (put this (f c) w).
Proof. intros H. unfold bind. rewrite (modifyComp_put w this c f H). reflexivity. Qed.

Lemma bind_getComp {B} (w : World T) (this : loc) (c : Comp T) (k : Comp T -> M T B) :
  heap w !! this = Some (OComp c) ->
  bind (getComp this) k w = k c w.
Proof. intros H. unfold bind, getComp. rewrite H. reflexivity. Qed.

(** The base reset, as one assignment. *)
Lemma Comp_init_put (w : World T) (this : loc) (c : Comp T) :
  heap w !! this = Some (OComp c) ->
  Comp_init this w
  = Ok tt (put this
             (with_registrations [] (with_children [] (with_classNames []
                (with_attributes [] (with_tagName "div" c))))) w).
Proof.
  intros H. unfold Comp_init.
  rewrite (bind_modifyComp w this c) by exact H.
  erewrite bind_modifyComp by (eapply lookup_put; exact H).
  erewrite bind_modifyComp by (eapply lookup_put; eapply lookup_put; exact H).
  erewrite bind_modifyComp
    by (eapply lookup_put; eapply lookup_put; eapply lookup_put; exact H).
  erewrite modifyComp_put
    by (eapply lookup_put; eapply lookup_put; eapply lookup_put; eapply lookup_put;
        exact H).
  repeat rewrite put_put. reflexivity.
Qed.

End Store.

(** ** Computations on the document only *)

Section Document.

Context {T : Type}.

Local Abbreviation quiet := (@preserves T _ store_kept).

Lemma store_refl (w : World T) : store_kept w w.
Proof. repeat split. Qed.

Lemma store_trans (w1 w2 w3 : World T) :
  store_kept w1 w2 -> store_kept w2 w3 -> store_kept w1 w3.
Proof. intros (? & ? & ?) (? & ? & ?). repeat split; congruence. Qed.

Lemma quiet_bind {A B} (m : M T A) (k : A -> M T B) :
  quiet m -> (forall a, quiet (k a)) -> quiet (bind m k).
Proof. apply preserves_bind, store_trans. Qed.

Lemma quiet_ret {A} (a : A) : quiet (ret a).
Proof. apply preserves_ret, store_refl. Qed.

Lemma quiet_throw {A} (e : Error) : quiet (@throw T A e).
Proof. apply preserves_throw, store_refl. Qed.

Lemma quiet_modifyDocument (f : Forest -> Forest) : quiet (modifyDocument f).
Proof. intros w. repeat split. Qed.

Lemma quiet_toHtml (this : loc) : quiet (toHtml this).
Proof.
  intros w. unfold toHtml.
  destruct (_toHtml (stackDepth (host w)) (heap w) (ANode this)); apply store_refl.
Qed.

Lemma quiet_element (this : loc) : quiet (_element this).
Proof.
  unfold _element.
  apply quiet_bind; [apply preserves_getComp, store_refl|intros c].
  destruct (css_identifier (id c));
    [apply preserves_gets, store_refl|apply quiet_throw].
Qed.

Lemma quiet_doRegistrations (this : loc) : quiet (_doRegistrations this).
Proof.
  unfold _doRegistrations.
  apply quiet_bind; [apply preserves_getComp, store_refl|intros c].
  apply preserves_forEach; [apply store_refl|apply store_trans|].
  intros r. apply quiet_bind; [apply quiet_element|intros e].
  destruct e; [apply quiet_modifyDocument|apply quiet_throw].
Qed.

Lemma quiet_replace_and_bind (this : loc) : quiet (replace_and_bind this).
Proof.
  unfold replace_and_bind.
  apply quiet_bind; [apply quiet_element|intros old].
  destruct old as [old|]; [|apply quiet_throw].
  apply quiet_bind; [apply quiet_toHtml|intros html].
  apply quiet_bind; [apply preserves_gets, store_refl|intros new].
  apply quiet_bind; [apply quiet_modifyDocument|intros _].
  apply quiet_bind; [apply quiet_modifyDocument|intros _].
  apply quiet_bind; [apply quiet_doRegistrations|intros _; apply quiet_ret].
Qed.

End Document.

(** C10. The base [init] resets the tag, the attributes, the class names,
    the children and the registrations of the node and nothing else, in the
    node or elsewhere; so [update] on a node of the base class leaves it
    with the identity, the parent, the render mode and the content it had,
    the options being merged. *)
Theorem base_init_frame {T} (w : World T) (this : loc) (c : Comp T) :
  heap w !! this = Some (OComp c) ->
  Comp_init this w
  = Ok tt (put this
             {| class := class c; id := id c; options := options c;
                tagName := "div"; attributes := []; classNames := [];
                children := []; content := content c; parent := parent c;
                registrations := []; renderMode := renderMode c |} w)
  /\ (class c = CComp ->
      forall patch,
        heap (final (update this patch w)) !! this
        = Some (OComp
                  {| class := CComp; id := id c;
                     options := Object_assign (options c) patch;
                     tagName := "div"; attributes := []; classNames := [];
                     children := []; content := content c; parent := parent c;
                     registrations := []; renderMode := renderMode c |})).
Proof.
  intros H. split; [apply Comp_init_put, H|].
  intros Hcls patch. unfold update.
  rewrite (bind_modifyComp w this c) by exact H.
  set (c1 := with_options (Object_assign (options c) patch) c).
  assert (H1 : heap (put this c1 w) !! this = Some (OComp c1))
    by (eapply lookup_put; exact H).
  rewrite final_bind. unfold init.
  rewrite (bind_getComp _ this c1) by exact H1.
  replace (class c1) with CComp by (symmetry; exact Hcls).
  rewrite (Comp_init_put _ this c1 H1), put_put.
  match goal with
  | |- heap (final (replace_and_bind this ?w2)) !! this = _ =>
      destruct (quiet_replace_and_bind this w2) as (_ & Hheap & _);
      rewrite Hheap; erewrite lookup_put by exact H
  end.
  subst c1. rewrite <- Hcls. reflexivity.
Qed.

Lemma base_init_frame_witness :
  heap (mounted_world (sample_comp CComp "Ab" "span" (Some selfClosing) (Some "kept")
                         [ANode 1])) !! 0
  = Some (OComp (sample_comp CComp "Ab" "span" (Some selfClosing) (Some "kept") [ANode 1]))
  /\ heap (final (update 0 PatchNone
                    (mounted_world (sample_comp CComp "Ab" "span" (Some selfClosing)
                                      (Some "kept") [ANode 1])))) !! 0
     = Some (OComp
               {| class := CComp; id := "Ab"; options := OptAny;
                  tagName := "div"; attributes := []; classNames := [];
                  children := []; content := Some "kept"; parent := None;
                  registrations := []; renderMode := Some selfClosing |}).
Proof.
  split; [reflexivity|].
  destruct (base_init_frame
              (mounted_world (sample_comp CComp "Ab" "span" (Some selfClosing)
                                (Some "kept") [ANode 1])) 0 _ eq_refl) as [_ H].
  exact (H eq_refl PatchNone).
Defined.

(** ** [compose] *)

Section Compose.

Context {T : Type}.
Variable this : loc.

Local Abbreviation gentle := (@preserves T _ (parents_only this)).

Lemma same_but_parent_refl (o : option (JsObject T)) : same_but_parent o o.
Proof. destruct o as [[| |]|]; reflexivity. Qed.

Lemma same_but_parent_trans (o1 o2 o3 : option (JsObject T)) :
  same_but_parent o1 o2 -> same_but_parent o2 o3 -> same_but_parent o1 o3.
Proof.
  destruct o1 as [[| |]|], o2 as [[| |]|], o3 as [[| |]|]; simpl;
    try tauto; congruence.
Qed.

Lemma parents_only_refl (w : World T) : parents_only this w w.
Proof. repeat split; auto using same_but_parent_refl. Qed.

Lemma parents_only_trans (w1 w2 w3 : World T) :
  parents_only this w1 w2 -> parents_only this w2 w3 -> parents_only this w1 w3.
Proof.
  intros (? & ? & ? & Ho & Hp) (? & ? & ? & Ho' & Hp').
  repeat split; try congruence.
  - intros l. eapply same_but_parent_trans; [apply Ho|apply Ho'].
  - intros l Hl. apply Hp', Hp, Hl.
Qed.

(** [child.parent = this] on an [IComp]. *)
Lemma set_parent_IComp (w : World T) (l : loc) :
  is_IComp w (ANode l) ->
  exists w', set_parent this (ANode l) w = Ok tt w'
             /\ parents_only this w w'
             /\ parent_of w' l = Some (Some this).
Proof.
  intros [p Hp]. unfold parent_of in Hp. unfold set_parent.
  destruct (heap w !! l) as [[lit|c|f]|] eqn:E; try discriminate.
  - eexists. split; [reflexivity|]. split.
    + repeat split; try reflexivity.
      * intros l0. simpl. destruct (Nat.eq_dec l0 l) as [->|Hne].
        -- rewrite list_lookup_insert_eq by (eapply lookup_lt_Some; exact E).
           rewrite E. reflexivity.
        -- rewrite list_lookup_insert_ne by congruence. apply same_but_parent_refl.
      * intros l0. unfold parent_of. simpl. destruct (Nat.eq_dec l0 l) as [->|Hne].
        -- rewrite list_lookup_insert_eq by (eapply lookup_lt_Some; exact E).
           reflexivity.
        -- rewrite list_lookup_insert_ne by congruence. tauto.
    + unfold parent_of. simpl.
      rewrite list_lookup_insert_eq by (eapply lookup_lt_Some; exact E). reflexivity.
  - eexists. split; [reflexivity|]. split.
    + repeat split; try reflexivity.
      * intros l0. simpl. destruct (Nat.eq_dec l0 l) as [->|Hne].
        -- rewrite list_lookup_insert_eq by (eapply lookup_lt_Some; exact E).
           rewrite E. reflexivity.
        -- rewrite list_lookup_insert_ne by congruence. apply same_but_parent_refl.
      * intros l0. unfold parent_of. simpl. destruct (Nat.eq_dec l0 l) as [->|Hne].
        -- rewrite list_lookup_insert_eq by (eapply lookup_lt_Some; exact E).
           reflexivity.
        -- rewrite list_lookup_insert_ne by congruence. tauto.
    + unfold parent_of. simpl.
      rewrite list_lookup_insert_eq by (eapply lookup_lt_Some; exact E). reflexivity.
Qed.

Lemma gentle_set_parent (child : Arg) : gentle (set_parent this child).
Proof.
  intros w. destruct child as [s|l]; [apply parents_only_refl|].
  destruct (heap w !! l) as [[lit|c|f]|] eqn:E.
  - destruct (set_parent_IComp w l) as (w' & Hrun & Hrel & _).
    { exists (literal_parent lit). unfold parent_of. rewrite E. reflexivity. }
    rewrite Hrun. exact Hrel.
  - destruct (set_parent_IComp w l) as (w' & Hrun & Hrel & _).
    { exists (parent c). unfold parent_of. rewrite E. reflexivity. }
    rewrite Hrun. exact Hrel.
  - simpl. rewrite E. apply parents_only_refl.
  - simpl. rewrite E. apply parents_only_refl.
Qed.

Lemma gentle_set_parents (args : list Arg) : gentle (forEach args (set_parent this)).
Proof.
  apply preserves_forEach;
    [apply parents_only_refl|apply parents_only_trans|apply gentle_set_parent].
Qed.

Lemma is_IComp_kept (w w' : World T) (a : Arg) :
  parents_only this w w' -> is_IComp w a -> is_IComp w' a.
Proof.
  intros (_ & _ & _ & Ho & _). destruct a as [s|l]; simpl; [tauto|].
  intros [p Hp]. unfold parent_of in *. specialize (Ho l).
  destruct (heap w !! l) as [[| |]|], (heap w' !! l) as [[| |]|];
    simpl in Ho; try contradiction; try discriminate; eexists; reflexivity.
Qed.

(** The loop over the children, when each of them is an [IComp]. *)
Lemma set_parents_IComp (args : list Arg) :
  forall w : World T,
    Forall (is_IComp w) args ->
    exists w', forEach args (set_parent this) w = Ok tt w'
               /\ parents_only this w w'
               /\ forall l, In (ANode l) args -> parent_of w' l = Some (Some this).
Proof.
  induction args as [|a args IH]; intros w Hall.
  - exists w. split; [reflexivity|]. split; [apply parents_only_refl|].
    intros l [].
  - inversion Hall as [|? ? Ha Hrest]; subst.
    destruct a as [s|l]; [contradiction|].
    destruct (set_parent_IComp w l Ha) as (w1 & Hrun & Hrel & Hpar).
    destruct (IH w1) as (w' & Hrun' & Hrel' & Hpars).
    { eapply Forall_impl; [exact Hrest|]. intros a. apply is_IComp_kept, Hrel. }
    exists w'. split.
    + cbn [forEach]. unfold bind. rewrite Hrun. exact Hrun'.
    + split; [eapply parents_only_trans; eassumption|].
      intros l0 [Heq|Hin]; [|apply Hpars, Hin].
      inversion Heq; subst. destruct Hrel' as (_ & _ & _ & _ & Hkeep).
      apply Hkeep, Hpar.
Qed.

(** The loop over the children, when one of them is plain text. *)
Lemma set_parents_text (args : list Arg) :
  forall w : World T,
    (exists s, In (AText s) args) ->
    exists w', forEach args (set_parent this) w = Throw TypeError w'.
Proof.
  induction args as [|a args IH]; intros w [s Hin]; [contradiction|].
  cbn [forEach]. unfold bind.
  destruct a as [s'|l].
  - eexists. reflexivity.
  - destruct Hin as [Heq|Hin]; [discriminate|].
    unfold set_parent.
    destruct (heap w !! l) as [[lit|c|f]|]; try (eexists; reflexivity);
      apply IH; exists s; exact Hin.
Qed.

End Compose.

Section ComposeRuns.

Context {T : Type}.

Lemma compose_prefix (w : World T) (this : loc) (c : Comp T) (tag : string)
    (attrs : Obj Value) (cls : IClassNames) (args : list Arg) :
  heap w !! this = Some (OComp c) ->
  compose this tag attrs cls args w
  = bind
      match args with
      | [AText s] => modifyComp this (with_content (Some s))
      | _ => modifyComp this (with_children args) >> forEach args (set_parent this)
      end
      (fun _ => ret this)
      (put this (with_classNames (normalizeClassNames cls)
                   (with_attributes attrs (with_tagName tag c))) w).
Proof.
  intros H. unfold compose.
  rewrite (bind_modifyComp w this c) by exact H.
  erewrite bind_modifyComp by (eapply lookup_put; exact H).
  erewrite bind_modifyComp by (eapply lookup_put; eapply lookup_put; exact H).
  repeat rewrite put_put. reflexivity.
Qed.

Lemma compose_branch {A} (args : list Arg) (single : string -> A) (several : A) :
  (forall s, args <> [AText s]) ->
  match args with
  | [AText s] => single s
  | _ => several
  end = several.
Proof.
  intros H. destruct args as [|[s|l] [|b rest]]; try reflexivity.
  exfalso. apply (H s). reflexivity.
Qed.

Lemma is_IComp_put (w : World T) (this : loc) (c c' : Comp T) (a : Arg) :
  heap w !! this = Some (OComp c) ->
  is_IComp w a -> is_IComp (put this c' w) a.
Proof.
  intros H. destruct a as [s|l]; simpl; [tauto|]. intros [p Hp].
  unfold parent_of in *. destruct (Nat.eq_dec l this) as [->|Hne].
  - rewrite (lookup_put w this c c' H). eexists; reflexivity.
  - rewrite lookup_put_ne by exact Hne. exists p. exact Hp.
Qed.

Lemma comp_kept (this0 : loc) (w w' : World T) (l : loc) (c : Comp T) :
  parents_only this0 w w' ->
  heap w !! l = Some (OComp c) ->
  exists c', heap w' !! l = Some (OComp c')
             /\ with_parent None c' = with_parent None c.
Proof.
  intros (_ & _ & _ & Ho & _) Hl. specialize (Ho l). rewrite Hl in Ho.
  destruct (heap w' !! l) as [[lit|c'|f]|]; simpl in Ho; try contradiction.
  exists c'. split; [reflexivity|]. symmetry. exact Ho.
Qed.


End ComposeRuns.

(** C7. A call of [compose] with a single argument that is plain text sets
    [content] to the text and leaves [children] as it was; any other call
    sets [children] to the arguments as given and, the arguments being
    nodes, sets the [parent] of each to the composed node. An argument that
    is text among several is treated as a node too: the assignment of its
    [parent] throws. *)
Theorem compose_children {T} (w : World T) (this : loc) (c : Comp T) (tag : string)
    (attrs : Obj Value) (cls : IClassNames) (args : list Arg) :
  heap w !! this = Some (OComp c) ->
  (forall s, args = [AText s] ->
     compose this tag attrs cls args w
     = Ok this
         (put this
            {| class := class c; id := id c; options := options c;
               tagName := tag; attributes := attrs;
               classNames := normalizeClassNames cls;
               children := children c; content := Some s; parent := parent c;
               registrations := registrations c; renderMode := renderMode c |} w))
  /\ ((forall s, args <> [AText s]) ->
      Forall (is_IComp w) args ->
      exists w' c',
        compose this tag attrs cls args w = Ok this w'
        /\ heap w' !! this = Some (OComp c')
        /\ children c' = args
        /\ content c' = content c
        /\ forall l, In (ANode l) args -> parent_of w' l = Some (Some this))
  /\ ((forall s, args <> [AText s]) ->
      (exists s, In (AText s) args) ->
      exists w' c',
        compose this tag attrs cls args w = Throw TypeError w'
        /\ heap w' !! this = Some (OComp c')
        /\ children c' = args).
Proof.
  intros H.
  set (c3 := with_classNames (normalizeClassNames cls)
               (with_attributes attrs (with_tagName tag c))).
  assert (H3 : heap (put this c3 w) !! this = Some (OComp c3))
    by (eapply lookup_put; exact H).
  assert (H4 : heap (put this (with_children args c3) w) !! this
               = Some (OComp (with_children args c3)))
    by (eapply lookup_put; exact H).
  split; [|split].
  - intros s ->. rewrite (compose_prefix w this c) by exact H.
    rewrite (bind_modifyComp _ this c3) by exact H3.
    rewrite put_put. reflexivity.
  - intros Hshape Hall. rewrite (compose_prefix w this c) by exact H.
    rewrite (compose_branch args _ _ Hshape).
    unfold bind at 1. rewrite (bind_modifyComp _ this c3) by exact H3.
    rewrite put_put.
    destruct (set_parents_IComp this args (put this (with_children args c3) w))
      as (w' & Hrun & Hrel & Hparents).
    { eapply Forall_impl; [exact Hall|]. intros a. apply (is_IComp_put w this c), H. }
    rewrite Hrun.
    destruct (comp_kept this _ _ this _ Hrel H4) as (c' & Hl & Heq).
    exists w', c'. split; [reflexivity|]. split; [exact Hl|].
    split; [|split; [|exact Hparents]].
    + change (children (with_parent None c') = args). rewrite Heq. reflexivity.
    + change (content (with_parent None c') = content c). rewrite Heq. reflexivity.
  - intros Hshape Htext. rewrite (compose_prefix w this c) by exact H.
    rewrite (compose_branch args _ _ Hshape).
    unfold bind at 1. rewrite (bind_modifyComp _ this c3) by exact H3.
    rewrite put_put.
    destruct (set_parents_text this args (put this (with_children args c3) w) Htext)
      as (w' & Hrun).
    pose proof (gentle_set_parents this args (put this (with_children args c3) w))
      as Hrel.
    rewrite Hrun in *. simpl in Hrel.
    destruct (comp_kept this _ _ this _ Hrel H4) as (c' & Hl & Heq).
    exists w', c'. split; [reflexivity|]. split; [exact Hl|].
    change (children (with_parent None c') = args). rewrite Heq. reflexivity.
Qed.

Lemma compose_children_witness :
  heap (mounted_world (sample_comp CComp "Ab" "div" None None [])) !! 0
  = Some (OComp (sample_comp CComp "Ab" "div" None None []))
  /\ Forall (is_IComp (mounted_world (sample_comp CComp "Ab" "div" None None [])))
       [ANode 1; ANode 1]
  /\ exists w' c',
       compose 0 "ul" [] (ClassString "x y") [ANode 1; ANode 1]
         (mounted_world (sample_comp CComp "Ab" "div" None None []))
       = Ok 0 w'
       /\ heap w' !! 0 = Some (OComp c')
       /\ children c' = [ANode 1; ANode 1]
       /\ parent_of w' 1 = Some (Some 0).
Proof.
  assert (Hshape : forall s, [ANode 1; ANode 1] <> [AText s]) by (intros s; discriminate).
  assert (Hall : Forall (is_IComp (mounted_world (sample_comp CComp "Ab" "div" None None [])))
                   [ANode 1; ANode 1]).
  { repeat constructor; exists None; reflexivity. }
  split; [reflexivity|]. split; [exact Hall|].
  destruct (compose_children
              (mounted_world (sample_comp CComp "Ab" "div" None None [])) 0 _
              "ul" [] (ClassString "x y") [ANode 1; ANode 1] eq_refl)
    as (_ & H & _).
  destruct (H Hshape Hall) as (w' & c' & Hrun & Hl & Hch & _ & Hpar).
  exists w', c'. repeat split; try assumption.
  apply Hpar. left. reflexivity.
Defined.




(** ** Listeners on the live tree *)

Lemma Registration_eqb_eq (r1 r2 : Registration) :
  Registration_eqb r1 r2 = true -> r1 = r2.
Proof.
  destruct r1 as [t1 l1 u1], r2 as [t2 l2 u2]. unfold Registration_eqb. simpl.
  intros H. apply andb_true_iff in H as [H Hu]. apply andb_true_iff in H as [Ht Hl].
  apply String.eqb_eq in Ht. apply Nat.eqb_eq in Hl. apply Bool.eqb_prop in Hu.
  subst. reflexivity.
Qed.

Lemma add_listener_In (r : Registration) (ls : list Registration) :
  In r (add_listener r ls).
Proof.
  unfold add_listener. destruct (existsb (Registration_eqb r) ls) eqn:E.
  - apply existsb_exists in E as (x & Hin & Heq).
    apply Registration_eqb_eq in Heq. subst x. exact Hin.
  - apply in_or_app. right. left. reflexivity.
Qed.

Lemma add_listener_keeps (r r' : Registration) (ls : list Registration) :
  In r' ls -> In r' (add_listener r ls).
Proof.
  unfold add_listener. destruct (existsb (Registration_eqb r) ls); [tauto|].
  intros H. apply in_or_app. left. exact H.
Qed.

Lemma find_addEventListener (cid : string) (r : Registration) (f : Forest) :
  forall p, find_compId cid (addEventListener p r f) = find_compId cid f.
Proof.
  induction f as [|a ls ks IHks rest IHrest]; intros p; [reflexivity|].
  destruct p as [|[|i] p']; [reflexivity| |].
  - destruct p' as [|j p'']; [reflexivity|].
    cbn [addEventListener find_compId]. rewrite IHks. reflexivity.
  - cbn [addEventListener find_compId]. rewrite IHrest. reflexivity.
Qed.

Lemma element_at_addEventListener (r : Registration) (f : Forest) :
  forall p a ls,
    element_at p f = Some (a, ls) ->
    element_at p (addEventListener p r f) = Some (a, add_listener r ls).
Proof.
  induction f as [|a0 ls0 ks IHks rest IHrest]; intros p a ls H; [discriminate|].
  destruct p as [|[|i] p']; [discriminate| |].
  - destruct p' as [|j p''].
    + cbn in *. inversion H; subst. reflexivity.
    + cbn [addEventListener element_at] in *. apply IHks, H.
  - cbn [addEventListener element_at] in *. apply IHrest, H.
Qed.

Lemma element_at_nil (f : Forest) : element_at [] f = None.
Proof. destruct f; reflexivity. Qed.

Lemma find_compId_element (cid : string) (f : Forest) :
  forall p, find_compId cid f = Some p ->
            exists ls, element_at p f = Some (Some cid, ls).
Proof.
  induction f as [|a ls ks IHks rest IHrest]; intros p H; [discriminate|].
  cbn [find_compId] in H.
  destruct (has_compId cid a) eqn:Ea.
  - inversion H; subst. destruct a as [v|]; [|discriminate].
    apply String.eqb_eq in Ea. subst v. exists ls. reflexivity.
  - destruct (find_compId cid ks) as [q|] eqn:Eks.
    + inversion H; subst. destruct (IHks q eq_refl) as [ls' Hq].
      exists ls'. destruct q as [|j q'];
        [rewrite element_at_nil in Hq; discriminate|]. exact Hq.
    + destruct (find_compId cid rest) as [q|] eqn:Erest; [|discriminate].
      inversion H; subst. destruct (IHrest q eq_refl) as [ls' Hq].
      exists ls'. destruct q as [|j q'];
        [rewrite element_at_nil in Hq; discriminate|]. exact Hq.
Qed.

Lemma bound_at_add (d : Forest) (p : Handle) (r : Registration) (a : option string)
    (ls : list Registration) :
  element_at p d = Some (a, ls) ->
  bound_at (addEventListener p r d) p r
  /\ forall r', bound_at d p r' -> bound_at (addEventListener p r d) p r'.
Proof.
  intros H. pose proof (element_at_addEventListener r d p a ls H) as Hadd. split.
  - exists a, (add_listener r ls). split; [exact Hadd|apply add_listener_In].
  - intros r' (a' & ls' & H' & Hin). rewrite H in H'. inversion H'; subst.
    exists a', (add_listener r ls'). split; [exact Hadd|apply add_listener_keeps, Hin].
Qed.

Section Registrations.

Context {T : Type}.

Lemma element_run (w : World T) (this : loc) (c : Comp T) :
  heap w !! this = Some (OComp c) ->
  _element this w
  = if css_identifier (id c)
    then Ok (find_compId (id c) (document w)) w
    else Throw SyntaxError w.
Proof.
  intros H. unfold _element. rewrite (bind_getComp w this c) by exact H.
  destruct (css_identifier (id c)); reflexivity.
Qed.

(** The loop of [_doRegistrations]: when it returns, the element that the
    identity locates is the same before and after, and every registration
    of the list is bound to it. *)
Lemma registrations_loop (this : loc) (c : Comp T) (regs : list Registration) :
  forall w w' : World T,
    heap w !! this = Some (OComp c) ->
    forEach regs (fun r =>
      let! e := _element this in
      match e with
      | Some p => modifyDocument (addEventListener p r)
      | None => throw TypeError
      end) w = Ok tt w' ->
    heap w' = heap w
    /\ find_compId (id c) (document w') = find_compId (id c) (document w)
    /\ (regs <> [] -> exists p, find_compId (id c) (document w) = Some p)
    /\ (forall p, find_compId (id c) (document w) = Some p ->
          (forall r, In r regs -> bound_at (document w') p r)
          /\ (forall r, bound_at (document w) p r -> bound_at (document w') p r)).
Proof.
  induction regs as [|r regs IH]; intros w w' Hthis Hrun.
  - inversion Hrun; subst. repeat split; try tauto. intros r [].
  - cbn [forEach] in Hrun. unfold bind at 1 in Hrun. unfold bind at 1 in Hrun.
    rewrite (element_run w this c Hthis) in Hrun.
    destruct (css_identifier (id c)); [|discriminate].
    destruct (find_compId (id c) (document w)) as [p|] eqn:Efind; [|discriminate].
    cbn [modifyDocument] in Hrun.
    set (w1 := set_document (addEventListener p r (document w)) w) in *.
    assert (Hthis1 : heap w1 !! this = Some (OComp c)) by exact Hthis.
    destruct (IH w1 w' Hthis1 Hrun) as (Hheap & Hfind & _ & Hbound).
    assert (Hfind1 : find_compId (id c) (document w1) = Some p).
    { subst w1. cbn [document set_document]. rewrite find_addEventListener. exact Efind. }
    destruct (find_compId_element (id c) (document w) p Efind) as [ls Hel].
    destruct (bound_at_add (document w) p r (Some (id c)) ls Hel) as [Hr Hold].
    destruct (Hbound p Hfind1) as [Hnew Hkeep].
    split; [exact Hheap|]. split; [congruence|].
    split; [intros _; exists p; reflexivity|].
    intros p' Hp'. inversion Hp'; subst p'. split.
    + intros r' [<-|Hin]; [apply Hkeep, Hr|apply Hnew, Hin].
    + intros r' Hb. apply Hkeep, Hold, Hb.
Qed.

Lemma doRegistrations_bound (w w' : World T) (this : loc) (c : Comp T) :
  heap w !! this = Some (OComp c) ->
  _doRegistrations this w = Ok tt w' ->
  heap w' = heap w
  /\ (registrations c <> [] ->
      exists p, find_compId (id c) (document w') = Some p
                /\ forall r, In r (registrations c) -> bound_at (document w') p r).
Proof.
  intros Hthis Hrun. unfold _doRegistrations in Hrun.
  rewrite (bind_getComp w this c) in Hrun by exact Hthis.
  destruct (registrations_loop this c (registrations c) w w' Hthis Hrun)
    as (Hheap & Hfind & Hsome & Hbound).
  split; [exact Hheap|]. intros Hne. destruct (Hsome Hne) as [p Hp].
  exists p. split; [congruence|]. apply (Hbound p Hp).
Qed.

End Registrations.

(** ** A field of one component under the methods of the others *)

Section FieldKept.

Context {T A : Type}.
Variable P : Comp T -> A.
Variable l : loc.
Hypothesis P_parent : forall v c, P (with_parent v c) = P c.

Local Abbreviation steady := (@preserves T _ (field_kept P l)).

Lemma field_refl (w : World T) : field_kept P l w w.
Proof. intros c H. exists c. auto. Qed.

Lemma field_trans (w1 w2 w3 : World T) :
  field_kept P l w1 w2 -> field_kept P l w2 w3 -> field_kept P l w1 w3.
Proof.
  intros H1 H2 c Hc. destruct (H1 c Hc) as (c' & Hc' & Hp).
  destruct (H2 c' Hc') as (c'' & Hc'' & Hp'). exists c''. split; congruence.
Qed.

Lemma steady_bind {B C} (m : M T B) (k : B -> M T C) :
  steady m -> (forall b, steady (k b)) -> steady (bind m k).
Proof. apply preserves_bind, field_trans. Qed.

Lemma steady_ret {B} (b : B) : steady (ret b).
Proof. apply preserves_ret, field_refl. Qed.

Lemma steady_throw {B} (e : Error) : steady (@throw T B e).
Proof. apply preserves_throw, field_refl. Qed.

Lemma steady_getComp (this : loc) : steady (getComp this).
Proof. apply preserves_getComp, field_refl. Qed.

Lemma steady_forEach {B} (xs : list B) (f : B -> M T unit) :
  (forall b, steady (f b)) -> steady (forEach xs f).
Proof. apply preserves_forEach; [apply field_refl|apply field_trans]. Qed.

Lemma steady_mapM {B C} (f : B -> M T C) (xs : list B) :
  Forall (fun b => steady (f b)) xs -> steady (mapM f xs).
Proof. apply preserves_mapM; [apply field_refl|apply field_trans]. Qed.

Lemma steady_modifyComp (this : loc) (f : Comp T -> Comp T) :
  this <> l \/ (forall c, P (f c) = P c) ->
  steady (modifyComp this f).
Proof.
  intros Hf w c Hc. unfold modifyComp.
  destruct (heap w !! this) as [[lit|c0|fn]|] eqn:E; simpl;
    try (exists c; split; [exact Hc|reflexivity]).
  destruct (Nat.eq_dec this l) as [Heq|Hne].
  - subst this. assert (c0 = c) by congruence. subst c0.
    destruct Hf as [Hf|Hf]; [congruence|].
    exists (f c). split; [|apply Hf].
    apply list_lookup_insert_eq. eapply lookup_lt_Some. exact Hc.
  - exists c. split; [|reflexivity].
    rewrite list_lookup_insert_ne by congruence. exact Hc.
Qed.

Lemma steady_alloc (o : JsObject T) : steady (alloc o).
Proof.
  intros w c Hc. simpl. exists c. split; [|reflexivity].
  rewrite lookup_app_l by (eapply lookup_lt_Some; exact Hc). exact Hc.
Qed.

Lemma steady_generateId (n : nat) : steady (_generateId n).
Proof. intros w c Hc. exists c. auto. Qed.

Lemma steady_set_parent (this : loc) (child : Arg) : steady (set_parent this child).
Proof.
  intros w c Hc. destruct child as [s|l0]; simpl; [exists c; auto|].
  destruct (heap w !! l0) as [[lit|c0|fn]|] eqn:E; simpl;
    try (exists c; split; [exact Hc|reflexivity]).
  - exists c. split; [|reflexivity].
    rewrite list_lookup_insert_ne by congruence. exact Hc.
  - destruct (Nat.eq_dec l0 l) as [Heq|Hne].
    + subst l0. assert (c0 = c) by congruence. subst c0.
      exists (with_parent (Some this) c). split; [|apply P_parent].
      apply list_lookup_insert_eq. eapply lookup_lt_Some. exact Hc.
    + exists c. split; [|reflexivity].
      rewrite list_lookup_insert_ne by congruence. exact Hc.
Qed.

(** The methods of another object. *)
Lemma steady_Comp_init (this : loc) : this <> l -> steady (Comp_init this).
Proof.
  intros Hne. unfold Comp_init.
  repeat (apply steady_bind; [apply steady_modifyComp; left; exact Hne|intros _]).
  apply steady_modifyComp. left. exact Hne.
Qed.

Lemma steady_compose (this : loc) (tag : string) (attrs : Obj Value)
    (cls : IClassNames) (args : list Arg) :
  this <> l \/ (forall f, In f [with_tagName tag; with_attributes attrs;
                                 with_classNames (normalizeClassNames cls);
                                 with_children args] -> forall c, P (f c) = P c)
               /\ (forall s c, P (with_content (Some s) c) = P c) ->
  steady (compose this tag attrs cls args).
Proof.
  intros Hf. unfold compose.
  assert (Hmod : forall f, In f [with_tagName tag; with_attributes attrs;
                                 with_classNames (normalizeClassNames cls);
                                 with_children args] ->
                           steady (modifyComp this f)).
  { intros f Hin. apply steady_modifyComp.
    destruct Hf as [Hne|[Hf _]]; [left; exact Hne|right; apply Hf, Hin]. }
  apply steady_bind; [apply Hmod; simpl; tauto|intros _].
  apply steady_bind; [apply Hmod; simpl; tauto|intros _].
  apply steady_bind; [apply Hmod; simpl; tauto|intros _].
  apply steady_bind; [|intros _; apply steady_ret].
  assert (Hseveral : steady (modifyComp this (with_children args) >>
                             forEach args (set_parent this))).
  { apply steady_bind; [apply Hmod; simpl; tauto|intros _].
    apply steady_forEach. intros child. apply steady_set_parent. }
  destruct args as [|[s|l0] [|b rest]]; try exact Hseveral.
  apply steady_modifyComp.
  destruct Hf as [Hne|[_ Hf]]; [left; exact Hne|right; apply Hf].
Qed.

Lemma steady_SystemComp_init (this : loc) : this <> l -> steady (SystemComp_init this).
Proof.
  intros Hne. unfold SystemComp_init.
  apply steady_bind; [apply steady_Comp_init, Hne|intros _].
  apply steady_bind; [apply steady_getComp|intros c].
  destruct (options c); try apply steady_throw.
  apply steady_bind; [apply steady_compose; left; exact Hne|intros _].
  destruct (truthy_mode (o_renderMode o)); [|apply steady_ret].
  apply steady_modifyComp. left. exact Hne.
Qed.

(** A constructor runs [init] on an object that did not exist before. *)
Lemma steady_construct (init : loc -> M T unit) (cls : Class) (opts : Options T) :
  (forall this, this <> l -> steady (init this)) ->
  steady (construct init cls opts).
Proof.
  intros Hinit w c Hc. unfold construct.
  rewrite final_bind. cbn [_generateId].
  rewrite final_bind. cbn [alloc].
  assert (Hfresh : length (heap (set_draws (draws w + 8) w)) <> l).
  { apply lookup_lt_Some in Hc. simpl. lia. }
  match goal with
  | |- context [final (bind (init ?this) ?k ?w2)] =>
      apply (steady_bind (init this) k (Hinit this Hfresh) (fun _ => steady_ret _) w2)
  end.
  simpl. rewrite lookup_app_l by (eapply lookup_lt_Some; exact Hc). exact Hc.
Qed.

Lemma steady_element (tag : string) (attrs : Obj Value) (cls : IClassNames)
    (args : list Arg) :
  steady (element tag attrs cls args).
Proof. apply steady_construct, steady_SystemComp_init. Qed.

Lemma steady_selfClosingElement (tag : string) (attrs : Obj Value) (cls : IClassNames) :
  steady (selfClosingElement tag attrs cls).
Proof. apply steady_construct, steady_SystemComp_init. Qed.

Lemma steady_build : forall e : Expr, steady (build e).
Proof.
  fix IH 1. intros e. destruct e as [s|l0|s|t a c ch|t a c]; simpl.
  - apply steady_ret.
  - apply steady_ret.
  - apply steady_bind; [apply steady_alloc|intros l0; apply steady_ret].
  - apply steady_bind.
    + apply steady_mapM. induction ch as [|e ch IHch]; constructor; [apply IH|exact IHch].
    + intros args. apply steady_bind; [apply steady_element|intros l0; apply steady_ret].
  - apply steady_bind; [apply steady_selfClosingElement|intros l0; apply steady_ret].
Qed.

End FieldKept.

(** ** What [init] leaves in the node *)

Section InitLeaves.

Context {T : Type}.
Variable this : loc.

Local Abbreviation steady := (@preserves T _ (field_kept (@registrations T) this)).

Local Abbreviation clears := (@clears T _ this).

Lemma clears_Comp_init : clears (Comp_init this).
Proof.
  intros w c H. rewrite (Comp_init_put w this c H).
  eexists. split; [eapply lookup_put; exact H|reflexivity].
Qed.

Lemma clears_then {A B} (m : M T A) (k : A -> M T B) :
  clears m -> (forall a, steady (k a)) -> clears (bind m k).
Proof.
  intros Hm Hk w c H. rewrite final_bind.
  destruct (Hm w c H) as (c' & Hc' & Hregs).
  destruct (m w) as [a w'|e w']; simpl in Hc'.
  - destruct (Hk a w' c' Hc') as (c'' & Hc'' & Hregs').
    exists c''. split; [exact Hc''|congruence].
  - exists c'. split; assumption.
Qed.

Lemma steady_field (f : Comp T -> Comp T) :
  (forall c, registrations (f c) = registrations c) ->
  steady (modifyComp this f).
Proof. intros Hf. apply steady_modifyComp. right. exact Hf. Qed.

Lemma steady_compose_this (tag : string) (attrs : Obj Value) (cls : IClassNames)
    (args : list Arg) :
  steady (compose this tag attrs cls args).
Proof.
  apply steady_compose; [reflexivity|]. right. split.
  - intros f Hin c. simpl in Hin.
    destruct Hin as [<-|[<-|[<-|[<-|[]]]]]; reflexivity.
  - reflexivity.
Qed.

Lemma clears_BuiltinComp_init : clears (BuiltinComp_init this).
Proof.
  unfold BuiltinComp_init. apply clears_then; [apply clears_Comp_init|intros _].
  apply steady_bind; [apply steady_field; reflexivity|intros _].
  apply steady_field. reflexivity.
Qed.

Lemma steady_set_attribute (key : string) (v : Value) :
  steady (set_attribute this key v).
Proof. apply steady_field. reflexivity. Qed.

Lemma steady_push_child (child : Arg) : steady (push_child this child).
Proof. apply steady_field. reflexivity. Qed.

(** Every [init] but the one of [Rating] leaves no registration. *)
Lemma init_clears (w : World T) (c : Comp T) :
  heap w !! this = Some (OComp c) ->
  class c <> CRating ->
  exists c', heap (final (init this w)) !! this = Some (OComp c')
             /\ registrations c' = [].
Proof.
  intros H Hcls. unfold init. rewrite (bind_getComp w this c) by exact H.
  assert (Hparent : forall v (c0 : Comp T),
            registrations (with_parent v c0) = registrations c0) by reflexivity.
  destruct (class c); try congruence.
  - exact (clears_Comp_init w c H).
  - refine (clears_then _ _ clears_Comp_init _ w c H). intros _.
    apply steady_bind; [apply steady_getComp|intros c0].
    destruct (options c0); try apply steady_throw.
    apply steady_bind; [apply steady_compose_this|intros _].
    destruct (truthy_mode (o_renderMode o)); [|apply steady_ret].
    apply steady_field. reflexivity.
  - refine (clears_then _ _ clears_Comp_init _ w c H). intros _.
    apply steady_bind; [apply steady_field; reflexivity|intros _].
    apply steady_field. reflexivity.
  - exact (clears_BuiltinComp_init w c H).
  - refine (clears_then _ _ clears_BuiltinComp_init _ w c H). intros _.
    apply steady_bind; [apply steady_set_attribute|intros _].
    apply steady_bind; [apply steady_getComp|intros c0].
    destruct (options c0); try apply steady_throw. apply steady_push_child.
  - refine (clears_then _ _ clears_BuiltinComp_init _ w c H). intros _.
    apply steady_bind; [apply steady_set_attribute|intros _].
    apply steady_bind; [apply steady_getComp|intros c0].
    destruct (options c0); try apply steady_throw.
    apply steady_forEach. intros item.
    apply steady_bind; [apply steady_build, Hparent|intros child].
    apply steady_push_child.
  - refine (clears_then _ _ clears_BuiltinComp_init _ w c H). intros _.
    apply steady_bind; [apply steady_getComp|intros c0].
    apply steady_bind; [apply preserves_gets, field_refl|intros name].
    destruct (options c0) as [| | | |data nm lm vm [|]| |]; try apply steady_throw.
    + apply steady_bind.
      * apply steady_mapM, Forall_forall. intros entry _.
        apply steady_bind; [apply steady_selfClosingElement, Hparent|intros i].
        apply steady_bind; [apply steady_element, Hparent|intros lb].
        apply steady_bind; [apply steady_element, Hparent|intros d; apply steady_ret].
      * intros rows.
        apply steady_bind; [apply steady_compose_this|intros _; apply steady_ret].
    + apply steady_bind.
      * apply steady_mapM, Forall_forall. intros item _.
        apply steady_bind; [apply steady_element, Hparent|intros o; apply steady_ret].
      * intros opts.
        apply steady_bind; [apply steady_compose_this|intros _; apply steady_ret].
  - refine (clears_then _ _ clears_BuiltinComp_init _ w c H). intros _.
    apply steady_set_attribute.
  - refine (clears_then _ _ clears_BuiltinComp_init _ w c H). intros _.
    apply steady_set_attribute.
  - refine (clears_then _ _ clears_BuiltinComp_init _ w c H). intros _.
    apply steady_set_attribute.
  - assert (Huser : clears (UserComp_init this)).
    { unfold UserComp_init. apply clears_then; [apply clears_Comp_init|intros _].
      apply steady_bind; [apply steady_field; reflexivity|intros _].
      apply steady_field. reflexivity. }
    refine (clears_then _ _ Huser _ w c H). intros _.
    apply steady_bind; [apply steady_getComp|intros c0].
    destruct (options c0); try apply steady_throw.
    apply steady_bind; [apply steady_element, Hparent|intros t].
    apply steady_bind; [apply steady_element, Hparent|intros d].
    apply steady_bind; [apply steady_compose_this|intros _; apply steady_ret].
Qed.

End InitLeaves.

(** ** The element that replaces the old one *)

Lemma remove_after_new (new f : Forest) (i : nat) :
  remove_at [flength new + i] (fapp new f) = fapp new (remove_at [i] f).
Proof.
  induction new as [|a ls ks _ rest IH]; [reflexivity|].
  cbn [flength fapp Nat.add remove_at]. rewrite IH. reflexivity.
Qed.

Lemma shift_last_cons (k i j : nat) (p : Handle) :
  shift_last k (i :: j :: p) = i :: shift_last k (j :: p).
Proof. reflexivity. Qed.

Lemma find_compId_cons (cid : string) (f : Forest) :
  forall p, find_compId cid f = Some p -> exists i q, p = i :: q.
Proof.
  induction f as [|a ls ks _ rest IHrest]; intros p; [discriminate|].
  cbn [find_compId].
  destruct (has_compId cid a); [intros H; inversion H; eauto|].
  destruct (find_compId cid ks); [intros H; inversion H; eauto|].
  destruct (find_compId cid rest) as [q|]; [|discriminate].
  destruct (IHrest q eq_refl) as (i & q' & ->).
  intros H. inversion H. simpl. eauto.
Qed.

(** When the inserted markup starts with an element that carries the
    identity, that element is what the identity locates once the old one is
    removed, at the place of the old one. *)
Lemma replaced_by_new (cid : string) (ks' rest' : Forest) (f : Forest) :
  forall p,
    find_compId cid f = Some p ->
    find_compId cid
      (remove_at (shift_last (flength (FCons (Some cid) [] ks' rest')) p)
         (insert_before p (FCons (Some cid) [] ks' rest') f))
    = Some p
    /\ element_at p
         (remove_at (shift_last (flength (FCons (Some cid) [] ks' rest')) p)
            (insert_before p (FCons (Some cid) [] ks' rest') f))
       = Some (Some cid, []).
Proof.
  set (new := FCons (Some cid) [] ks' rest').
  induction f as [|a ls ks IHks rest IHrest]; intros p H; [discriminate|].
  cbn [find_compId] in H.
  destruct (has_compId cid a) eqn:Ea.
  - inversion H; subst p. cbn [insert_before shift_last].
    rewrite remove_after_new. subst new.
    cbn [fapp find_compId has_compId element_at]. rewrite String.eqb_refl. auto.
  - destruct (find_compId cid ks) as [q|] eqn:Eks.
    + inversion H; subst p.
      destruct (find_compId_cons cid ks q Eks) as (i & q' & ->).
      destruct (IHks (i :: q') eq_refl) as [Hfind Hel].
      rewrite shift_last_cons.
      assert (Hshape : exists j r, shift_last (flength new) (i :: q') = j :: r).
      { destruct q'; simpl; eauto. }
      destruct Hshape as (j & r & Hshape). rewrite Hshape in *.
      cbn [insert_before remove_at find_compId element_at]. rewrite Ea, Hfind.
      split; [reflexivity|exact Hel].
    + destruct (find_compId cid rest) as [q|] eqn:Erest; [|discriminate].
      inversion H; subst p.
      destruct (find_compId_cons cid rest q Erest) as (i & q' & ->).
      destruct (IHrest (i :: q') eq_refl) as [Hfind Hel].
      cbn [bump]. destruct q' as [|j q''].
      * cbn [shift_last] in *. rewrite Nat.add_succ_r.
        cbn [insert_before remove_at find_compId element_at].
        rewrite Ea, Eks, Hfind. split; [reflexivity|exact Hel].
      * rewrite shift_last_cons in *.
        cbn [insert_before remove_at find_compId element_at].
        rewrite Ea, Eks, Hfind. split; [reflexivity|exact Hel].
Qed.

Lemma add_listener_iff (r x : Registration) (ls : list Registration) :
  In x (add_listener r ls) <-> In x ls \/ x = r.
Proof.
  split.
  - unfold add_listener. destruct (existsb (Registration_eqb r) ls); [tauto|].
    intros H. apply in_app_or in H as [H|[H|[]]]; auto.
  - intros [H| ->]; [apply add_listener_keeps, H|apply add_listener_In].
Qed.

(** ** Listeners after [update] *)

Lemma registrations_loop_exact {T} (this : loc) (c : Comp T)
    (regs : list Registration) :
  forall (w w' : World T) p a ls,
    heap w !! this = Some (OComp c) ->
    forEach regs (fun r =>
      let! e := _element this in
      match e with
      | Some p => modifyDocument (addEventListener p r)
      | None => throw TypeError
      end) w = Ok tt w' ->
    find_compId (id c) (document w) = Some p ->
    element_at p (document w) = Some (a, ls) ->
    exists ls', element_at p (document w') = Some (a, ls')
                /\ forall r, In r ls' <-> In r ls \/ In r regs.
Proof.
  induction regs as [|r regs IH]; intros w w' p a ls Hthis Hrun Hfind Hel.
  - inversion Hrun; subst. exists ls. split; [exact Hel|]. simpl. tauto.
  - cbn [forEach] in Hrun. unfold bind at 1 in Hrun. unfold bind at 1 in Hrun.
    rewrite (element_run w this c Hthis) in Hrun.
    destruct (css_identifier (id c)); [|discriminate].
    rewrite Hfind in Hrun. cbn [modifyDocument] in Hrun.
    set (w1 := set_document (addEventListener p r (document w)) w) in *.
    assert (Hfind1 : find_compId (id c) (document w1) = Some p).
    { subst w1. cbn [document set_document]. rewrite find_addEventListener. exact Hfind. }
    assert (Hel1 : element_at p (document w1) = Some (a, add_listener r ls)).
    { subst w1. cbn [document set_document].
      apply element_at_addEventListener, Hel. }
    destruct (IH w1 w' p a (add_listener r ls) Hthis Hrun Hfind1 Hel1)
      as (ls' & Hel' & Hin).
    exists ls'. split; [exact Hel'|]. intros x. rewrite Hin, add_listener_iff.
    simpl. intuition congruence.
Qed.

(** C2 (as amended). When [update] returns on a mounted node, the pending
    list of the node is the one that the re-run [init] left, each entry of it
    is bound to the live element that the identity of the node locates, and
    the registrations made through [register] before the call are gone with
    the base reset unless [init] makes them again: the list is empty on a
    node of every class but [Rating], whose [init] registers its click
    handler anew. When the host parses the markup of the node to an element
    that carries the identity, this new element is the one located, at the
    place of the old one, and its listeners are those of the pending list
    and no other. *)
Theorem update_binds_registrations {T} (w w' : World T) (this l : loc) (c : Comp T)
    (patch : Patch T) :
  heap w !! this = Some (OComp c) ->
  update this patch w = Ok l w' ->
  l = this
  /\ exists w1 c1,
       bind (modifyComp this (fun c => with_options (Object_assign (options c) patch) c))
            (fun _ => init this) w = Ok tt w1
       /\ heap w1 !! this = Some (OComp c1)
       /\ heap w' = heap w1
       /\ (class c <> CRating -> registrations c1 = [])
       /\ (registrations c1 <> [] ->
           exists p, find_compId (id c1) (document w') = Some p
                     /\ forall r, In r (registrations c1) -> bound_at (document w') p r)
       /\ (forall old html ks rest,
             find_compId (id c1) (document w1) = Some old ->
             toHtml this w1 = Ok html w1 ->
             parseHTML (host w1) html = FCons (Some (id c1)) [] ks rest ->
             find_compId (id c1) (document w') = Some old
             /\ exists ls,
                  element_at old (document w') = Some (Some (id c1), ls)
                  /\ forall r, In r ls <-> In r (registrations c1)).
Proof.
  intros Hthis Hrun. unfold update in Hrun.
  unfold bind at 1 in Hrun.
  destruct (modifyComp this _ w) as [[] w0|e w0] eqn:E0; [|discriminate].
  unfold bind at 1 in Hrun.
  destruct (init this w0) as [[] w1|e w1] eqn:E1; [|discriminate].
  assert (Hfirst :
    bind (modifyComp this (fun c => with_options (Object_assign (options c) patch) c))
         (fun _ => init this) w = Ok tt w1).
  { unfold bind. rewrite E0. exact E1. }
  unfold replace_and_bind in Hrun. unfold bind at 1 in Hrun.
  destruct (heap w1 !! this) as [[lit|c1|f]|] eqn:Hc1;
    try (unfold _element, bind, getComp in Hrun; rewrite Hc1 in Hrun; discriminate).
  rewrite (element_run w1 this c1 Hc1) in Hrun.
  destruct (css_identifier (id c1)); [|discriminate].
  destruct (find_compId (id c1) (document w1)) as [old|] eqn:Eold; [|discriminate].
  unfold bind at 1 in Hrun. unfold toHtml in Hrun.
  destruct (_toHtml (stackDepth (host w1)) (heap w1) (ANode this)) as [e|html] eqn:Ehtml;
    [discriminate|].
  unfold bind at 1 in Hrun. cbn [gets] in Hrun.
  unfold bind at 1 in Hrun. cbn [modifyDocument] in Hrun.
  unfold bind at 1 in Hrun. cbn [modifyDocument] in Hrun.
  unfold bind at 1 in Hrun.
  set (new := parseHTML (host w1) html) in *.
  set (w2 := set_document
               (remove_at (shift_last (flength new) old)
                  (document (set_document (insert_before old new (document w1)) w1)))
               (set_document (insert_before old new (document w1)) w1)) in *.
  destruct (_doRegistrations this w2) as [[] w3|e w3] eqn:E3; [|discriminate].
  assert (H2 : heap w2 !! this = Some (OComp c1)) by exact Hc1.
  destruct (doRegistrations_bound w2 w3 this c1 H2 E3) as [Hheap Hbound].
  inversion Hrun; subst l w'.
  split; [reflexivity|]. exists w1, c1.
  split; [exact Hfirst|]. split; [exact Hc1|]. split; [exact Hheap|].
  split; [|split; [exact Hbound|]].
  - intros Hcls. rewrite (modifyComp_put w this c _ Hthis) in E0.
    inversion E0; subst w0. cbv beta in E1.
    destruct (init_clears this _ _
                (lookup_put w this c (with_options (Object_assign (options c) patch) c)
                   Hthis)
                Hcls)
      as (c' & Hc' & Hregs).
    rewrite E1 in Hc'. simpl in Hc'. congruence.
  - intros old' html' ks rest Hold Hhtml Hparse.
    assert (old' = old) by congruence. subst old'.
    assert (html' = html).
    { unfold toHtml in Hhtml. rewrite Ehtml in Hhtml. inversion Hhtml. reflexivity. }
    subst html'. fold new in Hparse.
    destruct (replaced_by_new (id c1) ks rest (document w1) old Eold) as [Hfind Hel].
    rewrite <- Hparse in Hfind, Hel.
    unfold _doRegistrations in E3. rewrite (bind_getComp w2 this c1 _ H2) in E3.
    destruct (registrations_loop this c1 (registrations c1) w2 w3 H2 E3)
      as (_ & Hsame & _).
    destruct (registrations_loop_exact this c1 (registrations c1) w2 w3 old
                (Some (id c1)) [] H2 E3 Hfind Hel) as (ls & Hls & Hin).
    split; [rewrite Hsame; exact Hfind|].
    exists ls. split; [exact Hls|]. intros r. rewrite Hin. simpl. tauto.
Qed.

Lemma update_binds_registrations_witness :
  heap rating_world !! 0 = Some (OComp rating_node)
  /\ update 0 (PatchRating None (Some 4%Z)) rating_world
     = Ok 0 (final (update 0 (PatchRating None (Some 4%Z)) rating_world))
  /\ exists w1 c1,
       heap w1 !! 0 = Some (OComp c1)
       /\ heap (final (update 0 (PatchRating None (Some 4%Z)) rating_world)) = heap w1
       /\ (registrations c1 <> [] ->
           exists p,
             find_compId (id c1)
               (document (final (update 0 (PatchRating None (Some 4%Z)) rating_world)))
             = Some p
             /\ forall r, In r (registrations c1) ->
                  bound_at
                    (document (final (update 0 (PatchRating None (Some 4%Z)) rating_world)))
                    p r).
Proof.
  assert (H0 : heap rating_world !! 0 = Some (OComp rating_node))
    by (vm_compute; reflexivity).
  assert (H1 : update 0 (PatchRating None (Some 4%Z)) rating_world
               = Ok 0 (final (update 0 (PatchRating None (Some 4%Z)) rating_world)))
    by (vm_compute; reflexivity).
  split; [exact H0|]. split; [exact H1|].
  destruct (update_binds_registrations rating_world _ 0 0 rating_node
              (PatchRating None (Some 4%Z)) H0 H1)
    as (_ & w1 & c1 & _ & Hc1 & Hheap & _ & Hbound & _).
  exists w1, c1. split; [exact Hc1|]. split; [exact Hheap|exact Hbound].
Defined.

(** The rating widget after [update]: the handler made by the re-run
    [init] is the one listener of the new live element. *)
Example rating_update_rebinds :
  option_map registrations
    (comp_at (final (update 0 (PatchRating None (Some 4%Z)) rating_world)) 0)
  = Some [{| type := "click"; listener := 12; useCapture := false |}]
  /\ find_compId "AHOVcjqx"
       (document (final (update 0 (PatchRating None (Some 4%Z)) rating_world)))
     = Some [0]
  /\ option_map snd
       (element_at [0]
          (document (final (update 0 (PatchRating None (Some 4%Z)) rating_world))))
     = Some [{| type := "click"; listener := 12; useCapture := false |}].
Proof. vm_compute. repeat split. Qed.

(** The claim C2 as stated fails: a listener registered through [register]
    and bound at the mount is neither in the pending list nor on the live
    element once [update] has returned. *)
Lemma update_drops_listener_counterexample :
  option_map registrations (comp_at listener_world 0) = Some [click_listener]
  /\ element_at [0] (document listener_world) = Some (Some "Ab", [click_listener])
  /\ returns (update 0 PatchNone listener_world) = true
  /\ option_map registrations (comp_at (final (update 0 PatchNone listener_world)) 0)
     = Some []
  /\ find_compId "Ab" (document (final (update 0 PatchNone listener_world))) = Some [0]
  /\ element_at [0] (document (final (update 0 PatchNone listener_world)))
     = Some (Some "Ab", [])
  /\ ~ bound_at (document (final (update 0 PatchNone listener_world))) [0] click_listener.
Proof.
  assert (Hel : element_at [0] (document (final (update 0 PatchNone listener_world)))
                = Some (Some "Ab", [])) by (vm_compute; reflexivity).
  repeat split; try (vm_compute; reflexivity).
  intros (a & ls & H & Hin). rewrite Hel in H. inversion H; subst. contradiction.
Defined.

(** ** The children of a list node *)

Section ForNode.

Context {T : Type}.
Variable this : loc.

Lemma BuiltinComp_init_put (w : World T) (c : Comp T) :
  heap w !! this = Some (OComp c) ->
  BuiltinComp_init this w
  = Ok tt (put this
             (with_renderMode (Some normal) (with_tagName "div"
                (with_registrations [] (with_children [] (with_classNames []
                   (with_attributes [] (with_tagName "div" c))))))) w).
Proof.
  intros H. unfold BuiltinComp_init. unfold bind at 1.
  rewrite (Comp_init_put w this c H).
  erewrite bind_modifyComp by (eapply lookup_put; exact H).
  erewrite modifyComp_put by (eapply lookup_put; eapply lookup_put; exact H).
  repeat rewrite put_put. reflexivity.
Qed.

(** The loop of [For.init] pushes one child for each item. *)
Lemma For_loop (mapper : T -> Expr) (data : list T) :
  forall (w w' : World T) (c : Comp T),
    heap w !! this = Some (OComp c) ->
    forEach data (fun item => let! child := build (mapper item) in
                              push_child this child) w = Ok tt w' ->
    exists c', heap w' !! this = Some (OComp c')
               /\ length (children c') = length (children c) + length data.
Proof.
  induction data as [|item data IH]; intros w w' c H Hrun.
  - inversion Hrun; subst. exists c. split; [exact H|]. simpl. lia.
  - cbn [forEach] in Hrun. unfold bind at 1 in Hrun. unfold bind at 1 in Hrun.
    pose proof (steady_build (@children T) this (fun _ _ => eq_refl)
                  (mapper item) w c H) as (c1 & Hc1 & Hch).
    destruct (build (mapper item) w) as [child w1|e w1]; [|discriminate].
    simpl in Hc1. unfold push_child in Hrun.
    rewrite (modifyComp_put w1 this c1 _ Hc1) in Hrun.
    destruct (IH _ w' _ (lookup_put w1 this c1 _ Hc1) Hrun) as (c' & Hc' & Hlen).
    exists c'. split; [exact Hc'|].
    rewrite Hlen. cbn [children with_children]. rewrite length_app, Hch. simpl. lia.
Qed.

(** After an [update] that returns, a list node has as many children as
    the data it was given last. *)
Lemma For_children_follow_data (w w' : World T) (l : loc) (c : Comp T)
    (patch : Patch T) (data : list T) (mapper : T -> Expr) :
  heap w !! this = Some (OComp c) ->
  class c = CFor ->
  Object_assign (options c) patch = OptFor data mapper ->
  update this patch w = Ok l w' ->
  exists c', heap w' !! this = Some (OComp c')
             /\ length (children c') = length data.
Proof.
  intros H Hcls Hopts Hrun. unfold update in Hrun.
  rewrite (bind_modifyComp w this c _ _ H) in Hrun.
  set (c0 := with_options (Object_assign (options c) patch) c) in *.
  assert (H0 : heap (put this c0 w) !! this = Some (OComp c0))
    by (eapply lookup_put; exact H).
  unfold bind at 1 in Hrun.
  destruct (init this (put this c0 w)) as [[] w1|e w1] eqn:E1; [|discriminate].
  unfold init in E1. rewrite (bind_getComp _ this c0 _ H0) in E1.
  replace (class c0) with CFor in E1 by (symmetry; exact Hcls).
  unfold For_init in E1. unfold bind at 1 in E1.
  rewrite (BuiltinComp_init_put _ c0 H0), put_put in E1.
  unfold set_attribute in E1.
  erewrite bind_modifyComp in E1 by (eapply lookup_put; exact H).
  rewrite put_put in E1.
  erewrite bind_getComp in E1 by (eapply lookup_put; exact H).
  cbn [options with_attributes with_renderMode with_tagName with_registrations
       with_children with_classNames] in E1.
  subst c0. cbn [options with_options] in E1. rewrite Hopts in E1.
  match type of E1 with
  | forEach _ _ (put this ?c2 w) = _ =>
      destruct (For_loop mapper data _ w1 c2 (lookup_put w this c c2 H) E1)
        as (c' & Hc' & Hlen)
  end.
  destruct (quiet_replace_and_bind this w1) as (_ & Hheap & _).
  rewrite Hrun in Hheap. simpl in Hheap.
  exists c'. split; [congruence|exact Hlen].
Qed.

End ForNode.

(** ** [update] and the state of an earlier configuration *)

(** C4 fails on the code. After two calls of [update], a [SystemComp] still
    holds the text content of the first configuration, which hides the
    children of the second, and the self-closing mode of the first, which
    the normal mode of the second cannot reset; a node constructed with the
    same merged options holds neither. *)
Theorem update_leaks_previous_configuration :
  (option_map options (comp_at content_scenario 1)
   = option_map options (comp_at content_scenario 2)
   /\ option_map children (comp_at content_scenario 1) = Some [ANode 0; ANode 0]
   /\ option_map children (comp_at content_scenario 2) = Some [ANode 0; ANode 0]
   /\ option_map content (comp_at content_scenario 1) = Some (Some "first")
   /\ option_map content (comp_at content_scenario 2) = Some None
   /\ _toHtml 8 (heap content_scenario) (ANode 1)
      = inr (spec_normal_markup "div" "AHOVcjqx" [] "" "first")
   /\ _toHtml 8 (heap content_scenario) (ANode 2)
      = inr (spec_normal_markup "div" "4BIPWdkr" [] "" "<br><br>"))
  /\ (option_map options (comp_at mode_scenario 0)
      = option_map options (comp_at mode_scenario 1)
      /\ option_map renderMode (comp_at mode_scenario 0) = Some (Some selfClosing)
      /\ option_map renderMode (comp_at mode_scenario 1) = Some None
      /\ _toHtml 8 (heap mode_scenario) (ANode 0)
         = inr (spec_selfClosing_markup "div" "AHOVcjqx" [] "")
      /\ _toHtml 8 (heap mode_scenario) (ANode 1)
         = inr (spec_normal_markup "div" "4BIPWdkr" [] "" "")).
Proof. vm_compute. repeat split. Qed.

(** The list node of the claim does follow its data: one child after the
    update to one item. *)
Example for_scenario_children :
  option_map children (comp_at for_scenario 0) = Some [ANode 4]
  /\ _toHtml 8 (heap for_scenario) (ANode 0)
     = inr (spec_normal_markup "div" "AHOVcjqx" [] "comp-for" "<li>").
Proof. vm_compute. repeat split. Qed.

(** * Further properties of the code *)

(** ** The alphabet of the identities *)

Lemma base62_table :
  forallb (fun m => is_base62 (base62 m) && is_name_char (base62 m)
                    && negb (Nat.eqb (nat_of_ascii (base62 m)) 45)
                    && Bool.eqb (is_digit (base62 m)) (m <? 10)%nat)
          (seq 0 62) = true.
Proof. vm_compute. reflexivity. Qed.

Lemma base62_facts (k : nat) :
  is_base62 (base62 k) = true
  /\ is_name_char (base62 k) = true
  /\ Nat.eqb (nat_of_ascii (base62 k)) 45 = false
  /\ is_digit (base62 k) = (k mod 62 <? 10)%nat.
Proof.
  assert (Hmod : base62 k = base62 (k mod 62)).
  { unfold base62. rewrite Nat.Div0.mod_mod. reflexivity. }
  pose proof (proj1 (forallb_forall _ _) base62_table (k mod 62)) as H.
  cbv beta in H. rewrite Hmod.
  assert (Hin : In (k mod 62) (seq 0 62)).
  { apply in_seq. pose proof (Nat.mod_upper_bound k 62). lia. }
  specialize (H Hin).
  apply andb_true_iff in H as [H H4]. apply andb_true_iff in H as [H H3].
  apply andb_true_iff in H as [H1 H2].
  apply negb_true_iff in H3. apply Bool.eqb_prop in H4.
  auto.
Qed.

Lemma random_chars_length (rnd : nat -> nat) (n : nat) :
  forall pos, String.length (random_chars rnd pos n) = n.
Proof. induction n as [|n IH]; intros pos; simpl; [reflexivity|]. rewrite IH. reflexivity. Qed.

Lemma random_chars_base62 (rnd : nat -> nat) (n : nat) :
  forall pos, all_chars is_base62 (random_chars rnd pos n) = true
              /\ all_name_chars (random_chars rnd pos n) = true.
Proof.
  induction n as [|n IH]; intros pos; simpl; [auto|].
  destruct (base62_facts (rnd pos)) as (H1 & H2 & _).
  destruct (IH (S pos)) as [H3 H4]. rewrite H1, H2, H3, H4. auto.
Qed.

(** X1. [_generateId] always returns: it consumes one draw for each
    character and gives a string of the asked length over the sixty-two
    digits and letters; such a string of at least one character is a CSS
    identifier, as the selector of [_element] needs, exactly when its first
    draw is not one of the ten digits. *)
Theorem generateId_alphabet {T} (w : World T) (n : nat) :
  exists s,
    _generateId n w = Ok s (set_draws (draws w + n) w)
    /\ String.length s = n
    /\ all_chars is_base62 s = true
    /\ css_identifier s
       = match n with
         | 0 => false
         | S _ => negb (Math_random (host w) (draws w) mod 62 <? 10)%nat
         end.
Proof.
  exists (random_chars (Math_random (host w)) (draws w) n).
  split; [reflexivity|]. split; [apply random_chars_length|].
  split; [apply random_chars_base62|].
  destruct n as [|n]; [reflexivity|].
  unfold css_identifier.
  rewrite (proj2 (random_chars_base62 (Math_random (host w)) (S n) (draws w))).
  cbn [random_chars andb].
  destruct (base62_facts (Math_random (host w) (draws w))) as (_ & _ & H3 & H4).
  rewrite H3, H4.
  destruct (Math_random (host w) (draws w) mod 62 <? 10)%nat; reflexivity.
Qed.

(** ** What [init] leaves alone *)

Section Core.

Context {T : Type}.

Local Abbreviation calm := (@preserves T _ core_kept).

Lemma core_refl (w : World T) : core_kept w w.
Proof. split; [reflexivity|]. split; [reflexivity|]. intros l c H. exists c. auto. Qed.

Lemma core_trans (w1 w2 w3 : World T) :
  core_kept w1 w2 -> core_kept w2 w3 -> core_kept w1 w3.
Proof.
  intros (Hh1 & Hd1 & H1) (Hh2 & Hd2 & H2).
  split; [congruence|]. split; [congruence|].
  intros l c Hl. destruct (H1 l c Hl) as (c' & Hl' & Hid & Hcls & Hopt).
  destruct (H2 l c' Hl') as (c'' & Hl'' & Hid' & Hcls' & Hopt').
  exists c''. repeat split; congruence.
Qed.

Lemma calm_ret {A} (a : A) : calm (ret a).
Proof. apply preserves_ret, core_refl. Qed.

Lemma calm_throw {A} (e : Error) : calm (@throw T A e).
Proof. apply preserves_throw, core_refl. Qed.

Lemma calm_gets {A} (f : World T -> A) : calm (gets f).
Proof. apply preserves_gets, core_refl. Qed.

Lemma calm_getComp (this : loc) : calm (getComp this).
Proof. apply preserves_getComp, core_refl. Qed.

Lemma calm_bind {A B} (m : M T A) (k : A -> M T B) :
  calm m -> (forall a, calm (k a)) -> calm (bind m k).
Proof. apply preserves_bind, core_trans. Qed.

Lemma calm_forEach {A} (l : list A) (f : A -> M T unit) :
  (forall a, calm (f a)) -> calm (forEach l f).
Proof. apply preserves_forEach; [apply core_refl|apply core_trans]. Qed.

Lemma calm_mapM {A B} (f : A -> M T B) (l : list A) :
  (forall a, calm (f a)) -> calm (mapM f l).
Proof.
  intros Hf. apply preserves_mapM; [apply core_refl|apply core_trans|].
  apply Forall_forall. intros a _. apply Hf.
Qed.

Lemma calm_modifyComp (this : loc) (f : Comp T -> Comp T) :
  (forall c, id (f c) = id c /\ class (f c) = class c /\ options (f c) = options c) ->
  calm (modifyComp this f).
Proof.
  intros Hf w. unfold modifyComp.
  destruct (heap w !! this) as [[lit|c|fn]|] eqn:E; simpl; try apply core_refl.
  split; [reflexivity|]. split; [reflexivity|].
  intros l c0 Hl. simpl. destruct (Nat.eq_dec l this) as [Heq|Hne].
  - subst l. assert (c0 = c) by congruence. subst c0.
    exists (f c). rewrite list_lookup_insert_eq by (eapply lookup_lt_Some; exact E).
    destruct (Hf c) as (? & ? & ?). auto.
  - exists c0. rewrite list_lookup_insert_ne by congruence. auto.
Qed.

Lemma calm_alloc (o : JsObject T) : calm (alloc o).
Proof.
  intros w. split; [reflexivity|]. split; [reflexivity|]. intros l c Hl. simpl.
  exists c. rewrite lookup_app_l by (eapply lookup_lt_Some; exact Hl). auto.
Qed.

Lemma calm_set_parent (this : loc) (child : Arg) : calm (set_parent this child).
Proof.
  intros w. destruct child as [s|l]; simpl; [apply core_refl|].
  destruct (heap w !! l) as [[lit|c|fn]|] eqn:E; simpl; try apply core_refl.
  - split; [reflexivity|]. split; [reflexivity|]. intros l0 c0 Hl0. simpl.
    exists c0. rewrite list_lookup_insert_ne; [auto|]. congruence.
  - split; [reflexivity|]. split; [reflexivity|]. intros l0 c0 Hl0. simpl.
    destruct (Nat.eq_dec l0 l) as [Heq|Hne].
    + subst l0. assert (c0 = c) by congruence. subst c0.
      eexists. rewrite list_lookup_insert_eq by (eapply lookup_lt_Some; exact E).
      repeat split.
    + exists c0. rewrite list_lookup_insert_ne by congruence. auto.
Qed.

Lemma calm_generateId (n : nat) : calm (_generateId n).
Proof.
  intros w. split; [reflexivity|]. split; [reflexivity|].
  intros l c Hl. exists c. auto.
Qed.

Ltac calm_step :=
  first
    [ apply calm_bind; [|intro]
    | apply calm_forEach; intro
    | apply calm_mapM; intro
    | apply calm_modifyComp; intros ?; repeat split; reflexivity
    | apply calm_ret | apply calm_throw | apply calm_gets | apply calm_getComp
    | apply calm_alloc | apply calm_set_parent | apply calm_generateId
    | match goal with
      | |- preserves _ (match ?x with _ => _ end) => destruct x
      end
    | assumption ].

Ltac calm_all := repeat calm_step.

Lemma calm_compose (this : loc) (tag : string) (attrs : Obj Value)
    (cls : IClassNames) (args : list Arg) :
  calm (compose this tag attrs cls args).
Proof. unfold compose. calm_all. Qed.

Lemma calm_Comp_init (this : loc) : calm (Comp_init this).
Proof. unfold Comp_init. calm_all. Qed.

Lemma calm_register (this : loc) (ty : string) (f : loc) (cap : bool) :
  calm (register this ty f cap).
Proof. unfold register. calm_all. Qed.

Lemma calm_SystemComp_init (this : loc) : calm (SystemComp_init this).
Proof.
  unfold SystemComp_init.
  apply calm_bind; [apply calm_Comp_init|intros _].
  apply calm_bind; [apply calm_getComp|intros c].
  destruct (options c); try apply calm_throw.
  apply calm_bind; [apply calm_compose|intros _]. calm_all.
Qed.

Lemma calm_construct (init : loc -> M T unit) (cls : Class) (opts : Options T) :
  (forall l, calm (init l)) -> calm (construct init cls opts).
Proof.
  intros Hinit. unfold construct.
  apply calm_bind; [apply calm_generateId|intros i].
  apply calm_bind; [apply calm_alloc|intros this].
  apply calm_bind; [apply Hinit|intros _; apply calm_ret].
Qed.

Lemma calm_element (tag : string) (attrs : Obj Value) (cls : IClassNames)
    (args : list Arg) :
  calm (element tag attrs cls args).
Proof. apply calm_construct, calm_SystemComp_init. Qed.

Lemma calm_selfClosingElement (tag : string) (attrs : Obj Value) (cls : IClassNames) :
  calm (selfClosingElement tag attrs cls).
Proof. apply calm_construct, calm_SystemComp_init. Qed.

Lemma calm_build : forall e : Expr, calm (build e).
Proof.
  fix IH 1. intros e. destruct e as [s|l|s|t a c ch|t a c]; simpl.
  - apply calm_ret.
  - apply calm_ret.
  - apply calm_bind; [apply calm_alloc|intros l; apply calm_ret].
  - apply calm_bind.
    + apply preserves_mapM; [apply core_refl|apply core_trans|].
      induction ch as [|e ch IHch]; constructor; [apply IH|exact IHch].
    + intros args. apply calm_bind; [apply calm_element|intros l; apply calm_ret].
  - apply calm_bind; [apply calm_selfClosingElement|intros l; apply calm_ret].
Qed.

Lemma calm_UserComp_init (this : loc) : calm (UserComp_init this).
Proof. unfold UserComp_init. apply calm_bind; [apply calm_Comp_init|intros _]. calm_all. Qed.

Lemma calm_BuiltinComp_init (this : loc) : calm (BuiltinComp_init this).
Proof.
  unfold BuiltinComp_init. apply calm_bind; [apply calm_Comp_init|intros _]. calm_all.
Qed.

Lemma calm_set_attribute (this : loc) (key : string) (v : Value) :
  calm (set_attribute this key v).
Proof. unfold set_attribute. calm_all. Qed.

Lemma calm_push_child (this : loc) (child : Arg) : calm (push_child this child).
Proof. unfold push_child. calm_all. Qed.

Lemma calm_init (this : loc) : calm (init this).
Proof.
  unfold init. apply calm_bind; [apply calm_getComp|intros c].
  destruct (class c).
  - apply calm_Comp_init.
  - apply calm_SystemComp_init.
  - apply calm_UserComp_init.
  - apply calm_BuiltinComp_init.
  - unfold If_init.
    apply calm_bind; [apply calm_BuiltinComp_init|intros _].
    apply calm_bind; [apply calm_set_attribute|intros _].
    apply calm_bind; [apply calm_getComp|intros c'].
    destruct (options c'); try apply calm_throw. apply calm_push_child.
  - unfold For_init.
    apply calm_bind; [apply calm_BuiltinComp_init|intros _].
    apply calm_bind; [apply calm_set_attribute|intros _].
    apply calm_bind; [apply calm_getComp|intros c'].
    destruct (options c'); try apply calm_throw.
    apply calm_forEach. intros item.
    apply calm_bind; [apply calm_build|intros child; apply calm_push_child].
  - unfold Select_init.
    apply calm_bind; [apply calm_BuiltinComp_init|intros _].
    apply calm_bind; [apply calm_getComp|intros c'].
    apply calm_bind; [apply calm_gets|intros name].
    destruct (options c') as [| | | |data nm lm vm [|]| |]; try apply calm_throw.
    + apply calm_bind.
      * apply calm_mapM. intros entry.
        apply calm_bind; [apply calm_selfClosingElement|intros i].
        apply calm_bind; [apply calm_element|intros lb].
        apply calm_bind; [apply calm_element|intros d; apply calm_ret].
      * intros rows. apply calm_bind; [apply calm_compose|intros _; apply calm_ret].
    + apply calm_bind.
      * apply calm_mapM. intros item.
        apply calm_bind; [apply calm_element|intros o; apply calm_ret].
      * intros opts. apply calm_bind; [apply calm_compose|intros _; apply calm_ret].
  - unfold RouterPage_init.
    apply calm_bind; [apply calm_BuiltinComp_init|intros _; apply calm_set_attribute].
  - unfold RouterOutlet_init.
    apply calm_bind; [apply calm_BuiltinComp_init|intros _; apply calm_set_attribute].
  - unfold RouterLink_init.
    apply calm_bind; [apply calm_BuiltinComp_init|intros _; apply calm_set_attribute].
  - unfold Test_init.
    apply calm_bind; [apply calm_UserComp_init|intros _].
    apply calm_bind; [apply calm_getComp|intros c'].
    destruct (options c'); try apply calm_throw.
    apply calm_bind; [apply calm_element|intros t].
    apply calm_bind; [apply calm_element|intros d].
    apply calm_bind; [apply calm_compose|intros _; apply calm_ret].
  - unfold Rating_init.
    apply calm_bind; [apply calm_UserComp_init|intros _].
    apply calm_bind; [apply calm_getComp|intros c'].
    destruct (options c'); try apply calm_throw.
    apply calm_bind.
    + apply calm_mapM. intros i.
      apply calm_bind; [apply calm_element|intros l; apply calm_ret].
    + intros stars.
      apply calm_bind; [apply calm_compose|intros _].
      apply calm_bind; [apply calm_alloc|intros handler].
      apply calm_bind; [apply calm_register|intros _; apply calm_ret].
Qed.

End Core.

(** X2. No [init], of any class, touches the document or the host, and it
    leaves every component of the store in place with its identity, its
    class and its options: only shapes are recomputed (and objects added). *)
Theorem init_keeps_core {T} (w : World T) (this : loc) :
  host (final (init this w)) = host w
  /\ document (final (init this w)) = document w
  /\ forall l c, heap w !! l = Some (OComp c) ->
                 exists c', heap (final (init this w)) !! l = Some (OComp c')
                            /\ id c' = id c /\ class c' = class c
                            /\ options c' = options c.
Proof. exact (calm_init this w). Qed.

Lemma init_keeps_core_witness :
  heap (mounted_world (sample_comp CBuiltinComp "Ab" "p" None None [])) !! 0
  = Some (OComp (sample_comp CBuiltinComp "Ab" "p" None None []))
  /\ exists c',
       heap (final (init 0 (mounted_world (sample_comp CBuiltinComp "Ab" "p" None None [])))) !! 0
       = Some (OComp c')
       /\ id c' = "Ab" /\ class c' = CBuiltinComp /\ options c' = OptAny.
Proof.
  split; [reflexivity|].
  destruct (init_keeps_core (mounted_world (sample_comp CBuiltinComp "Ab" "p" None None [])) 0)
    as (_ & _ & H).
  exact (H 0 _ eq_refl).
Defined.

(** ** [update] without a live counterpart *)

Section UpdateFails.

Context {T : Type}.

Lemma update_split (this : loc) (patch : Patch T) (w : World T) :
  update this patch w
  = match assign_and_init this patch w with
    | Ok _ w1 => replace_and_bind this w1
    | Throw e w1 => Throw e w1
    end.
Proof.
  unfold update, assign_and_init, bind.
  destruct (modifyComp this _ w) as [[] w0|e w0]; [|reflexivity].
  destruct (init this w0) as [[] w1|e w1]; reflexivity.
Qed.

Lemma assign_and_init_core (this : loc) (patch : Patch T) (w : World T) (c : Comp T) :
  heap w !! this = Some (OComp c) ->
  document (final (assign_and_init this patch w)) = document w
  /\ exists c', heap (final (assign_and_init this patch w)) !! this = Some (OComp c')
                /\ id c' = id c
                /\ options c' = Object_assign (options c) patch.
Proof.
  intros H. unfold assign_and_init.
  rewrite final_bind, (modifyComp_put w this c _ H).
  destruct (calm_init this (put this (with_options (Object_assign (options c) patch) c) w))
    as (_ & Hdoc & Hcomps).
  split; [exact Hdoc|].
  destruct (Hcomps this _ (lookup_put w this c _ H)) as (c' & Hc' & Hid & _ & Hopt).
  exists c'. auto.
Qed.

End UpdateFails.

(** X3. Without a live counterpart, or with an identity that is no CSS
    identifier, [update] never returns: it throws (a TypeError, or the
    SyntaxError of the selector, once [init] has returned) and leaves the
    document as it was, but the options of the node are merged already. *)
Theorem update_without_counterpart {T} (w : World T) (this : loc) (c : Comp T)
    (patch : Patch T) :
  heap w !! this = Some (OComp c) ->
  css_identifier (id c) = false \/ find_compId (id c) (document w) = None ->
  returns (update this patch w) = false
  /\ document (final (update this patch w)) = document w
  /\ (exists c', heap (final (update this patch w)) !! this = Some (OComp c')
                 /\ id c' = id c
                 /\ options c' = Object_assign (options c) patch)
  /\ (forall w1, assign_and_init this patch w = Ok tt w1 ->
                 update this patch w
                 = Throw (if css_identifier (id c) then TypeError else SyntaxError) w1).
Proof.
  intros H Hno. rewrite update_split.
  destruct (assign_and_init_core this patch w c H) as (Hdoc & c' & Hc' & Hid & Hopt).
  destruct (assign_and_init this patch w) as [[] w1|e w1]; simpl in *.
  - assert (Hrun : replace_and_bind this w1
                   = Throw (if css_identifier (id c) then TypeError else SyntaxError) w1).
    { unfold replace_and_bind, bind. rewrite (element_run w1 this c' Hc'), Hid.
      destruct (css_identifier (id c)) eqn:Ecss; [|reflexivity].
      destruct Hno as [Hno|Hno]; [discriminate|].
      rewrite Hdoc, Hno. reflexivity. }
    rewrite Hrun. simpl. split; [reflexivity|]. split; [exact Hdoc|].
    split; [exists c'; auto|]. intros w1' Heq. inversion Heq. reflexivity.
  - split; [reflexivity|]. split; [exact Hdoc|]. split; [exists c'; auto|].
    intros w1' Heq. discriminate.
Qed.

Lemma update_without_counterpart_witness :
  heap digit_world !! 0 = Some (OComp (sample_comp CComp "4BIPWdkr" "div" None None []))
  /\ css_identifier "4BIPWdkr" = false
  /\ returns (update 0 PatchNone digit_world) = false
  /\ document (final (update 0 PatchNone digit_world)) = document digit_world.
Proof.
  split; [reflexivity|]. split; [reflexivity|].
  destruct (update_without_counterpart digit_world 0 _ PatchNone eq_refl
              (or_introl eq_refl)) as (H1 & H2 & _).
  split; [exact H1|exact H2].
Defined.

(** ** The edges of [_doRegistrations] *)

(** X4. [_doRegistrations] with nothing to register returns and changes
    nothing, mounted or not; with something to register it throws, and
    changes nothing, when the selector is refused or finds no element. *)
Theorem doRegistrations_edges {T} (w : World T) (this : loc) (c : Comp T) :
  heap w !! this = Some (OComp c) ->
  (registrations c = [] -> _doRegistrations this w = Ok tt w)
  /\ (registrations c <> [] -> css_identifier (id c) = false ->
      _doRegistrations this w = Throw SyntaxError w)
  /\ (registrations c <> [] -> css_identifier (id c) = true ->
      find_compId (id c) (document w) = None ->
      _doRegistrations this w = Throw TypeError w).
Proof.
  intros H. unfold _doRegistrations. rewrite (bind_getComp w this c _ H).
  split; [intros ->; reflexivity|].
  split.
  - intros Hne Hcss. destruct (registrations c) as [|r regs]; [congruence|].
    cbn [forEach]. unfold bind. rewrite (element_run w this c H), Hcss. reflexivity.
  - intros Hne Hcss Hfind. destruct (registrations c) as [|r regs]; [congruence|].
    cbn [forEach]. unfold bind. rewrite (element_run w this c H), Hcss, Hfind.
    reflexivity.
Qed.

Lemma doRegistrations_edges_witness :
  heap unmounted_world !! 0
  = Some (OComp (with_registrations [click_listener]
                   (sample_comp CComp "Ab" "div" None None [])))
  /\ _doRegistrations 0 unmounted_world = Throw TypeError unmounted_world.
Proof.
  split; [reflexivity|].
  destruct (doRegistrations_edges unmounted_world 0 _ eq_refl) as (_ & _ & H).
  apply H; [discriminate|reflexivity|reflexivity].
Defined.

(** ** [renderTo] *)





(** ** [appendChild] *)

(** X6. [appendChild] on a child that is an object of the store returns the
    node, puts the child after the children there were, sets the [parent]
    of the child to the node and leaves the other fields of the node as they
    were; the node may be its own child. On a child that is no object it
    throws and appends nothing. *)
Theorem appendChild_effect {T} (w : World T) (this child : loc) (c : Comp T) :
  heap w !! this = Some (OComp c) ->
  (is_IComp w (ANode child) ->
   exists w' c',
     appendChild this child w = Ok this w'
     /\ heap w' !! this = Some (OComp c')
     /\ children c' = (children c ++ [ANode child])%list
     /\ with_parent None c'
        = with_parent None (with_children (children c ++ [ANode child])%list c)
     /\ parent_of w' child = Some (Some this))
  /\ (heap w !! child = None -> appendChild this child w = Throw TypeError w).
Proof.
  intros H. split.
  - intros Hchild. unfold appendChild.
    destruct (set_parent_IComp this w child Hchild) as (w1 & Hrun & Hrel & Hpar).
    destruct (comp_kept this w w1 this c Hrel H) as (c1 & Hc1 & Heq).
    unfold bind at 1. rewrite Hrun.
    rewrite (bind_modifyComp w1 this c1 _ _ Hc1).
    assert (Hch : children c1 = children c).
    { change (children (with_parent None c1) = children c). rewrite Heq. reflexivity. }
    eexists. eexists. split; [reflexivity|].
    split; [eapply lookup_put; exact Hc1|].
    split; [cbn [children with_children]; rewrite Hch; reflexivity|].
    split.
    + rewrite Hch.
      change (with_children (children c ++ [ANode child])%list (with_parent None c1)
              = with_children (children c ++ [ANode child])%list (with_parent None c)).
      rewrite Heq. reflexivity.
    + unfold parent_of in *. destruct (Nat.eq_dec child this) as [->|Hne].
      * rewrite (lookup_put w1 this c1 _ Hc1). rewrite Hc1 in Hpar. exact Hpar.
      * rewrite lookup_put_ne by exact Hne. exact Hpar.
  - intros Hnone. unfold appendChild, bind. simpl. rewrite Hnone. reflexivity.
Qed.

Lemma appendChild_effect_witness :
  heap (mounted_world (sample_comp CComp "Ab" "div" None None [ANode 1])) !! 0
  = Some (OComp (sample_comp CComp "Ab" "div" None None [ANode 1]))
  /\ is_IComp (mounted_world (sample_comp CComp "Ab" "div" None None [ANode 1])) (ANode 1)
  /\ exists w' c',
       appendChild 0 1 (mounted_world (sample_comp CComp "Ab" "div" None None [ANode 1]))
       = Ok 0 w'
       /\ heap w' !! 0 = Some (OComp c')
       /\ children c' = [ANode 1; ANode 1]
       /\ parent_of w' 1 = Some (Some 0).
Proof.
  assert (Hchild : is_IComp (mounted_world (sample_comp CComp "Ab" "div" None None [ANode 1]))
                     (ANode 1)) by (exists None; reflexivity).
  split; [reflexivity|]. split; [exact Hchild|].
  destruct (appendChild_effect
              (mounted_world (sample_comp CComp "Ab" "div" None None [ANode 1])) 0 1 _
              eq_refl) as [H _].
  destruct (H Hchild) as (w' & c' & Hrun & Hc' & Hch & _ & Hpar).
  exists w', c'. repeat split; assumption.
Defined.

(** ** Serialization of cycles and of literals *)

Lemma collect_stuck {A} (f : A -> Error + string) (l : list A) (a : A) :
  In a l -> (forall s, f a <> inr s) -> forall ss, collect (map f l) <> inr ss.
Proof.
  induction l as [|x l IH]; intros Hin Hstuck ss; [contradiction|].
  simpl. destruct Hin as [->|Hin].
  - destruct (f a) as [e|s] eqn:E; [discriminate|]. exfalso. apply (Hstuck s eq_refl).
  - destruct (f x) as [e|s]; [discriminate|].
    destruct (collect (map f l)) as [e|ss'] eqn:E; [discriminate|].
    exfalso. apply (IH Hin Hstuck ss'). reflexivity.
Qed.

(** X7. A node in the normal mode without text content that is among its
    own children, as [appendChild] lets it be, has no markup: [_toHtml]
    fails at every depth of the stack. *)
Theorem self_child_never_serializes {T} (h : list (JsObject T)) (l : loc) (c : Comp T) :
  h !! l = Some (OComp c) ->
  renderMode c = Some normal \/ renderMode c = None ->
  truthy_content (content c) = None ->
  In (ANode l) (children c) ->
  forall d s, _toHtml d h (ANode l) <> inr s.
Proof.
  intros H Hmode Hcontent Hin d. induction d as [|d IH]; intros s; [discriminate|].
  rewrite (toHtml_normal h l c d H Hmode). unfold inner_markup. rewrite Hcontent.
  destruct (collect (map (_toHtml d h) (children c))) as [e|parts] eqn:E; [discriminate|].
  exfalso. exact (collect_stuck (_toHtml d h) (children c) (ANode l) Hin IH parts E).
Qed.

Lemma self_child_never_serializes_witness :
  returns (appendChild 0 0 (mounted_world (sample_comp CComp "Ab" "div" None None [])))
  = true
  /\ heap self_child_world !! 0
     = Some (OComp (with_parent (Some 0)
                      (sample_comp CComp "Ab" "div" None None [ANode 0])))
  /\ forall d s, _toHtml d (heap self_child_world) (ANode 0) <> inr s.
Proof.
  split; [reflexivity|]. split; [reflexivity|].
  apply (self_child_never_serializes (heap self_child_world) 0 _ eq_refl
           (or_intror eq_refl) eq_refl).
  left. reflexivity.
Defined.

Lemma collect_literals {T} (h : list (JsObject T)) (d : nat) (args : list Arg)
    (texts : list string) :
  Forall2 (literal_at h) args texts ->
  collect (map (_toHtml (S d) h) args) = inr texts.
Proof.
  induction 1 as [|a t args texts Ha _ IH]; [reflexivity|].
  destruct a as [s|l]; [contradiction|]. destruct Ha as [p Hl].
  cbn [map collect]. rewrite toHtml_step, Hl. cbn [literal]. rewrite IH. reflexivity.
Qed.

(** X8. A node in the normal mode without text content whose children are
    literals is written around their texts, verbatim and in order, no
    identity being written for them. *)
Theorem literal_children_markup {T} (h : list (JsObject T)) (l : loc) (c : Comp T)
    (texts : list string) (d : nat) :
  h !! l = Some (OComp c) ->
  renderMode c = Some normal \/ renderMode c = None ->
  truthy_content (content c) = None ->
  Forall2 (literal_at h) (children c) texts ->
  _toHtml (S (S d)) h (ANode l)
  = inr (spec_normal_markup (tagName c) (id c) (classNames c) (_attr (attributes c))
           (join "" texts)).
Proof.
  intros H Hmode Hcontent Hall.
  rewrite (toHtml_normal h l c (S d) H Hmode). unfold inner_markup.
  rewrite Hcontent, (collect_literals h d (children c) texts Hall). reflexivity.
Qed.

Lemma literal_children_markup_witness :
  heap breaks_world !! 2 = Some (OComp breaks_node)
  /\ Forall2 (literal_at (heap breaks_world)) (children breaks_node) ["<br>"; "<hr>"]
  /\ _toHtml 2 (heap breaks_world) (ANode 2)
     = inr (spec_normal_markup "p" "AHOVcjqx" [] "" "<br><hr>").
Proof.
  assert (Hall : Forall2 (literal_at (heap breaks_world)) (children breaks_node)
                   ["<br>"; "<hr>"]).
  { repeat constructor; exists (Some 2); reflexivity. }
  split; [vm_compute; reflexivity|]. split; [exact Hall|].
  exact (literal_children_markup (heap breaks_world) 2 breaks_node ["<br>"; "<hr>"] 0
           eq_refl (or_intror eq_refl) eq_refl Hall).
Defined.

(** ** The tag factories *)

Section Factories.

Context {T : Type}.

Lemma lookup_grown (w : World T) (o : JsObject T) :
  heap (grown o w) !! length (heap w) = Some o.
Proof.
  unfold grown. cbn [heap set_heap]. rewrite lookup_app_r by reflexivity.
  rewrite Nat.sub_diag. reflexivity.
Qed.

Lemma put_grown (w : World T) (c c' : Comp T) :
  put (length (heap w)) c' (grown (OComp c) w) = grown (OComp c') w.
Proof.
  unfold put, grown, set_heap. cbn [heap host draws document]. f_equal.
  rewrite insert_app_r_alt by reflexivity. rewrite Nat.sub_diag. reflexivity.
Qed.

Lemma is_IComp_grown (w : World T) (o : JsObject T) (a : Arg) :
  is_IComp w a -> is_IComp (grown o w) a.
Proof.
  destruct a as [s|l]; simpl; [tauto|]. intros [p Hp]. exists p.
  unfold parent_of in *. cbn [heap grown set_heap].
  destruct (heap w !! l) as [o'|] eqn:E; [|discriminate].
  rewrite lookup_app_l by (eapply lookup_lt_Some; exact E). rewrite E. exact Hp.
Qed.

(** [new SystemComp(options)], up to the call of [init]. *)
Lemma construct_run (init : loc -> M T unit) (cls : Class) (opts : Options T)
    (w : World T) :
  construct init cls opts w
  = bind (init (length (heap w))) (fun _ => ret (length (heap w)))
      (grown (OComp {| class := cls;
                       id := random_chars (Math_random (host w)) (draws w) 8;
                       options := opts; tagName := ""; attributes := [];
                       classNames := []; children := []; content := None;
                       parent := None; registrations := []; renderMode := None |})
         (set_draws (draws w + 8) w)).
Proof. reflexivity. Qed.

(** [SystemComp.init] on a fresh object, after the base reset. *)
Lemma SystemComp_init_fresh (w : World T) (c0 : Comp T) (o : IHtmlOptions) :
  options c0 = OptHtml o ->
  SystemComp_init (length (heap w)) (grown (OComp c0) w)
  = bind (compose (length (heap w)) (o_tagName o) (o_attributes o) (o_classNames o)
            (o_children o))
      (fun _ => if truthy_mode (o_renderMode o)
                then modifyComp (length (heap w)) (with_renderMode (o_renderMode o))
                else ret tt)
      (grown (OComp (with_registrations [] (with_children [] (with_classNames []
                       (with_attributes [] (with_tagName "div" c0)))))) w).
Proof.
  intros Hopts. unfold SystemComp_init. unfold bind at 1.
  rewrite (Comp_init_put _ _ c0 (lookup_grown w (OComp c0))), put_grown.
  rewrite (bind_getComp _ _ _ _ (lookup_grown w _)).
  cbn [options with_registrations with_children with_classNames with_attributes
       with_tagName]. rewrite Hopts. reflexivity.
Qed.

End Factories.

Lemma element_text_run {T} (w : World T) (tag : string) (attrs : Obj Value)
    (cls : IClassNames) (s : string) :
  element tag attrs cls [AText s] w
  = Ok (length (heap w))
      (grown (OComp (text_node w (draws w) None tag attrs cls s))
         (set_draws (draws w + 8) w)).
Proof.
  unfold element. rewrite construct_run. unfold bind at 1.
  change (length (heap w)) with (length (heap (set_draws (draws w + 8) w))).
  erewrite SystemComp_init_fresh by reflexivity.
  cbn [o_tagName o_attributes o_classNames o_children o_renderMode truthy_mode
       TagRenderMode_value Nat.eqb negb].
  unfold bind at 1.
  rewrite (compose_prefix _ _ _ _ _ _ _ (lookup_grown _ _)), put_grown.
  rewrite (bind_modifyComp _ _ _ _ _ (lookup_grown _ _)), put_grown.
  reflexivity.
Qed.

(** X9. [element] with one argument of plain text returns a new node at the
    next location, after eight draws: its tag, attributes and class names
    are the arguments (the class names normalised), the text is its
    content, it has no children, no parent and no registration, and its
    render mode is left undefined, the [normal] of the options being falsy.
    Nothing else changes. *)
Theorem element_with_text {T} (w : World T) (tag : string) (attrs : Obj Value)
    (cls : IClassNames) (s : string) :
  element tag attrs cls [AText s] w
  = Ok (length (heap w))
      (grown
         (OComp {| class := CSystemComp;
                   id := random_chars (Math_random (host w)) (draws w) 8;
                   options := OptHtml {| o_tagName := tag; o_attributes := attrs;
                                         o_classNames := cls; o_children := [AText s];
                                         o_renderMode := Some normal |};
                   tagName := tag; attributes := attrs;
                   classNames := normalizeClassNames cls;
                   children := []; content := Some s; parent := None;
                   registrations := []; renderMode := None |})
         (set_draws (draws w + 8) w)).
Proof. exact (element_text_run w tag attrs cls s). Qed.

(** X10. [selfClosingElement] returns a new node at the next location with
    the arguments as tag, attributes and class names, no children, no
    content, and the self-closing mode; with room on the stack the node is
    written as the self-terminating tag that carries its identity. *)
Theorem selfClosingElement_node {T} (w : World T) (tag : string) (attrs : Obj Value)
    (cls : IClassNames) :
  selfClosingElement tag attrs cls w
  = Ok (length (heap w))
      (grown
         (OComp {| class := CSystemComp;
                   id := random_chars (Math_random (host w)) (draws w) 8;
                   options := OptHtml {| o_tagName := tag; o_attributes := attrs;
                                         o_classNames := cls; o_children := [];
                                         o_renderMode := Some selfClosing |};
                   tagName := tag; attributes := attrs;
                   classNames := normalizeClassNames cls;
                   children := []; content := None; parent := None;
                   registrations := []; renderMode := Some selfClosing |})
         (set_draws (draws w + 8) w))
  /\ forall d,
       _toHtml (S d) (heap (final (selfClosingElement tag attrs cls w)))
         (ANode (length (heap w)))
       = inr (spec_selfClosing_markup tag
                (random_chars (Math_random (host w)) (draws w) 8)
                (normalizeClassNames cls) (_attr attrs)).
Proof.
  assert (Hrun : selfClosingElement tag attrs cls w
    = Ok (length (heap w))
      (grown
         (OComp {| class := CSystemComp;
                   id := random_chars (Math_random (host w)) (draws w) 8;
                   options := OptHtml {| o_tagName := tag; o_attributes := attrs;
                                         o_classNames := cls; o_children := [];
                                         o_renderMode := Some selfClosing |};
                   tagName := tag; attributes := attrs;
                   classNames := normalizeClassNames cls;
                   children := []; content := None; parent := None;
                   registrations := []; renderMode := Some selfClosing |})
         (set_draws (draws w + 8) w))).
  { unfold selfClosingElement. rewrite construct_run. unfold bind at 1.
    change (length (heap w)) with (length (heap (set_draws (draws w + 8) w))).
    erewrite SystemComp_init_fresh by reflexivity.
    cbn [o_tagName o_attributes o_classNames o_children o_renderMode truthy_mode
         TagRenderMode_value Nat.eqb negb].
    unfold bind at 1.
    rewrite (compose_prefix _ _ _ _ _ _ _ (lookup_grown _ _)), put_grown.
    unfold bind at 1. unfold bind at 1.
    rewrite (modifyComp_put _ _ _ _ (lookup_grown _ _)), put_grown.
    cbn [forEach ret].
    rewrite (modifyComp_put _ _ _ _ (lookup_grown _ _)), put_grown.
    reflexivity. }
  split; [exact Hrun|]. intros d. rewrite Hrun. cbn [final].
  change (length (heap w)) with (length (heap (set_draws (draws w + 8) w))).
  rewrite toHtml_step, lookup_grown. cbn [renderMode].
  rewrite openTag_selfClosing. reflexivity.
Qed.

Lemma nodes_not_text {T} (w : World T) (args : list Arg) :
  Forall (is_IComp w) args -> forall s, args <> [AText s].
Proof.
  intros Hall s ->. inversion Hall as [|? ? Ha _]; subst. exact Ha.
Qed.

(** X11. [element] with arguments that are objects of the store returns a new
    node at the next location whose children are the arguments as given,
    without content, with the tag, attributes and normalised class names of
    the call and an undefined render mode; the [parent] of every argument
    is the new node, and the document is untouched. *)
Theorem element_with_nodes {T} (w : World T) (tag : string) (attrs : Obj Value)
    (cls : IClassNames) (args : list Arg) :
  Forall (is_IComp w) args ->
  exists w' c',
    element tag attrs cls args w = Ok (length (heap w)) w'
    /\ heap w' !! length (heap w) = Some (OComp c')
    /\ with_parent None c'
       = {| class := CSystemComp;
            id := random_chars (Math_random (host w)) (draws w) 8;
            options := OptHtml {| o_tagName := tag; o_attributes := attrs;
                                  o_classNames := cls; o_children := args;
                                  o_renderMode := Some normal |};
            tagName := tag; attributes := attrs;
            classNames := normalizeClassNames cls;
            children := args; content := None; parent := None;
            registrations := []; renderMode := None |}
    /\ (forall l, In (ANode l) args -> parent_of w' l = Some (Some (length (heap w))))
    /\ document w' = document w /\ draws w' = draws w + 8 /\ host w' = host w.
Proof.
  intros Hall. unfold element. rewrite construct_run. unfold bind at 1.
  change (length (heap w)) with (length (heap (set_draws (draws w + 8) w))).
  erewrite SystemComp_init_fresh by reflexivity.
  cbn [o_tagName o_attributes o_classNames o_children o_renderMode truthy_mode
       TagRenderMode_value Nat.eqb negb].
  unfold bind at 1.
  rewrite (compose_prefix _ _ _ _ _ _ _ (lookup_grown _ _)), put_grown.
  rewrite (compose_branch args _ _ (nodes_not_text w args Hall)).
  unfold bind at 1. rewrite (bind_modifyComp _ _ _ _ _ (lookup_grown _ _)), put_grown.
  match goal with
  | |- context [forEach args _ (grown (OComp ?c4) ?w1)] =>
      destruct (set_parents_IComp (length (heap w1)) args (grown (OComp c4) w1))
        as (w' & Hrun & Hrel & Hparents);
      [eapply Forall_impl; [exact Hall|]; intros a Ha;
       apply is_IComp_grown; exact Ha|];
      destruct (comp_kept _ _ _ _ _ Hrel (lookup_grown w1 (OComp c4)))
        as (c' & Hc' & Heq)
  end.
  rewrite Hrun. cbn [ret].
  exists w', c'. split; [reflexivity|]. split; [exact Hc'|].
  split; [rewrite Heq; reflexivity|]. split; [exact Hparents|].
  destruct Hrel as (Hhost & Hdraws & Hdoc & _).
  rewrite Hhost, Hdraws, Hdoc. repeat split.
Qed.

Lemma element_with_nodes_witness :
  Forall (is_IComp (mounted_world (sample_comp CComp "Ab" "div" None None [])))
    [ANode 1; ANode 0]
  /\ exists w' c',
       element "ul" [] (ClassString "x y") [ANode 1; ANode 0]
         (mounted_world (sample_comp CComp "Ab" "div" None None []))
       = Ok 2 w'
       /\ heap w' !! 2 = Some (OComp c')
       /\ children (with_parent None c') = [ANode 1; ANode 0]
       /\ parent_of w' 0 = Some (Some 2).
Proof.
  assert (Hall : Forall (is_IComp (mounted_world (sample_comp CComp "Ab" "div" None None [])))
                   [ANode 1; ANode 0]).
  { repeat constructor; exists None; reflexivity. }
  split; [exact Hall|].
  destruct (element_with_nodes
              (mounted_world (sample_comp CComp "Ab" "div" None None []))
              "ul" [] (ClassString "x y") [ANode 1; ANode 0] Hall)
    as (w' & c' & Hrun & Hc' & Heq & Hpar & _).
  exists w', c'. split; [exact Hrun|]. split; [exact Hc'|].
  split; [rewrite Heq; reflexivity|]. apply Hpar. right. left. reflexivity.
Defined.

(** ** The [init] of the classes that create no object *)

Section PlainInit.

Context {T : Type}.
Variable this : loc.

Lemma UserComp_init_put (w : World T) (c : Comp T) :
  heap w !! this = Some (OComp c) ->
  UserComp_init this w = Ok tt (put this (div_shape [] [] c) w).
Proof.
  intros H. unfold UserComp_init. unfold bind at 1.
  rewrite (Comp_init_put w this c H).
  erewrite bind_modifyComp by (eapply lookup_put; exact H).
  erewrite modifyComp_put by (eapply lookup_put; eapply lookup_put; exact H).
  repeat rewrite put_put. reflexivity.
Qed.

Lemma marked_init_put (key : string) (w : World T) (c : Comp T) {B}
    (k : unit -> M T B) :
  heap w !! this = Some (OComp c) ->
  bind (BuiltinComp_init this) (fun _ => bind (set_attribute this key VNull) k) w
  = k tt (put this (div_shape [(key, VNull)] [] c) w).
Proof.
  intros H. unfold bind at 1. rewrite (BuiltinComp_init_put this w c H).
  unfold set_attribute.
  erewrite bind_modifyComp by (eapply lookup_put; exact H).
  rewrite put_put. reflexivity.
Qed.

Lemma Router_init_put (key : string) (w : World T) (c : Comp T) :
  heap w !! this = Some (OComp c) ->
  bind (BuiltinComp_init this) (fun _ => set_attribute this key VNull) w
  = Ok tt (put this (div_shape [(key, VNull)] [] c) w).
Proof.
  intros H. unfold bind at 1. rewrite (BuiltinComp_init_put this w c H).
  unfold set_attribute.
  erewrite modifyComp_put by (eapply lookup_put; exact H).
  rewrite put_put. reflexivity.
Qed.

Lemma If_init_put (w : World T) (c : Comp T) :
  heap w !! this = Some (OComp c) ->
  If_init this w
  = match options c with
    | OptIf cond thenComp elseComp =>
        Ok tt (put this
                 (div_shape [("comp-if", VNull)]
                    [ANode (if cond then thenComp else elseComp)] c) w)
    | _ => Throw TypeError (put this (div_shape [("comp-if", VNull)] [] c) w)
    end.
Proof.
  intros H. unfold If_init. rewrite (marked_init_put "comp-if" w c _ H).
  erewrite bind_getComp by (eapply lookup_put; exact H).
  change (options (div_shape [("comp-if", VNull)] [] c)) with (options c).
  destruct (options c); try reflexivity.
  unfold push_child. erewrite modifyComp_put by (eapply lookup_put; exact H).
  rewrite put_put. reflexivity.
Qed.

Lemma init_dispatch (w : World T) (c : Comp T) :
  heap w !! this = Some (OComp c) ->
  init this w
  = match class c with
    | CComp => Comp_init this
    | CSystemComp => SystemComp_init this
    | CUserComp => UserComp_init this
    | CBuiltinComp => BuiltinComp_init this
    | CIf => If_init this
    | CFor => For_init this
    | CSelect => Select_init this
    | CRouterPage => RouterPage_init this
    | CRouterOutlet => RouterOutlet_init this
    | CRouterLink => RouterLink_init this
    | CTest => Test_init this
    | CRating => Rating_init this
    end w.
Proof. intros H. unfold init. rewrite (bind_getComp w this c _ H). reflexivity. Qed.

End PlainInit.

(** X12. [If.init] on a node with the options of the class leaves the node
    as a [div] in the normal mode with the bare attribute [comp-if], no
    class name, no registration and one child, the [then] branch or the
    [else] branch by the condition; nothing else in the world changes, so
    the [parent] of the branch is not set. *)
Theorem If_init_chooses_branch {T} (w : World T) (this : loc) (c : Comp T)
    (cond : bool) (thenComp elseComp : loc) :
  heap w !! this = Some (OComp c) ->
  options c = OptIf cond thenComp elseComp ->
  If_init this w
  = Ok tt (put this
             {| class := class c; id := id c; options := options c;
                tagName := "div"; attributes := [("comp-if", VNull)];
                classNames := [];
                children := [ANode (if cond then thenComp else elseComp)];
                content := content c; parent := parent c;
                registrations := []; renderMode := Some normal |} w).
Proof.
  intros H Hopts. rewrite (If_init_put this w c H).
  destruct (options c) eqn:E; try discriminate.
  injection Hopts as -> -> ->. unfold div_shape. rewrite E. reflexivity.
Qed.

Lemma If_init_chooses_branch_witness :
  heap (mounted_world (with_options (OptIf false 0 1)
                         (sample_comp CIf "Ab" "p" None None []))) !! 0
  = Some (OComp (with_options (OptIf false 0 1) (sample_comp CIf "Ab" "p" None None [])))
  /\ option_map children
       (comp_at (final (If_init 0
                          (mounted_world (with_options (OptIf false 0 1)
                                            (sample_comp CIf "Ab" "p" None None []))))) 0)
     = Some [ANode 1]
  /\ parent_of (final (If_init 0
                         (mounted_world (with_options (OptIf false 0 1)
                                           (sample_comp CIf "Ab" "p" None None []))))) 1
     = Some None.
Proof.
  split; [reflexivity|].
  rewrite (If_init_chooses_branch
             (mounted_world (with_options (OptIf false 0 1)
                               (sample_comp CIf "Ab" "p" None None []))) 0 _ false 0 1
             eq_refl eq_refl).
  split; reflexivity.
Defined.

(** X13. The [init] of the classes that create no object ([Comp], [UserComp],
    [BuiltinComp], [If] and the three router classes) is idempotent: run
    twice in a row it leaves the world that one run leaves, with the same
    outcome. *)
Theorem plain_init_idempotent {T} (w : World T) (this : loc) (c : Comp T) :
  heap w !! this = Some (OComp c) ->
  plain_class (class c) = true ->
  bind (init this) (fun _ => init this) w = init this w.
Proof.
  intros H Hplain. unfold bind. rewrite (init_dispatch this w c H).
  destruct (class c) eqn:Ecls; try discriminate.
  - rewrite (Comp_init_put w this c H).
    erewrite init_dispatch by (eapply lookup_put; exact H).
    cbn [class with_registrations with_children with_classNames with_attributes
         with_tagName]. rewrite Ecls.
    erewrite Comp_init_put by (eapply lookup_put; exact H).
    rewrite put_put. reflexivity.
  - rewrite (UserComp_init_put this w c H).
    erewrite init_dispatch by (eapply lookup_put; exact H).
    cbn [class div_shape]. rewrite Ecls.
    erewrite UserComp_init_put by (eapply lookup_put; exact H).
    rewrite put_put. reflexivity.
  - rewrite (BuiltinComp_init_put this w c H).
    erewrite init_dispatch by (eapply lookup_put; exact H).
    cbn [class with_registrations with_children with_classNames with_attributes
         with_tagName with_renderMode]. rewrite Ecls.
    erewrite BuiltinComp_init_put by (eapply lookup_put; exact H).
    rewrite put_put. reflexivity.
  - rewrite (If_init_put this w c H).
    destruct (options c) eqn:Eopt; try reflexivity.
    erewrite init_dispatch by (eapply lookup_put; exact H).
    cbn [class div_shape]. rewrite Ecls.
    erewrite If_init_put by (eapply lookup_put; exact H).
    cbn [options div_shape]. rewrite Eopt, put_put. reflexivity.
  - unfold RouterPage_init. rewrite (Router_init_put this _ w c H).
    erewrite init_dispatch by (eapply lookup_put; exact H).
    cbn [class div_shape]. rewrite Ecls.
    unfold RouterPage_init. erewrite Router_init_put by (eapply lookup_put; exact H).
    rewrite put_put. reflexivity.
  - unfold RouterOutlet_init. rewrite (Router_init_put this _ w c H).
    erewrite init_dispatch by (eapply lookup_put; exact H).
    cbn [class div_shape]. rewrite Ecls.
    unfold RouterOutlet_init. erewrite Router_init_put by (eapply lookup_put; exact H).
    rewrite put_put. reflexivity.
  - unfold RouterLink_init. rewrite (Router_init_put this _ w c H).
    erewrite init_dispatch by (eapply lookup_put; exact H).
    cbn [class div_shape]. rewrite Ecls.
    unfold RouterLink_init. erewrite Router_init_put by (eapply lookup_put; exact H).
    rewrite put_put. reflexivity.
Qed.

Lemma plain_init_idempotent_witness :
  heap (mounted_world (sample_comp CRouterLink "Ab" "p" None (Some "x") [ANode 1])) !! 0
  = Some (OComp (sample_comp CRouterLink "Ab" "p" None (Some "x") [ANode 1]))
  /\ bind (init 0) (fun _ => init 0)
       (mounted_world (sample_comp CRouterLink "Ab" "p" None (Some "x") [ANode 1]))
     = init 0 (mounted_world (sample_comp CRouterLink "Ab" "p" None (Some "x") [ANode 1])).
Proof.
  split; [reflexivity|].
  apply (plain_init_idempotent
           (mounted_world (sample_comp CRouterLink "Ab" "p" None (Some "x") [ANode 1]))
           0 _ eq_refl eq_refl).
Defined.

(** ** Runs that create objects *)

Section Shape.

Context {T : Type}.
Variable w0 : World T.
Variable this : loc.
Hypothesis Hthis : this < length (heap w0).

Local Abbreviation N := (length (heap w0)).
Local Abbreviation sh := (shape w0 this).

Lemma bind_ret {A B} (a : A) (k : A -> M T B) (w : World T) : bind (ret a) k w = k a w.
Proof. reflexivity. Qed.

Lemma bind_assoc {A B C} (m : M T A) (k1 : A -> M T B) (k2 : B -> M T C) (w : World T) :
  bind (bind m k1) k2 w = bind m (fun a => bind (k1 a) k2) w.
Proof. unfold bind. destruct (m w); reflexivity. Qed.

Lemma length_base (c : Comp T) : length (<[this := OComp c]> (heap w0)) = N.
Proof. apply length_insert. Qed.

Lemma lookup_shape_this (c : Comp T) ext d : heap (sh c ext d) !! this = Some (OComp c).
Proof.
  unfold shape. cbn [heap]. rewrite lookup_app_l by (rewrite length_base; exact Hthis).
  apply list_lookup_insert_eq. exact Hthis.
Qed.

Lemma lookup_shape_ext (c : Comp T) ext d i : heap (sh c ext d) !! (N + i) = ext !! i.
Proof.
  unfold shape. cbn [heap]. rewrite lookup_app_r by (rewrite length_base; lia).
  rewrite length_base. f_equal. lia.
Qed.

Lemma put_shape (c c' : Comp T) ext d : put this c' (sh c ext d) = sh c' ext d.
Proof.
  unfold put, shape, set_heap. cbn [heap host draws document]. f_equal.
  rewrite insert_app_l by (rewrite length_base; exact Hthis).
  rewrite list_insert_insert_eq. reflexivity.
Qed.

Lemma insert_shape_ext (c : Comp T) ext d i o :
  set_heap (<[N + i := o]> (heap (sh c ext d))) (sh c ext d) = sh c (<[i := o]> ext) d.
Proof.
  unfold shape, set_heap. cbn [heap host draws document]. f_equal.
  rewrite insert_app_r_alt by (rewrite length_base; lia).
  rewrite length_base. do 2 f_equal. lia.
Qed.

Lemma bind_getComp_this {B} (k : Comp T -> M T B) (c : Comp T) ext d :
  bind (getComp this) k (sh c ext d) = k c (sh c ext d).
Proof. apply bind_getComp, lookup_shape_this. Qed.

Lemma bind_modifyComp_this {B} (f : Comp T -> Comp T) (k : unit -> M T B) (c : Comp T)
    ext d :
  bind (modifyComp this f) k (sh c ext d) = k tt (sh (f c) ext d).
Proof.
  rewrite (bind_modifyComp _ _ _ _ _ (lookup_shape_this c ext d)), put_shape. reflexivity.
Qed.

Lemma bind_alloc_shape {B} (o : JsObject T) (k : loc -> M T B) (c : Comp T) ext d :
  bind (alloc o) k (sh c ext d) = k (N + length ext) (sh c (ext ++ [o])%list d).
Proof.
  unfold bind, alloc, shape, set_heap. cbn [heap host draws document].
  rewrite length_app, length_base, app_assoc. reflexivity.
Qed.

Lemma bind_generateId_shape {B} (n : nat) (k : string -> M T B) (c : Comp T) ext d :
  bind (_generateId n) k (sh c ext d)
  = k (random_chars (Math_random (host w0)) d n) (sh c ext (d + n)).
Proof. reflexivity. Qed.

Lemma bind_gets_shape {A B} (f : World T -> A) (k : A -> M T B) (c : Comp T) ext d :
  bind (gets f) k (sh c ext d) = k (f (sh c ext d)) (sh c ext d).
Proof. reflexivity. Qed.

Lemma bind_getComp_ext {B} (k : Comp T -> M T B) (c s : Comp T) ext d i :
  ext !! i = Some (OComp s) ->
  bind (getComp (N + i)) k (sh c ext d) = k s (sh c ext d).
Proof. intros H. apply bind_getComp. rewrite lookup_shape_ext. exact H. Qed.

Lemma bind_modifyComp_ext {B} (f : Comp T -> Comp T) (k : unit -> M T B) (c s : Comp T)
    ext d i :
  ext !! i = Some (OComp s) ->
  bind (modifyComp (N + i) f) k (sh c ext d) = k tt (sh c (<[i := OComp (f s)]> ext) d).
Proof.
  intros H. unfold bind, modifyComp. rewrite lookup_shape_ext, H, insert_shape_ext.
  reflexivity.
Qed.

Lemma bind_set_parent_ext {B} (p : loc) (k : unit -> M T B) (c : Comp T) ext d i o :
  ext !! i = Some o ->
  bind (set_parent p (ANode (N + i))) k (sh c ext d)
  = k tt (sh c (<[i := adopt p o]> ext) d).
Proof.
  intros H. unfold bind, set_parent. rewrite lookup_shape_ext, H.
  destruct o as [lit|s|f]; cbn [adopt]; rewrite ?insert_shape_ext; try reflexivity.
  rewrite (list_insert_id ext i _ H). reflexivity.
Qed.

Lemma host_shape (c : Comp T) ext d : host (sh c ext d) = host w0.
Proof. reflexivity. Qed.

Lemma shape_start (c : Comp T) :
  heap w0 !! this = Some (OComp c) -> w0 = sh c [] (draws w0).
Proof.
  intros H. unfold shape. rewrite (list_insert_id _ _ _ H), app_nil_r.
  destruct w0; reflexivity.
Qed.

End Shape.

Ltac shape_step Hthis :=
  first
    [ rewrite bind_assoc
    | rewrite bind_ret
    | rewrite (bind_getComp_this _ _ Hthis)
    | rewrite (bind_modifyComp_this _ _ Hthis)
    | rewrite bind_alloc_shape
    | rewrite bind_generateId_shape
    | rewrite bind_gets_shape
    | rewrite host_shape
    | erewrite (bind_getComp_ext _ _ Hthis) by reflexivity
    | erewrite (bind_modifyComp_ext _ _ Hthis) by reflexivity
    | erewrite (bind_set_parent_ext _ _ Hthis) by reflexivity
    | progress cbn [forEach mapM length app options class with_tagName with_attributes
                    with_classNames with_children with_content with_registrations
                    with_renderMode with_parent with_options
                    o_tagName o_attributes o_classNames o_children o_renderMode
                    truthy_mode TagRenderMode_value Nat.eqb negb
                    lookup list_lookup insert list_insert adopt] ].

Ltac shape_run Hthis := repeat shape_step Hthis.



Lemma toHtml_text_node {T} (h : list (JsObject T)) (l : loc) (w : World T) (pos : nat)
    (p : option loc) (tag : string) (attrs : Obj Value) (cls : IClassNames) (s : string)
    (d : nat) :
  h !! l = Some (OComp (text_node w pos p tag attrs cls s)) ->
  _toHtml (S d) h (ANode l)
  = inr (spec_normal_markup tag (random_chars (Math_random (host w)) pos 8)
           (normalizeClassNames cls) (_attr attrs) s).
Proof.
  intros H. rewrite (toHtml_normal h l _ d H (or_intror eq_refl)).
  unfold inner_markup. cbn [content text_node truthy_content children tagName id
                            classNames attributes].
  destruct s; reflexivity.
Qed.

(** ** Nodes over a list of items *)

Section Loops.

Context {T : Type}.
Variable w0 : World T.
Variable this : loc.
Hypothesis Hthis : this < length (heap w0).

Local Abbreviation N := (length (heap w0)).
Local Abbreviation sh := (shape w0 this).

Lemma with_children_same (c : Comp T) : with_children (children c) c = c.
Proof. destruct c; reflexivity. Qed.

Lemma nodes_from_cons (base from count : nat) :
  nodes_from base from (S count) = ANode (base + from) :: nodes_from base (S from) count.
Proof. reflexivity. Qed.

Lemma nodes_from_not_text (base from count : nat) (s : string) :
  nodes_from base from count <> [AText s].
Proof. destruct count as [|count]; discriminate. Qed.

(** The loop of [For.init] when the mapper answers with literals. *)
Lemma For_literal_loop (mapper : T -> Expr) (f : T -> string) :
  (forall item, mapper item = ELiteral (f item)) ->
  forall (data : list T) (c : Comp T) ext d,
    forEach data (fun item => let! child := build (mapper item) in
                              push_child this child) (sh c ext d)
    = Ok tt (sh (with_children
                   (children c ++ nodes_from N (length ext) (length data))%list c)
               (ext ++ map (fun item => literal_of (f item)) data)%list d).
Proof.
  intros Hm. induction data as [|item data IH]; intros c ext d.
  - cbn [forEach length map]. unfold nodes_from. cbn [seq map].
    rewrite !app_nil_r, with_children_same. reflexivity.
  - cbn [forEach]. rewrite Hm. cbn [build]. unfold push_child.
    rewrite !bind_assoc, bind_alloc_shape, bind_ret, (bind_modifyComp_this _ _ Hthis).
    rewrite IH. cbn [length map]. rewrite nodes_from_cons, length_app.
    cbn [length children with_children].
    rewrite <- !app_assoc. cbn [app]. rewrite Nat.add_1_r. reflexivity.
Qed.

(** [child.parent = this] for the objects created last. *)
Lemma set_parents_shape (c : Comp T) d :
  forall (news ext : list (JsObject T)),
    forEach (nodes_from N (length ext) (length news)) (set_parent this)
      (sh c (ext ++ news)%list d)
    = Ok tt (sh c (ext ++ map (adopt this) news)%list d).
Proof.
  induction news as [|o news IH]; intros ext; [reflexivity|].
  cbn [length]. rewrite nodes_from_cons. cbn [forEach].
  erewrite (bind_set_parent_ext _ _ Hthis) by (apply list_lookup_middle; reflexivity).
  rewrite insert_app_r_alt by reflexivity. rewrite Nat.sub_diag. cbn [insert list_insert].
  change (ext ++ adopt this o :: news)%list with (ext ++ [adopt this o] ++ news)%list.
  rewrite app_assoc.
  replace (S (length ext)) with (length (ext ++ [adopt this o])%list)
    by (rewrite length_app; simpl; lia).
  rewrite IH. rewrite <- app_assoc. reflexivity.
Qed.

Lemma bind_element_text_shape {B} (tag : string) (attrs : Obj Value) (cls : IClassNames)
    (s : string) (k : loc -> M T B) (c : Comp T) ext d :
  bind (element tag attrs cls [AText s]) k (sh c ext d)
  = k (N + length ext)
      (sh c (ext ++ [OComp (text_node w0 d None tag attrs cls s)])%list (d + 8)).
Proof.
  unfold bind. rewrite element_text_run.
  unfold grown, set_draws, set_heap, shape. cbn [heap host draws document].
  rewrite length_app, (length_base w0 this), app_assoc. reflexivity.
Qed.

Lemma adopt_option_nodes (lm vm : T -> string) (data : list T) :
  forall pos, map (adopt this) (option_nodes w0 None lm vm pos data)
              = option_nodes w0 (Some this) lm vm pos data.
Proof.
  induction data as [|item data IH]; intros pos; [reflexivity|].
  cbn [option_nodes map]. rewrite IH. reflexivity.
Qed.

Lemma length_option_nodes (p : option loc) (lm vm : T -> string) (data : list T) :
  forall pos, length (option_nodes w0 p lm vm pos data) = length data.
Proof.
  induction data as [|item data IH]; intros pos; [reflexivity|].
  cbn [option_nodes length]. rewrite IH. reflexivity.
Qed.

(** The [map] of [Select.init] over the items, in the single list. *)
Lemma options_loop {B} (lm vm : T -> string) (data : list T) :
  forall (k : list Arg -> M T B) (c : Comp T) ext d,
    bind (mapM (fun item : T =>
                  let! o := option_ [("value", VStr (vm item))] (ClassArray [])
                              [AText (lm item)] in
                  ret (ANode o)) data) k (sh c ext d)
    = k (nodes_from N (length ext) (length data))
        (sh c (ext ++ option_nodes w0 None lm vm d data)%list (d + 8 * length data)).
Proof.
  induction data as [|item data IH]; intros k c ext d.
  - cbn [mapM]. rewrite bind_ret. cbn [option_nodes length].
    rewrite app_nil_r, Nat.mul_0_r, Nat.add_0_r. reflexivity.
  - cbn [mapM]. unfold option_ at 1.
    rewrite !bind_assoc, bind_element_text_shape, bind_ret, bind_assoc, IH, bind_ret.
    cbn [option_nodes length]. rewrite nodes_from_cons, length_app. cbn [length].
    rewrite <- app_assoc. cbn [app].
    replace (d + 8 + 8 * length data) with (d + 8 * S (length data)) by lia.
    rewrite Nat.add_1_r. reflexivity.
Qed.

Lemma lookup_literals (f : T -> string) (data : list T) (j : nat) (item : T) :
  data !! j = Some item ->
  map (fun item => @literal_of T (f item)) data !! j = Some (literal_of (f item)).
Proof.
  revert j. induction data as [|x data IH]; intros [|j] H; try discriminate.
  - inversion H. reflexivity.
  - apply IH. exact H.
Qed.

Lemma literals_at (h : list (JsObject T)) (f : T -> string) (data : list T) :
  forall from,
    (forall j item, data !! j = Some item ->
                    h !! (N + (from + j)) = Some (literal_of (f item))) ->
    Forall2 (literal_at h) (nodes_from N from (length data)) (map f data).
Proof.
  induction data as [|x data IH]; intros from H; [constructor|].
  cbn [length map]. rewrite nodes_from_cons. constructor.
  - exists None. rewrite <- (Nat.add_0_r from). exact (H 0 x eq_refl).
  - apply IH. intros j item Hj. replace (S from + j) with (from + S j) by lia.
    exact (H (S j) item Hj).
Qed.

Lemma collect_options (h : list (JsObject T)) (depth : nat) (lm vm : T -> string)
    (data : list T) :
  forall from pos,
    (forall j, j < length data ->
               h !! (N + (from + j))
               = option_nodes w0 (Some this) lm vm pos data !! j) ->
    collect (map (_toHtml (S depth) h) (nodes_from N from (length data)))
    = inr (option_markups w0 lm vm pos data).
Proof.
  induction data as [|x data IH]; intros from pos H; [reflexivity|].
  cbn [length]. rewrite nodes_from_cons. cbn [map collect option_markups].
  erewrite toHtml_text_node
    by (rewrite <- (Nat.add_0_r from); rewrite (H 0) by (simpl; lia); reflexivity).
  fold (nodes_from N (S from) (length data)).
  rewrite (IH (S from) (pos + 8)); [reflexivity|].
  intros j Hj. replace (S from + j) with (from + S j) by lia.
  rewrite (H (S j)) by (simpl; lia). reflexivity.
Qed.

End Loops.

(** ** [Test], [Rating], [For] and [Select] *)

(** X14. [Test.init] on a node whose title and description are texts returns
    after sixteen draws; the node is a [div] over two new [span] nodes that
    hold the title and the description as their content and the node as
    their parent; a node without stale content is written as the [div]
    around the two [span]s. *)
Theorem Test_init_spans {T} (w : World T) (this : loc) (c : Comp T) (t d : string) :
  heap w !! this = Some (OComp c) ->
  options c = OptTest (AText t) (AText d) ->
  Test_init this w
  = Ok tt (shape w this
             (with_children [ANode (length (heap w)); ANode (length (heap w) + 1)]
                (div_shape [] [] c))
             [OComp (text_node w (draws w) (Some this) "span" [] (ClassArray []) t);
              OComp (text_node w (draws w + 8) (Some this) "span" [] (ClassArray []) d)]
             (draws w + 16))
  /\ (truthy_content (content c) = None ->
      forall depth,
        _toHtml (S (S depth)) (heap (final (Test_init this w))) (ANode this)
        = inr (spec_normal_markup "div" (id c) [] EmptyString
                 (spec_normal_markup "span"
                    (random_chars (Math_random (host w)) (draws w) 8) [] EmptyString t
                  ++ spec_normal_markup "span"
                       (random_chars (Math_random (host w)) (draws w + 8) 8) []
                       EmptyString d))).
Proof.
  intros H Hopts.
  assert (Hthis : this < length (heap w)) by (eapply lookup_lt_Some; exact H).
  assert (Hrun : Test_init this w
    = Ok tt (shape w this
             (with_children [ANode (length (heap w)); ANode (length (heap w) + 1)]
                (div_shape [] [] c))
             [OComp (text_node w (draws w) (Some this) "span" [] (ClassArray []) t);
              OComp (text_node w (draws w + 8) (Some this) "span" [] (ClassArray []) d)]
             (draws w + 16))).
  { unfold Test_init. unfold bind at 1. rewrite (UserComp_init_put this w c H).
    rewrite (shape_start w this Hthis c H) at 1. rewrite (put_shape _ _ Hthis).
    rewrite (bind_getComp_this _ _ Hthis).
    change (options (div_shape [] [] c)) with (options c). rewrite Hopts.
    unfold span, compose.
    rewrite (bind_element_text_shape w this).
    rewrite (bind_element_text_shape w this).
    shape_run Hthis.
    rewrite Nat.add_0_r, <- Nat.add_assoc. reflexivity. }
  split; [exact Hrun|].
  intros Hcontent depth. rewrite Hrun. cbn [final].
  erewrite toHtml_normal;
    [|apply (lookup_shape_this w this Hthis)|left; reflexivity].
  unfold inner_markup. cbn [content with_children div_shape]. rewrite Hcontent.
  cbn [children with_children map collect].
  replace (ANode (length (heap w))) with (ANode (length (heap w) + 0))
    by (rewrite Nat.add_0_r; reflexivity).
  rewrite (toHtml_text_node _ _ w (draws w) (Some this) "span" [] (ClassArray []) t)
    by (rewrite (lookup_shape_ext w this Hthis); reflexivity).
  rewrite (toHtml_text_node _ _ w (draws w + 8) (Some this) "span" [] (ClassArray []) d)
    by (rewrite (lookup_shape_ext w this Hthis); reflexivity).
  cbn [join]. reflexivity.
Qed.

Lemma Test_init_spans_witness :
  heap test_world !! 0
  = Some (OComp (with_options (OptTest (AText "T") (AText ""))
                   (sample_comp CTest "Ab" "p" None None [])))
  /\ returns (Test_init 0 test_world) = true
  /\ _toHtml 2 (heap (final (Test_init 0 test_world))) (ANode 0)
     = inr (spec_normal_markup "div" "Ab" [] EmptyString
              (spec_normal_markup "span" "4BIPWdkr" [] EmptyString "T"
               ++ spec_normal_markup "span" "y5CJQXel" [] EmptyString EmptyString)).
Proof.
  split; [reflexivity|].
  destruct (Test_init_spans test_world 0 _ "T" EmptyString eq_refl eq_refl) as [Hrun Hhtml].
  split; [rewrite Hrun; reflexivity|].
  exact (Hhtml eq_refl 0).
Defined.

(** X15. [Rating.init] returns after forty draws. The node is a [span] over
    five new [span] nodes of the class [rating-star], numbered from one in
    [data-value], the star at index [i] being the full one exactly when the
    rating exceeds [i]; its registrations are one [click] registration of a
    new function object, whatever was registered before. A node without
    stale content is written as the [span] around the five stars. *)
Theorem Rating_init_stars {T} (w : World T) (this : loc) (c : Comp T) (name : string)
    (rating : Z) :
  heap w !! this = Some (OComp c) ->
  options c = OptRating name rating ->
  Rating_init this w
  = Ok tt (shape w this
             (with_registrations [click_of (length (heap w) + 5)]
                (with_children (map (fun i => ANode (length (heap w) + i)) (seq 0 5))
                   (with_tagName "span" (div_shape [] [] c))))
             (map (fun i => OComp (star_node w this rating i)) (seq 0 5)
              ++ [OFunction (RatingClick this)])%list
             (draws w + 40))
  /\ (truthy_content (content c) = None ->
      forall depth,
        _toHtml (S (S depth)) (heap (final (Rating_init this w))) (ANode this)
        = inr (spec_normal_markup "span" (id c) [] EmptyString
                 (join EmptyString (map (star_markup w rating) (seq 0 5))))).
Proof.
  intros H Hopts.
  assert (Hthis : this < length (heap w)) by (eapply lookup_lt_Some; exact H).
  assert (Hrun : Rating_init this w
    = Ok tt (shape w this
             (with_registrations [click_of (length (heap w) + 5)]
                (with_children (map (fun i => ANode (length (heap w) + i)) (seq 0 5))
                   (with_tagName "span" (div_shape [] [] c))))
             (map (fun i => OComp (star_node w this rating i)) (seq 0 5)
              ++ [OFunction (RatingClick this)])%list
             (draws w + 40))).
  { unfold Rating_init. unfold bind at 1. rewrite (UserComp_init_put this w c H).
    rewrite (shape_start w this Hthis c H) at 1. rewrite (put_shape _ _ Hthis).
    rewrite (bind_getComp_this _ _ Hthis).
    change (options (div_shape [] [] c)) with (options c). rewrite Hopts.
    unfold span, compose, register. cbn [mapM].
    rewrite !bind_assoc.
    do 5 (rewrite (bind_element_text_shape w this), bind_ret, ?bind_assoc;
          cbn [length app]).
    shape_run Hthis.
    unfold star_node, text_node, click_of, star_symbol.
    cbn [map seq app Nat.mul Nat.add registrations with_children with_classNames
         with_attributes with_tagName div_shape Z.of_nat].
    rewrite ?Nat.add_0_r, <- ?Nat.add_assoc. reflexivity. }
  split; [exact Hrun|].
  intros Hcontent depth. rewrite Hrun. cbn [final].
  erewrite toHtml_normal;
    [|apply (lookup_shape_this w this Hthis)|left; reflexivity].
  unfold inner_markup.
  cbn [content with_children with_registrations with_tagName div_shape].
  rewrite Hcontent.
  cbn [children with_children with_registrations map seq collect].
  unfold star_node.
  repeat (erewrite toHtml_text_node
            by (rewrite (lookup_shape_ext w this Hthis); reflexivity)).
  reflexivity.
Qed.

Lemma Rating_init_stars_witness :
  heap rating_start !! 0
  = Some (OComp (with_options (OptRating "stars" 2)
                   (sample_comp CRating "Ab" "p" None None [])))
  /\ returns (Rating_init 0 rating_start) = true
  /\ option_map registrations (comp_at (final (Rating_init 0 rating_start)) 0)
     = Some [click_of 7]
  /\ _toHtml 2 (heap (final (Rating_init 0 rating_start))) (ANode 0)
     = inr (spec_normal_markup "span" "Ab" [] EmptyString
              (join EmptyString (map (star_markup rating_start 2) (seq 0 5)))).
Proof.
  split; [reflexivity|].
  destruct (Rating_init_stars rating_start 0 _ "stars" 2 eq_refl eq_refl) as [Hrun Hhtml].
  split; [rewrite Hrun; reflexivity|].
  split; [rewrite Hrun; reflexivity|].
  exact (Hhtml eq_refl 0).
Defined.


(** X16. [For.init] with a mapper that answers with literals returns without
    a draw: the node is a [div] with the bare attribute [comp-for] whose
    children are one new literal for each item, in the order of the data;
    the [parent] of the literals is not set. A node without stale content
    is written as the [div] around the texts of the literals. *)
Theorem For_init_literals {T} (w : World T) (this : loc) (c : Comp T) (data : list T)
    (mapper : T -> Expr) (f : T -> string) :
  heap w !! this = Some (OComp c) ->
  options c = OptFor data mapper ->
  (forall item, mapper item = ELiteral (f item)) ->
  For_init this w
  = Ok tt (shape w this
             (div_shape [("comp-for", VNull)]
                (nodes_from (length (heap w)) 0 (length data)) c)
             (map (fun item => literal_of (f item)) data)
             (draws w))
  /\ (truthy_content (content c) = None ->
      forall depth,
        _toHtml (S (S depth)) (heap (final (For_init this w))) (ANode this)
        = inr (spec_normal_markup "div" (id c) [] "comp-for"
                 (join EmptyString (map f data)))).
Proof.
  intros H Hopts Hm.
  assert (Hthis : this < length (heap w)) by (eapply lookup_lt_Some; exact H).
  assert (Hrun : For_init this w
    = Ok tt (shape w this
             (div_shape [("comp-for", VNull)]
                (nodes_from (length (heap w)) 0 (length data)) c)
             (map (fun item => literal_of (f item)) data)
             (draws w))).
  { unfold For_init. rewrite (marked_init_put this "comp-for" w c _ H).
    rewrite (shape_start w this Hthis c H) at 1. rewrite (put_shape _ _ Hthis).
    rewrite (bind_getComp_this _ _ Hthis).
    change (options (div_shape [("comp-for", VNull)] [] c)) with (options c).
    rewrite Hopts.
    rewrite (For_literal_loop w this Hthis mapper f Hm). reflexivity. }
  split; [exact Hrun|].
  intros Hcontent depth. rewrite Hrun. cbn [final].
  erewrite toHtml_normal;
    [|apply (lookup_shape_this w this Hthis)|left; reflexivity].
  unfold inner_markup. cbn [content div_shape]. rewrite Hcontent.
  cbn [children div_shape].
  rewrite (collect_literals _ depth _ (map f data)); [reflexivity|].
  apply (literals_at w this Hthis). intros j item Hj.
  rewrite (lookup_shape_ext w this Hthis). apply lookup_literals. exact Hj.
Qed.

Lemma For_init_literals_witness :
  heap for_start !! 0
  = Some (OComp (with_options (OptFor [1; 2; 3] (fun _ => ELiteral "<li>"))
                   (sample_comp CFor "Ab" "p" None None [])))
  /\ returns (For_init 0 for_start) = true
  /\ option_map children (comp_at (final (For_init 0 for_start)) 0)
     = Some [ANode 2; ANode 3; ANode 4]
  /\ parent_of (final (For_init 0 for_start)) 3 = Some None
  /\ _toHtml 2 (heap (final (For_init 0 for_start))) (ANode 0)
     = inr (spec_normal_markup "div" "Ab" [] "comp-for" "<li><li><li>").
Proof.
  split; [reflexivity|].
  destruct (For_init_literals for_start 0 _ [1; 2; 3] (fun _ => ELiteral "<li>")
              (fun _ => "<li>") eq_refl eq_refl (fun _ => eq_refl)) as [Hrun Hhtml].
  split; [rewrite Hrun; reflexivity|].
  split; [rewrite Hrun; reflexivity|].
  split; [rewrite Hrun; reflexivity|].
  exact (Hhtml eq_refl 0).
Defined.

(** X17. [Select.init] without [useRadio] returns after eight draws for each
    item: the node is a [select] over one new [option] node for each item,
    in the order of the data, with the value of the item as the attribute
    [value], its label as content and the node as parent. The attribute
    [name] of the [select] is the global [name] of the host: the [name] of
    the options is not read. *)
Theorem Select_init_single_list {T} (w : World T) (this : loc) (c : Comp T)
    (data : list T) (name : string) (labelMapper valueMapper : T -> string) :
  heap w !! this = Some (OComp c) ->
  options c = OptSelect data name labelMapper valueMapper false ->
  Select_init this w
  = Ok tt (shape w this
             (with_children (nodes_from (length (heap w)) 0 (length data))
                (with_attributes [("name", VStr (window_name (host w)))]
                   (with_tagName "select" (div_shape [] [] c))))
             (option_nodes w (Some this) labelMapper valueMapper (draws w) data)
             (draws w + 8 * length data))
  /\ (truthy_content (content c) = None ->
      forall depth,
        _toHtml (S (S depth)) (heap (final (Select_init this w))) (ANode this)
        = inr (spec_normal_markup "select" (id c) []
                 ("name=" ++ dq ++ window_name (host w) ++ dq)
                 (join EmptyString
                    (option_markups w labelMapper valueMapper (draws w) data)))).
Proof.
  intros H Hopts.
  assert (Hthis : this < length (heap w)) by (eapply lookup_lt_Some; exact H).
  assert (Hrun : Select_init this w
    = Ok tt (shape w this
             (with_children (nodes_from (length (heap w)) 0 (length data))
                (with_attributes [("name", VStr (window_name (host w)))]
                   (with_tagName "select" (div_shape [] [] c))))
             (option_nodes w (Some this) labelMapper valueMapper (draws w) data)
             (draws w + 8 * length data))).
  { unfold Select_init. unfold bind at 1. rewrite (BuiltinComp_init_put this w c H).
    rewrite (shape_start w this Hthis c H) at 1. rewrite (put_shape _ _ Hthis).
    rewrite (bind_getComp_this _ _ Hthis), bind_gets_shape.
    cbn [options with_renderMode with_tagName with_registrations with_children
         with_classNames with_attributes]. rewrite Hopts.
    rewrite (options_loop w this Hthis labelMapper valueMapper data).
    unfold compose. shape_run Hthis.
    rewrite (compose_branch _ _ _ (nodes_from_not_text _ _ _)).
    shape_run Hthis. unfold bind at 1.
    match goal with
    | |- context [forEach _ _ (shape w this ?c1 ?news ?d1)] =>
        pose proof (set_parents_shape w this Hthis c1 d1 news []) as Hp
    end.
    cbn [length app] in Hp. rewrite length_option_nodes in Hp. rewrite Hp.
    rewrite adopt_option_nodes. reflexivity. }
  split; [exact Hrun|].
  intros Hcontent depth. rewrite Hrun. cbn [final].
  erewrite toHtml_normal;
    [|apply (lookup_shape_this w this Hthis)|left; reflexivity].
  unfold inner_markup.
  cbn [content with_children with_attributes with_tagName div_shape].
  rewrite Hcontent. cbn [children with_children].
  rewrite (collect_options w this Hthis _ depth labelMapper valueMapper data 0 (draws w));
    [reflexivity|].
  intros j Hj. rewrite (lookup_shape_ext w this Hthis). reflexivity.
Qed.

Lemma Select_init_single_list_witness :
  heap select_start !! 0
  = Some (OComp (with_options
                   (OptSelect [1; 2] "size" (fun _ => "L") (fun _ => "V") false)
                   (sample_comp CSelect "Ab" "p" None None [])))
  /\ returns (Select_init 0 select_start) = true
  /\ option_map attributes (comp_at (final (Select_init 0 select_start)) 0)
     = Some [("name", VStr (window_name browser))]
  /\ option_map children (comp_at (final (Select_init 0 select_start)) 0)
     = Some [ANode 2; ANode 3].
Proof.
  split; [reflexivity|].
  destruct (Select_init_single_list select_start 0 _ [1; 2] "size" (fun _ => "L")
              (fun _ => "V") eq_refl eq_refl) as [Hrun _].
  split; [rewrite Hrun; reflexivity|].
  split; rewrite Hrun; reflexivity.
Defined.

(** ** The failures of [renderTo] *)



(** ** Class names given as one string *)

(** X19. The class names of [element] given as one string come back verbatim
    in the [class] attribute of the markup, runs of spaces included: the
    split of [compose] and the join of [_toHtml] undo each other. *)
Theorem class_string_verbatim {T} (w : World T) (tag : string) (attrs : Obj Value)
    (classes text : string) (depth : nat) :
  _toHtml (S depth) (heap (final (element tag attrs (ClassString classes) [AText text] w)))
    (ANode (length (heap w)))
  = inr ("<" ++ tag ++ " comp-id=" ++ dq
         ++ random_chars (Math_random (host w)) (draws w) 8 ++ dq
         ++ " class=" ++ dq ++ classes ++ dq ++ " " ++ _attr attrs ++ ">"
         ++ text ++ "</" ++ tag ++ ">").
Proof.
  rewrite element_text_run. cbn [final].
  erewrite toHtml_text_node
    by (change (length (heap w)) with (length (heap (set_draws (draws w + 8) w)));
        apply lookup_grown).
  unfold spec_normal_markup. cbn [normalizeClassNames].
  change " "%string with (String space EmptyString) at 2.
  rewrite join_split. reflexivity.
Qed.

(** ** The children of a list node after [update] *)

(** X20. When [update] returns on a list node, the node has one child for
    each item of the data of the merged options: the children of the
    earlier data are dropped, not kept beside the new ones. *)
Theorem For_update_replaces_children {T} (w w' : World T) (this l : loc) (c : Comp T)
    (patch : Patch T) (data : list T) (mapper : T -> Expr) :
  heap w !! this = Some (OComp c) ->
  class c = CFor ->
  Object_assign (options c) patch = OptFor data mapper ->
  update this patch w = Ok l w' ->
  exists c', heap w' !! this = Some (OComp c')
             /\ length (children c') = length data.
Proof. apply For_children_follow_data. Qed.

Lemma For_update_replaces_children_witness :
  heap for_mounted !! 0 = Some (OComp for_node)
  /\ length (children for_node) = 3
  /\ update 0 (PatchFor (Some [7]) None) for_mounted
     = Ok 0 (final (update 0 (PatchFor (Some [7]) None) for_mounted))
  /\ exists c', heap (final (update 0 (PatchFor (Some [7]) None) for_mounted)) !! 0
                = Some (OComp c')
                /\ length (children c') = 1.
Proof.
  assert (Hrun : update 0 (PatchFor (Some [7]) None) for_mounted
                 = Ok 0 (final (update 0 (PatchFor (Some [7]) None) for_mounted)))
    by (vm_compute; reflexivity).
  assert (Hnode : heap for_mounted !! 0 = Some (OComp for_node))
    by (vm_compute; reflexivity).
  assert (Hcls : class for_node = CFor) by (vm_compute; reflexivity).
  assert (Hopts : Object_assign (options for_node) (PatchFor (Some [7]) None)
                  = OptFor [7] (fun _ => ELiteral "<li>"))
    by (vm_compute; reflexivity).
  split; [exact Hnode|]. split; [vm_compute; reflexivity|]. split; [exact Hrun|].
  exact (For_update_replaces_children for_mounted _ 0 0 for_node
           (PatchFor (Some [7]) None) [7] (fun _ => ELiteral "<li>")
           Hnode Hcls Hopts Hrun).
Defined.

(** ** Identities are not checked *)

Lemma random_chars_agree (f g : nat -> nat) (n : nat) :
  forall p q, (forall k, k < n -> f (p + k) = g (q + k)) ->
              random_chars f p n = random_chars g q n.
Proof.
  induction n as [|n IH]; intros p q H; [reflexivity|].
  cbn [random_chars]. f_equal.
  - rewrite <- (Nat.add_0_r p), <- (Nat.add_0_r q). rewrite (H 0) by lia. reflexivity.
  - apply IH. intros k Hk. replace (S p + k) with (p + S k) by lia.
    replace (S q + k) with (q + S k) by lia. apply H. lia.
Qed.

(** X21. No identity is checked against those in use: when the random source
    repeats its eight outcomes, two nodes made one after the other are two
    objects with one identity. *)
Theorem identities_may_collide {T} (w : World T) (tag1 tag2 : string)
    (attrs1 attrs2 : Obj Value) (cls1 cls2 : IClassNames) (text1 text2 : string) :
  (forall k, k < 8 ->
             Math_random (host w) (draws w + 8 + k) = Math_random (host w) (draws w + k)) ->
  exists w1 w2 n1 n2 c1 c2,
    element tag1 attrs1 cls1 [AText text1] w = Ok n1 w1
    /\ element tag2 attrs2 cls2 [AText text2] w1 = Ok n2 w2
    /\ n1 <> n2
    /\ heap w2 !! n1 = Some (OComp c1) /\ heap w2 !! n2 = Some (OComp c2)
    /\ id c1 = id c2.
Proof.
  intros Hrep.
  eexists. eexists. eexists. eexists. eexists. eexists.
  split; [apply element_text_run|]. split; [apply element_text_run|].
  unfold grown, set_draws, set_heap. cbn [heap host draws document].
  split; [rewrite length_app; simpl; lia|].
  split.
  { rewrite lookup_app_l by (rewrite length_app; simpl; lia).
    rewrite lookup_app_r by reflexivity. rewrite Nat.sub_diag. reflexivity. }
  split.
  { rewrite lookup_app_r by reflexivity. rewrite Nat.sub_diag. reflexivity. }
  cbn [id text_node]. symmetry. apply random_chars_agree. exact Hrep.
Qed.

Lemma identities_may_collide_witness :
  (forall k, k < 8 ->
             Math_random (host repeating_world) (draws repeating_world + 8 + k)
             = Math_random (host repeating_world) (draws repeating_world + k))
  /\ exists w1 w2 n1 n2 c1 c2,
       element "p" [] (ClassArray []) [AText "a"] repeating_world = Ok n1 w1
       /\ element "q" [] (ClassArray []) [AText "b"] w1 = Ok n2 w2
       /\ n1 <> n2
       /\ heap w2 !! n1 = Some (OComp c1) /\ heap w2 !! n2 = Some (OComp c2)
       /\ id c1 = id c2.
Proof.
  assert (Hrep : forall k, k < 8 ->
             Math_random (host repeating_world) (draws repeating_world + 8 + k)
             = Math_random (host repeating_world) (draws repeating_world + k)).
  { intros k Hk. do 8 (destruct k as [|k]; [reflexivity|]). lia. }
  split; [exact Hrep|].
  exact (identities_may_collide repeating_world "p" "q" [] [] (ClassArray [])
           (ClassArray []) "a" "b" Hrep).
Defined.

(** ** Construction *)

(** X22. [new C(options)], for every class, allocates the node at the next
    location before [init] runs: when it returns, it returns that location;
    returned or thrown, the object there has the identity of the first eight
    draws, the class [C] and the options as given, the document is
    untouched and every earlier component keeps its identity, class and
    options. *)
Theorem new_allocates_first {T} (w : World T) (cls : Class) (opts : Options T) :
  (forall n w', new cls opts w = Ok n w' -> n = length (heap w))
  /\ (exists c, heap (final (new cls opts w)) !! length (heap w) = Some (OComp c)
                /\ id c = random_chars (Math_random (host w)) (draws w) 8
                /\ class c = cls /\ options c = opts)
  /\ document (final (new cls opts w)) = document w
  /\ (forall l c, heap w !! l = Some (OComp c) ->
                  exists c', heap (final (new cls opts w)) !! l = Some (OComp c')
                             /\ id c' = id c /\ class c' = class c
                             /\ options c' = options c).
Proof.
  unfold new. rewrite construct_run. unfold bind at 1 2 3 4.
  match goal with
  | |- context [init ?n (grown (OComp ?c0) ?w1)] =>
      pose proof (calm_init n (grown (OComp c0) w1)) as (_ & Hdoc & Hcomps);
      pose proof (Hcomps n c0 (lookup_grown w1 (OComp c0))) as (c' & Hc' & Hid & Hcls & Hopt);
      assert (Hold : forall l c, heap w !! l = Some (OComp c) ->
                exists c', heap (final (init n (grown (OComp c0) w1))) !! l
                           = Some (OComp c')
                           /\ id c' = id c /\ class c' = class c
                           /\ options c' = options c)
        by (intros l c Hl; apply Hcomps; unfold grown; cbn [heap set_heap set_draws];
            rewrite lookup_app_l by (eapply lookup_lt_Some; exact Hl); exact Hl);
      destruct (init n (grown (OComp c0) w1)) as [[] w2|e w2]
  end; cbn [final ret] in *.
  - split; [intros n w' Heq; inversion Heq; reflexivity|].
    split; [exists c'; auto|]. split; [exact Hdoc|exact Hold].
  - split; [intros n w' Heq; discriminate|].
    split; [exists c'; auto|]. split; [exact Hdoc|exact Hold].
Qed.

Lemma new_allocates_first_witness :
  new CRating (OptRating "stars" 2) empty_world
  = Ok 0 (final (new CRating (OptRating "stars" 2) empty_world))
  /\ 0 = length (heap empty_world).
Proof.
  assert (Hrun : new CRating (OptRating "stars" 2) empty_world
                 = Ok 0 (final (new CRating (OptRating "stars" 2) empty_world)))
    by (vm_compute; reflexivity).
  split; [exact Hrun|].
  destruct (new_allocates_first empty_world CRating (OptRating "stars" 2)) as [H _].
  exact (H 0 _ Hrun).
Defined.

(** X23. [new SystemComp(options)] over one text takes the render mode of
    the options exactly when it is truthy, that is, not [normal]. In the
    start-tag mode the node is written as the bare tag, without identity,
    class or attributes; in the self-closing mode the text is not written;
    otherwise the node is written around the text. *)
Theorem SystemComp_render_modes {T} (w : World T) (tag : string) (attrs : Obj Value)
    (cls : IClassNames) (s : string) (m : option TagRenderMode) :
  new CSystemComp (OptHtml (system_options tag attrs cls s m)) w
  = Ok (length (heap w))
      (grown
         (OComp {| class := CSystemComp;
                   id := random_chars (Math_random (host w)) (draws w) 8;
                   options := OptHtml (system_options tag attrs cls s m);
                   tagName := tag; attributes := attrs;
                   classNames := normalizeClassNames cls;
                   children := []; content := Some s; parent := None;
                   registrations := []; renderMode := taken_mode m |})
         (set_draws (draws w + 8) w))
  /\ forall depth,
       _toHtml (S depth)
         (heap (final (new CSystemComp (OptHtml (system_options tag attrs cls s m)) w)))
         (ANode (length (heap w)))
       = inr match m with
             | Some startTag => "<" ++ tag ++ ">"
             | Some selfClosing =>
                 spec_selfClosing_markup tag
                   (random_chars (Math_random (host w)) (draws w) 8)
                   (normalizeClassNames cls) (_attr attrs)
             | _ =>
                 spec_normal_markup tag
                   (random_chars (Math_random (host w)) (draws w) 8)
                   (normalizeClassNames cls) (_attr attrs) s
             end.
Proof.
  assert (Hrun : new CSystemComp (OptHtml (system_options tag attrs cls s m)) w
    = Ok (length (heap w))
      (grown
         (OComp {| class := CSystemComp;
                   id := random_chars (Math_random (host w)) (draws w) 8;
                   options := OptHtml (system_options tag attrs cls s m);
                   tagName := tag; attributes := attrs;
                   classNames := normalizeClassNames cls;
                   children := []; content := Some s; parent := None;
                   registrations := []; renderMode := taken_mode m |})
         (set_draws (draws w + 8) w))).
  { unfold new. rewrite construct_run. unfold bind at 1.
    change (length (heap w)) with (length (heap (set_draws (draws w + 8) w))).
    erewrite init_dispatch by apply lookup_grown. cbn [class].
    erewrite SystemComp_init_fresh by reflexivity.
    cbn [system_options o_tagName o_attributes o_classNames o_children o_renderMode].
    unfold bind at 1.
    rewrite (compose_prefix _ _ _ _ _ _ _ (lookup_grown _ _)), put_grown.
    rewrite (bind_modifyComp _ _ _ _ _ (lookup_grown _ _)), put_grown.
    cbn [ret]. unfold taken_mode.
    destruct (truthy_mode m); [|reflexivity].
    rewrite (modifyComp_put _ _ _ _ (lookup_grown _ _)), put_grown. reflexivity. }
  split; [exact Hrun|]. intros depth. rewrite Hrun. cbn [final].
  change (length (heap w)) with (length (heap (set_draws (draws w + 8) w))).
  rewrite toHtml_step, lookup_grown. cbn [renderMode].
  destruct m as [[| |]|]; cbn [taken_mode truthy_mode TagRenderMode_value Nat.eqb negb].
  - unfold inner_markup. cbn [content truthy_content children map collect].
    destruct s; cbn [truthy_content]; rewrite openTag_normal; reflexivity.
  - rewrite openTag_selfClosing. reflexivity.
  - reflexivity.
  - unfold inner_markup. cbn [content truthy_content children map collect].
    destruct s; cbn [truthy_content]; rewrite openTag_normal; reflexivity.
Qed.

(** ** The classes that only mark the node *)

(** X24. [UserComp.init] and [BuiltinComp.init] do the same: the node is a
    [div] in the normal mode with no attribute, class name, child or
    registration, while its identity, its options, its content and its
    parent stay. The three router classes add one bare attribute, their
    marker, and read nothing of their options. All five always return on a
    component. *)
Theorem marker_init_shape {T} (w : World T) (this : loc) (c : Comp T) :
  heap w !! this = Some (OComp c) ->
  UserComp_init this w = Ok tt (put this (div_shape [] [] c) w)
  /\ BuiltinComp_init this w = Ok tt (put this (div_shape [] [] c) w)
  /\ RouterPage_init this w = Ok tt (put this (div_shape [("comp-page", VNull)] [] c) w)
  /\ RouterOutlet_init this w
     = Ok tt (put this (div_shape [("comp-outlet", VNull)] [] c) w)
  /\ RouterLink_init this w = Ok tt (put this (div_shape [("comp-link", VNull)] [] c) w).
Proof.
  intros H. split; [exact (UserComp_init_put this w c H)|].
  split; [exact (BuiltinComp_init_put this w c H)|].
  split; [exact (Router_init_put this "comp-page" w c H)|].
  split; [exact (Router_init_put this "comp-outlet" w c H)
         |exact (Router_init_put this "comp-link" w c H)].
Qed.

Lemma marker_init_shape_witness :
  heap (mounted_world (sample_comp CRouterPage "Ab" "p" None (Some "x") [ANode 1])) !! 0
  = Some (OComp (sample_comp CRouterPage "Ab" "p" None (Some "x") [ANode 1]))
  /\ option_map attributes
       (comp_at (final (RouterPage_init 0
                          (mounted_world
                             (sample_comp CRouterPage "Ab" "p" None (Some "x") [ANode 1]))))
          0)
     = Some [("comp-page", VNull)]
  /\ option_map content
       (comp_at (final (UserComp_init 0
                          (mounted_world
                             (sample_comp CRouterPage "Ab" "p" None (Some "x") [ANode 1]))))
          0)
     = Some (Some "x").
Proof.
  split; [reflexivity|].
  destruct (marker_init_shape
              (mounted_world (sample_comp CRouterPage "Ab" "p" None (Some "x") [ANode 1]))
              0 _ eq_refl) as (Huser & _ & Hpage & _).
  split; [rewrite Hpage; reflexivity|rewrite Huser; reflexivity].
Defined.

(** ** A choice node shown as radio buttons *)

Section Radio.

Context {T : Type}.
Variable w0 : World T.
Variable this : loc.
Hypothesis Hthis : this < length (heap w0).

Local Abbreviation N := (length (heap w0)).
Local Abbreviation sh := (shape w0 this).

Lemma length_shape (c : Comp T) ext d : length (heap (sh c ext d)) = N + length ext.
Proof. unfold shape. cbn [heap]. rewrite length_app, length_insert. reflexivity. Qed.

Lemma this_in_shape (c : Comp T) ext d : this < length (heap (sh c ext d)).
Proof. rewrite length_shape. lia. Qed.

Lemma shape_nest (c c' : Comp T) ext ext' d0 d :
  shape (sh c ext d0) this c' ext' d = sh c' (ext ++ ext')%list d.
Proof.
  unfold shape. cbn [heap host document]. f_equal.
  rewrite insert_app_l by (rewrite length_insert; exact Hthis).
  rewrite list_insert_insert_eq, app_assoc. reflexivity.
Qed.

Lemma shape_renest (c : Comp T) ext d : sh c ext d = shape (sh c ext d) this c [] d.
Proof. rewrite shape_nest, app_nil_r. reflexivity. Qed.

(** One turn of the [map] of [Select.init] over the items, with radio
    buttons. *)
Lemma radio_step {B} (cid name : string) (lm vm : T -> string) (item : T) (index : nat)
    (k : Arg -> M T B) (c : Comp T) ext d :
  bind (let! i := input [("type", VStr "radio");
                         ("id", VStr (cid ++ "-option-" ++ index_string index));
                         ("name", VStr name);
                         ("value", VStr (vm item))]
                    (ClassArray []) in
        let! lb := label [("for", VStr (cid ++ "-option-" ++ index_string index))]
                     (ClassArray []) [AText (lm item)] in
        let! dv := div [] (ClassArray []) [ANode i; ANode lb] in
        ret (ANode dv)) k (sh c ext d)
  = k (ANode (N + (length ext + 2)))
      (sh c (ext ++ radio_row w0 None cid name lm vm N (length ext) d index item)%list
         (d + 24)).
Proof.
  rewrite (shape_renest c ext d) at 1.
  pose proof (this_in_shape c ext d) as H1.
  set (w1 := sh c ext d) in *.
  unfold input, label, div, selfClosingElement, element, construct, SystemComp_init,
    Comp_init, compose.
  shape_run H1.
  subst w1. rewrite shape_nest, !length_shape.
  rewrite <- !Nat.add_assoc, Nat.add_0_r.
  unfold radio_row, text_node. reflexivity.
Qed.

Lemma length_radio_rows (p : option loc) (cid name : string) (lm vm : T -> string)
    (data : list T) :
  forall from pos index,
    length (radio_rows w0 p cid name lm vm N from pos index data) = 3 * length data.
Proof.
  induction data as [|item data IH]; intros from pos index; [reflexivity|].
  cbn [radio_rows radio_row app length]. rewrite IH. lia.
Qed.

Lemma row_args_not_text (base from count : nat) (s : string) :
  row_args base from count <> [AText s].
Proof. destruct count as [|count]; discriminate. Qed.

(** The [map] of [Select.init] over the items, with radio buttons. *)
Lemma radio_loop {B} (cid name : string) (lm vm : T -> string) (data : list T) :
  forall index (k : list Arg -> M T B) (c : Comp T) ext d,
    bind (mapM (fun entry : T * nat =>
                  let! i := input [("type", VStr "radio");
                                   ("id", VStr (cid ++ "-option-"
                                                ++ index_string (snd entry)));
                                   ("name", VStr name);
                                   ("value", VStr (vm (fst entry)))]
                              (ClassArray []) in
                  let! lb := label [("for", VStr (cid ++ "-option-"
                                                  ++ index_string (snd entry)))]
                               (ClassArray []) [AText (lm (fst entry))] in
                  let! dv := div [] (ClassArray []) [ANode i; ANode lb] in
                  ret (ANode dv))
               (combine data (seq index (length data)))) k (sh c ext d)
    = k (row_args N (length ext) (length data))
        (sh c (ext ++ radio_rows w0 None cid name lm vm N (length ext) d index data)%list
           (d + 24 * length data)).
Proof.
  induction data as [|item data IH]; intros index k c ext d.
  - cbn [length seq combine mapM radio_rows row_args]. rewrite bind_ret.
    rewrite app_nil_r, Nat.mul_0_r, Nat.add_0_r. reflexivity.
  - cbn [length seq combine mapM]. rewrite bind_assoc. cbn [fst snd].
    rewrite radio_step, bind_assoc, IH, bind_ret.
    cbn [radio_rows row_args]. rewrite length_app. cbn [radio_row length].
    rewrite <- app_assoc.
    replace (d + 24 + 24 * length data) with (d + 24 * S (length data)) by lia.
    reflexivity.
Qed.

(** [child.parent = this] for the rows. *)
Lemma set_parents_rows (cid name : string) (lm vm : T -> string) (c : Comp T) d
    (data : list T) :
  forall ext pos index,
    forEach (row_args N (length ext) (length data)) (set_parent this)
      (sh c (ext ++ radio_rows w0 None cid name lm vm N (length ext) pos index data)%list d)
    = Ok tt
        (sh c (ext ++ radio_rows w0 (Some this) cid name lm vm N (length ext) pos index
                        data)%list d).
Proof.
  induction data as [|item data IH]; intros ext pos index; [reflexivity|].
  cbn [length row_args forEach radio_rows].
  erewrite (bind_set_parent_ext _ _ Hthis).
  2:{ rewrite lookup_app_r by lia.
      replace (length ext + 2 - length ext) with 2 by lia. reflexivity. }
  rewrite insert_app_r_alt by lia.
  replace (length ext + 2 - length ext) with 2 by lia.
  cbn [radio_row app insert list_insert adopt with_parent].
  match goal with
  | |- forEach _ _ (shape _ _ _ (ext ++ ?a :: ?b :: ?r :: ?rest)%list _) = _ =>
      change (ext ++ a :: b :: r :: rest)%list with (ext ++ [a; b; r] ++ rest)%list;
      rewrite (app_assoc ext [a; b; r] rest);
      replace (length ext + 3) with (length (ext ++ [a; b; r])%list)
        by (rewrite length_app; reflexivity)
  end.
  rewrite IH. rewrite <- app_assoc, length_app. reflexivity.
Qed.

End Radio.

(** X25. [Select.init] with [useRadio] returns after twenty-four draws for
    each item: the node is a [div] over one new [div] for each item, in the
    order of the data, whose children are a new self-closing [input] of
    type [radio] and a new [label] with the label of the item as content.
    The [id] of the input and the [for] of the label are both the identity
    of the node, [-option-] and the index of the item; the [name] of every
    input is the global [name] of the host, not the one of the options. *)
Theorem Select_init_radio_rows {T} (w : World T) (this : loc) (c : Comp T)
    (data : list T) (name : string) (labelMapper valueMapper : T -> string) :
  heap w !! this = Some (OComp c) ->
  options c = OptSelect data name labelMapper valueMapper true ->
  Select_init this w
  = Ok tt (shape w this
             (div_shape [] (row_args (length (heap w)) 0 (length data)) c)
             (radio_rows w (Some this) (id c) (window_name (host w)) labelMapper
                valueMapper (length (heap w)) 0 (draws w) 0 data)
             (draws w + 24 * length data)).
Proof.
  intros H Hopts.
  assert (Hthis : this < length (heap w)) by (eapply lookup_lt_Some; exact H).
  unfold Select_init. unfold bind at 1. rewrite (BuiltinComp_init_put this w c H).
  rewrite (shape_start w this Hthis c H) at 1. rewrite (put_shape _ _ Hthis).
  rewrite (bind_getComp_this _ _ Hthis), bind_gets_shape.
  cbn [options id with_renderMode with_tagName with_registrations with_children
       with_classNames with_attributes]. rewrite Hopts.
  unfold indexed. rewrite host_shape.
  rewrite (radio_loop w this Hthis). cbn [length app].
  unfold compose. shape_run Hthis.
  rewrite (compose_branch _ _ _ (row_args_not_text _ _ _)).
  shape_run Hthis. unfold bind at 1.
  match goal with
  | |- context [forEach _ _ (shape w this ?c1 (radio_rows _ _ ?cid ?nm _ _ _ _ ?pos ?ix _)
                               ?d1)] =>
      pose proof (set_parents_rows w this Hthis cid nm labelMapper valueMapper c1 d1 data
                    [] pos ix) as Hp
  end.
  cbn [length app] in Hp. rewrite Hp. reflexivity.
Qed.

Lemma Select_init_radio_rows_witness :
  heap radio_start !! 0
  = Some (OComp (with_options
                   (OptSelect [1; 2] "size" (fun _ => "L") (fun _ => "V") true)
                   (sample_comp CSelect "Ab" "p" None None [])))
  /\ returns (Select_init 0 radio_start) = true
  /\ option_map children (comp_at (final (Select_init 0 radio_start)) 0)
     = Some [ANode 4; ANode 7]
  /\ option_map children (comp_at (final (Select_init 0 radio_start)) 7)
     = Some [ANode 5; ANode 6]
  /\ option_map (fun c => attr_get (attributes c) "id")
       (comp_at (final (Select_init 0 radio_start)) 5)
     = Some (VStr "Ab-option-1")
  /\ option_map (fun c => attr_get (attributes c) "for")
       (comp_at (final (Select_init 0 radio_start)) 6)
     = Some (VStr "Ab-option-1").
Proof.
  split; [reflexivity|].
  pose proof (Select_init_radio_rows radio_start 0 _ [1; 2] "size" (fun _ => "L")
                (fun _ => "V") eq_refl eq_refl) as Hrun.
  split; [rewrite Hrun; reflexivity|].
  split; [rewrite Hrun; reflexivity|].
  split; [rewrite Hrun; reflexivity|].
  split; rewrite Hrun; reflexivity.
Defined.
